(** * geminicord: the permission gate, the conversation walk, the system
    prompt, the streaming response driver, the preference store with its
    slash commands and the image download of [bot.py], embedded in Rocq.

    Python values are modelled as follows.
    - [str] is a sequence of Unicode code points ([list N]), so that [len],
      slicing and concatenation count characters the way Python does.
    - Integers (Discord ids) are [Z]; counts taken from the configuration
      ([max_text], [max_images], [max_messages], [max_urls]) are [nat].
    - Dictionaries keyed by ids or by strings are stdpp [gmap]s, Python
      sets of strings are [gset]s.
    - Clock readings ([datetime.now().timestamp()]) are rationals.
    - Awaited platform calls are explicit state passing over a platform
      record; exceptions are explicit outcomes.
    - The data directory is a map from paths to files; a file holds the
      object last written to it, or a content that cannot be read. *)

From Stdlib Require Import ZArith List String Ascii DecimalString QArith Lqa Lia Bool.
From Stdlib Require DecimalZ DecimalPos.
From stdpp Require Import gmap list sorting.
Import ListNotations.
Local Open Scope Z_scope.

(** ** Python strings *)

Module PyStr.

Definition str := list N.

(** An ASCII literal of the source, as code points. *)
Definition lit (s : string) : str := map N_of_ascii (list_ascii_of_string s).

(** [str(n)] for an integer. *)
Definition str_of_int (z : Z) : str := lit (NilZero.string_of_int (Z.to_int z)).

(** [bool(s)] for a string: non-empty. *)
Definition truthy (s : str) : bool :=
  match s with [] => false | _ :: _ => true end.

(** [s[:n]] for a non-negative [n]. *)
Definition slice_to {A} (n : nat) (l : list A) : list A := firstn n l.

Fixpoint starts_with (p s : str) : bool :=
  match p, s with
  | [], _ => true
  | _ :: _, [] => false
  | a :: p', b :: s' => N.eqb a b && starts_with p' s'
  end.

Definition ends_with (p s : str) : bool := starts_with (rev p) (rev s).

(** [p in s] for strings. *)
Fixpoint contains (p s : str) : bool :=
  starts_with p s ||
  match s with
  | [] => false
  | _ :: s' => contains p s'
  end.

(** [s.removeprefix(p)]. *)
Definition removeprefix (p s : str) : str :=
  if starts_with p s then skipn (length p) s else s.

(** [str.isspace] on one code point: the characters [str.strip] and
    [str.lstrip] remove when called without argument. *)
Definition is_space (c : N) : bool :=
  ((9 <=? c) && (c <=? 13) || (28 <=? c) && (c <=? 32) || (c =? 133)
   || (c =? 160) || (c =? 5760) || (8192 <=? c) && (c <=? 8202)
   || (c =? 8232) || (c =? 8233) || (c =? 8239) || (c =? 8287)
   || (c =? 12288))%N.

Fixpoint lstrip (s : str) : str :=
  match s with
  | c :: s' => if is_space c then lstrip s' else s
  | [] => []
  end.

Definition rstrip (s : str) : str := rev (lstrip (rev s)).
Definition strip (s : str) : str := rstrip (lstrip s).

(** [s.replace(old, new)] for a non-empty [old]: the occurrences are
    replaced from left to right without overlap.  [skip] counts the
    characters of a matched occurrence still to be dropped. *)
Fixpoint replace_from (old new : str) (skip : nat) (s : str) : str :=
  match s with
  | [] => []
  | c :: s' =>
      match skip with
      | S k => replace_from old new k s'
      | O =>
          if starts_with old s
          then new ++ replace_from old new (length old - 1) s'
          else c :: replace_from old new 0 s'
      end
  end.

Definition replace (old new s : str) : str := replace_from old new 0 s.

(** [sep.join(parts)]. *)
Fixpoint join (sep : str) (parts : list str) : str :=
  match parts with
  | [] => []
  | [p] => p
  | p :: rest => p ++ sep ++ join sep rest
  end.

(** The digits of [format(n, ',')]: groups of three from the right. *)
Fixpoint group3 (rev_digits : str) : str :=
  match rev_digits with
  | a :: b :: c :: (_ :: _) as rest => a :: b :: c :: 44%N :: group3 rest
  | _ => rev_digits
  end.

Definition format_thousands (n : nat) : str :=
  rev (group3 (rev (str_of_int (Z.of_nat n)))).

(** Code-point order on strings, as [sorted] uses it. *)
Fixpoint str_leb (a b : str) : bool :=
  match a, b with
  | [], _ => true
  | _ :: _, [] => false
  | x :: a', y :: b' => (x <? y)%N || ((x =? y)%N && str_leb a' b')
  end.

Definition sorted (l : list str) : list str :=
  merge_sort (fun a b => Is_true (str_leb a b)) l.

End PyStr.

Import PyStr.

(** ** Permission gate ([on_message], the checks before any work is done) *)

Module Gate.

(** [permissions[scope]]: an allow-list and a block-list of ids. *)
Record Permission := { allowed_ids : list Z; blocked_ids : list Z }.

Record Permissions := {
  users : Permission;
  admin_ids : list Z;
  roles : Permission;
  channels : Permission
}.

(** The fields of the reloaded configuration the gate reads. *)
Record ConfigData := { allow_dms : bool; permissions : Permissions }.

(** What the gate reads of the incoming message. *)
Record Event := {
  author_id : Z;
  author_bot : bool;
  is_dm : bool;                (* channel.type == ChannelType.private *)
  mentions_bot : bool;         (* discord_bot.user in new_msg.mentions *)
  author_roles : list Z;       (* getattr(author, 'roles', ()) *)
  channel_id : Z;
  parent_id : option Z;        (* getattr(channel, 'parent_id', None) *)
  category_id : option Z       (* getattr(channel, 'category_id', None) *)
}.

(** [x in ids] on a list of integers. *)
Definition py_in (x : Z) (ids : list Z) : bool := existsb (Z.eqb x) ids.

(** [any(id in ids for id in xs)]. *)
Definition any_in (xs ids : list Z) : bool := existsb (fun x => py_in x ids) xs.

(** [not ids]. *)
Definition is_empty (ids : list Z) : bool :=
  match ids with [] => true | _ :: _ => false end.

(** [filter(None, ...)]: drops [None] and [0]. *)
Definition filter_none (xs : list (option Z)) : list Z :=
  flat_map (fun o => match o with
                     | Some z => if z =? 0 then [] else [z]
                     | None => []
                     end) xs.

Definition role_ids (ev : Event) : list Z := author_roles ev.

Definition channel_ids (ev : Event) : list Z :=
  filter_none [Some (channel_id ev); parent_id ev; category_id ev].

Section Checks.
Variable cfg : ConfigData.
Variable ev : Event.

Let perms := permissions cfg.
Let allowed_user_ids := allowed_ids (users perms).
Let blocked_user_ids := blocked_ids (users perms).
Let allowed_role_ids := allowed_ids (roles perms).
Let blocked_role_ids := blocked_ids (roles perms).
Let allowed_channel_ids := allowed_ids (channels perms).
Let blocked_channel_ids := blocked_ids (channels perms).

Definition user_is_admin : bool := py_in (author_id ev) (admin_ids perms).

Definition allow_all_users : bool :=
  if is_dm ev then is_empty allowed_user_ids
  else is_empty allowed_user_ids && is_empty allowed_role_ids.

Definition is_good_user : bool :=
  user_is_admin || allow_all_users
  || py_in (author_id ev) allowed_user_ids
  || any_in (role_ids ev) allowed_role_ids.

Definition is_bad_user : bool :=
  negb is_good_user
  || py_in (author_id ev) blocked_user_ids
  || any_in (role_ids ev) blocked_role_ids.

Definition allow_all_channels : bool := is_empty allowed_channel_ids.

(** The conditional expression binds weaker than [or]:
    [(user_is_admin or allow_dms) if is_dm else (allow_all_channels or any(...))]. *)
Definition is_good_channel : bool :=
  if is_dm ev then user_is_admin || allow_dms cfg
  else allow_all_channels || any_in (channel_ids ev) allowed_channel_ids.

Definition is_bad_channel : bool :=
  negb is_good_channel || any_in (channel_ids ev) blocked_channel_ids.

(** The event goes on to be processed: neither early [return] is taken. *)
Definition permitted : bool := negb (is_bad_user || is_bad_channel).

(** The first [return]: not addressed to the bot, or written by a bot. *)
Definition ignored : bool :=
  (negb (is_dm ev) && negb (mentions_bot ev)) || author_bot ev.

Definition processed : bool := negb ignored && permitted.

(** *** The checks in the words of the specification *)

(** The author is in the user block-list or holds a blocked role. *)
Definition user_blocked : bool :=
  py_in (author_id ev) blocked_user_ids || any_in (role_ids ev) blocked_role_ids.

(** The channel, its parent or its category is in the channel block-list. *)
Definition channel_blocked : bool := any_in (channel_ids ev) blocked_channel_ids.

(** The user allow-check of a non-administrator. *)
Definition user_allow_check : bool :=
  allow_all_users
  || py_in (author_id ev) allowed_user_ids
  || any_in (role_ids ev) allowed_role_ids.

(** The channel allow-check of a non-administrator. *)
Definition channel_allow_check : bool :=
  if is_dm ev then allow_dms cfg
  else allow_all_channels || any_in (channel_ids ev) allowed_channel_ids.

(** The final decision as the specification words it: an administrator
    skips both allow-checks everywhere. *)
Definition spec_decision : bool :=
  if user_is_admin
  then negb user_blocked && negb channel_blocked
  else (user_allow_check && negb user_blocked)
       && (channel_allow_check && negb channel_blocked).

(** The user scope read on its own: an empty user allow-set admits
    every author. *)
Definition spec_user_scope_open : bool := is_empty allowed_user_ids.

End Checks.

End Gate.

(** ** Exceptions *)

Inductive PyExn :=
| UnboundLocalError   (* a local variable read before assignment *)
| IndexError          (* [l[-1]] on an empty list *)
| KeyError            (* a missing dictionary key *)
| RuntimeError        (* releasing a lock that is not held *)
| HTTPException       (* a failed platform call *)
| GenerationError     (* the generation call or its stream failed *)
| ValueError.         (* a chunk whose text cannot be read *)

Inductive PyResult (A : Type) :=
| Return (a : A)
| Raise (e : PyExn).
Arguments Return {A} a.
Arguments Raise {A} e.

(** ** System prompt ([build_system_prompt]) *)

Module Prompt.

(** One stored user record of the preference store. *)
Record UserRec := {
  display_name : str;
  description : str;
  first_seen : str;
  last_updated : str
}.

(** The preference record as [build_system_prompt] reads it.  [sd_users]
    is [None] for a missing or [null] entry (the direct-message form);
    [sd_user] is [None] for a missing entry and for the empty dictionary
    the store creates first, both of which [server_data.get('user')]
    finds false. *)
Record ServerData := {
  sd_users : option (gmap str UserRec);
  sd_user : option UserRec
}.

Definition nl : str := [10%N].

(** [server_data.get('users') and user_id_str in server_data['users']]. *)
Definition in_users (sd : ServerData) (key : str) : bool :=
  match sd_users sd with
  | Some m => negb (bool_decide (m = ∅)) && bool_decide (is_Some (m !! key))
  | None => false
  end.

(** [server_data['users'][user_id_str]], read after [in_users] held. *)
Definition users_get (sd : ServerData) (key : str) : PyResult UserRec :=
  match sd_users sd with
  | Some m => match m !! key with Some u => Return u | None => Raise KeyError end
  | None => Raise KeyError
  end.

Definition guild_line (user_id : Z) (u : UserRec) : str :=
  lit "- <@" ++ str_of_int user_id ++ lit "> (Display: " ++ display_name u
  ++ lit "): " ++ description u.

Definition dm_line (u : UserRec) : str :=
  lit "- " ++ display_name u ++ lit ": " ++ description u.

(** The locals the loop over the participants carries: [user] is [None]
    while the variable has not been assigned. *)
Record Locals := { user : option UserRec; users_info : list str }.

(** One turn of [for user_id in conversation_user_ids]. *)
Definition loop_body (sd : ServerData) (loc : Locals) (user_id : Z)
  : PyResult Locals :=
  let user_id_str := str_of_int user_id in
  if in_users sd user_id_str then
    match users_get sd user_id_str with
    | Raise e => Raise e
    | Return u =>
        Return {| user := Some u;
                  users_info := if truthy (description u)
                                then users_info loc ++ [guild_line user_id u]
                                else users_info loc |}
    end
  else
    match sd_user sd with
    | None => Return loc
    | Some _ =>
        (* [user.get('description')]: the loop's own variable [user] *)
        match user loc with
        | None => Raise UnboundLocalError
        | Some u =>
            Return {| user := user loc;
                      users_info := if truthy (description u)
                                    then users_info loc ++ [dm_line u]
                                    else users_info loc |}
        end
    end.

Fixpoint loop (sd : ServerData) (loc : Locals) (ids : list Z)
  : PyResult Locals :=
  match ids with
  | [] => Return loc
  | user_id :: rest =>
      match loop_body sd loc user_id with
      | Raise e => Raise e
      | Return loc' => loop sd loc' rest
      end
  end.

Definition known_users_header : str :=
  nl ++ nl ++ lit "Known users in this conversation:" ++ nl.

Definition known_users_footer : str :=
  nl ++ nl ++
  lit "When addressing users, use their display names naturally in conversation.".

(** The prompt before the known-users block: the two substitutions, the
    [strip] and the server name. *)
Definition prompt_head (date time base_prompt : str) (server_name : option str)
  : str :=
  let prompt :=
    strip (replace (lit "{time}") time (replace (lit "{date}") date base_prompt)) in
  match server_name with
  | Some name => if truthy name
                 then prompt ++ nl ++ nl ++ lit "Current server: " ++ name
                 else prompt
  | None => prompt
  end.

(** [build_system_prompt].  [date] and [time] are the two renderings of the
    clock ([now.strftime(...)]); [conversation_user_ids] lists the set in
    the order the loop iterates it. *)
Definition build_system_prompt (date time : str) (base_prompt : str)
    (server_data : ServerData) (server_name : option str)
    (conversation_user_ids : list Z) : PyResult str :=
  let prompt := prompt_head date time base_prompt server_name in
  match loop server_data {| user := None; users_info := [] |} conversation_user_ids with
  | Raise e => Raise e
  | Return loc =>
      match users_info loc with
      | [] => Return prompt
      | _ :: _ =>
          Return (prompt ++ known_users_header ++ join nl (users_info loc)
                  ++ known_users_footer)
      end
  end.

(** The known-users lines of the specification for a guild record: one
    line per participant with a non-empty stored description. *)
Definition spec_lines (m : gmap str UserRec) (ids : list Z) : list str :=
  flat_map (fun user_id =>
              match m !! str_of_int user_id with
              | Some u => if truthy (description u) then [guild_line user_id u] else []
              | None => []
              end) ids.

End Prompt.

(** ** Messages and the node cache *)

Module Chat.

Inductive Role := RoleUser | RoleModel.

(** The part [download_and_encode_image] returns for an image. *)
Record ImagePart := { mime_type : str; data : str }.

Record Attachment := { content_type : option str; url : str }.

Record EmbedInfo := { title : option str; embed_description : option str }.

Record User := { user_id : Z; user_display_name : str }.

Inductive ChannelType := ChText | ChPrivate | ChPublicThread | ChOther.

Inductive MessageType := MtDefault | MtReply | MtOther.

(** What the handler reads of a [discord.Message].  [reference] is [None]
    without a reply reference and [Some mid] with one whose [message_id]
    is [mid]. *)
Record Message := {
  msg_id : Z;
  content : str;
  author : User;
  attachments : list Attachment;
  embeds : list EmbedInfo;
  reference : option (option Z);
  msg_type : MessageType;
  channel_id : Z;
  channel_type : ChannelType;
  channel_parent_is_text : bool   (* channel.parent.type == ChannelType.text *)
}.

(** [MsgNode]; [locked] is the state of the node's [asyncio.Lock]. *)
Record MsgNode := {
  text : option str;
  images : list ImagePart;
  role : Role;
  node_user_id : option Z;
  node_display_name : option str;
  has_bad_attachments : bool;
  fetch_parent_failed : bool;
  parent_msg : option Message;
  locked : bool
}.

(** [MsgNode()] with the defaults of the dataclass. *)
Definition MsgNode_new (parent : option Message) : MsgNode :=
  {| text := None; images := []; role := RoleModel; node_user_id := None;
     node_display_name := None; has_bad_attachments := false;
     fetch_parent_failed := false; parent_msg := parent; locked := false |}.

Definition set_locked (b : bool) (n : MsgNode) : MsgNode :=
  {| text := text n; images := images n; role := role n;
     node_user_id := node_user_id n; node_display_name := node_display_name n;
     has_bad_attachments := has_bad_attachments n;
     fetch_parent_failed := fetch_parent_failed n;
     parent_msg := parent_msg n; locked := b |}.

Definition set_text (t : str) (n : MsgNode) : MsgNode :=
  {| text := Some t; images := images n; role := role n;
     node_user_id := node_user_id n; node_display_name := node_display_name n;
     has_bad_attachments := has_bad_attachments n;
     fetch_parent_failed := fetch_parent_failed n;
     parent_msg := parent_msg n; locked := locked n |}.

(** The result of an awaited fetch that may raise [discord.NotFound] or
    [discord.HTTPException]. *)
Inductive Fetch (A : Type) :=
| Fetched (a : A)
| FetchFailed.
Arguments Fetched {A} a.
Arguments FetchFailed {A}.

(** The platform as the conversation walk queries it. *)
Record Env := {
  bot_id : Z;                                           (* discord_bot.user *)
  history_before : Message -> Fetch (option Message);   (* channel.history(before=m, limit=1) *)
  starter_message : Message -> option Message;          (* channel.starter_message *)
  parent_fetch_message : Message -> Z -> Fetch Message; (* channel.parent.fetch_message *)
  channel_fetch_message : Message -> Z -> Fetch Message;(* channel.fetch_message *)
  cached_message : Message -> option Message;           (* reference.cached_message *)
  download_and_encode_image : str -> option ImagePart
}.

(** [discord_bot.user.mention]. *)
Definition mention (env : Env) : str :=
  lit "<@" ++ str_of_int (bot_id env) ++ lit ">".

(** The limits read from the configuration. *)
Record Limits := {
  max_text : nat;
  max_images : nat;
  max_messages : nat;
  max_urls : nat
}.

Inductive Part := TextPart (s : str) | ImgPart (i : ImagePart).

(** One entry of [messages]. *)
Record Turn := { turn_role : Role; parts : list Part }.

Definition is_image (p : Part) : bool :=
  match p with ImgPart _ => true | TextPart _ => false end.

Definition turn_images (t : Turn) : list Part := List.filter is_image (parts t).

End Chat.

Import Chat.

(** ** Image links in the text ([extract_image_urls]) *)

Module Urls.

(** A character the negated class of the pattern accepts: no white space
    and none of the characters 60 62 34 123 125 124 92 94 96 91 93. *)
Definition url_char (c : N) : bool :=
  negb (is_space c
        || (c =? 60) || (c =? 62) || (c =? 34) || (c =? 123) || (c =? 125)
        || (c =? 124) || (c =? 92) || (c =? 94) || (c =? 96) || (c =? 91)
        || (c =? 93))%N.

Fixpoint take_while (f : N -> bool) (s : str) : str :=
  match s with
  | c :: s' => if f c then c :: take_while f s' else []
  | [] => []
  end.

(** A match of the pattern (http, an optional s, ://, one or more class
    characters) that begins at the head of [s]. *)
Definition match_at (s : str) : option str :=
  let after (scheme : str) : option str :=
    if starts_with scheme s then
      match take_while url_char (skipn (length scheme) s) with
      | [] => None
      | run => Some (scheme ++ run)
      end
    else None in
  match after (lit "https://") with
  | Some u => Some u
  | None => after (lit "http://")
  end.

(** [re.findall]: the matches from left to right, without overlap. *)
Fixpoint findall (skip : nat) (s : str) : list str :=
  match s with
  | [] => []
  | _ :: s' =>
      match skip with
      | S k => findall k s'
      | O =>
          match match_at s with
          | Some u => u :: findall (length u - 1) s'
          | None => findall 0 s'
          end
      end
  end.

(** [str.lower] on the letters that matter for an ASCII suffix. *)
Definition lower_char (c : N) : N :=
  if ((65 <=? c) && (c <=? 90))%N then (c + 32)%N else c.

Definition lower (s : str) : str := map lower_char s.

Definition image_extensions : list str :=
  [lit ".png"; lit ".jpg"; lit ".jpeg"; lit ".gif"; lit ".webp"; lit ".bmp"].

Definition is_image_url (u : str) : bool :=
  existsb (fun ext => ends_with ext (lower u)) image_extensions.

Definition extract_image_urls (text : str) (max_urls : nat) : list str :=
  slice_to max_urls (List.filter is_image_url (findall 0 text)).

End Urls.

(** ** Conversation walk ([on_message], the loop building [messages]) *)

Module Walk.

Import Urls.

Definition warn_sign : str := [9888%N; 65039%N].

Definition warn_max_text (lim : Limits) : str :=
  warn_sign ++ lit " Max " ++ format_thousands (max_text lim)
  ++ lit " characters per message".

Definition warn_max_images (lim : Limits) : str :=
  warn_sign ++ lit " Max " ++ str_of_int (Z.of_nat (max_images lim))
  ++ lit " images per message".

Definition warn_unsupported : str := warn_sign ++ lit " Unsupported attachments".

Definition warn_only_last (n : nat) : str :=
  warn_sign ++ lit " Only using last " ++ str_of_int (Z.of_nat n)
  ++ lit " message" ++ (if Nat.eqb n 1 then [] else lit "s").

(** [att.content_type and att.content_type.startswith('image')]. *)
Definition is_good_attachment (att : Attachment) : bool :=
  match content_type att with
  | Some ct => truthy ct && starts_with (lit "image") ct
  | None => false
  end.

Definition good_attachments (m : Message) : list Attachment :=
  List.filter is_good_attachment (attachments m).

(** [filter(None, (embed.title, embed.description))], joined by newlines. *)
Definition embed_text (e : EmbedInfo) : str :=
  join Prompt.nl
       (omap (fun o => match o with
                       | Some s => if truthy s then Some s else None
                       | None => None
                       end) [title e; embed_description e]).

Definition node_text (env : Env) (m : Message) : str :=
  let cleaned_content := lstrip (removeprefix (mention env) (content m)) in
  join Prompt.nl ((if truthy cleaned_content then [cleaned_content] else [])
                  ++ map embed_text (embeds m)).

(** The images of a node: the attachments first, then the links found in
    the text while the cap leaves room. *)
Definition node_images (env : Env) (lim : Limits) (m : Message) (txt : str)
  : list ImagePart :=
  let from_attachments :=
    omap (fun att => download_and_encode_image env (url att))
         (slice_to (max_images lim) (good_attachments m)) in
  if (length from_attachments <? max_images lim)%nat then
    let text_image_urls := extract_image_urls txt (max_urls lim) in
    from_attachments
    ++ omap (download_and_encode_image env)
            (slice_to (max_images lim - length from_attachments) text_image_urls)
  else from_attachments.

Definition same_user (a b : User) : bool := user_id a =? user_id b.

Definition is_bot (env : Env) (u : User) : bool := user_id u =? bot_id env.

(** The lineage parent of [m] ([try: ... except (NotFound, HTTPException)]):
    the parent found, if any, and whether a fetch failed.  [is_dm] is the
    flag of the trigger message. *)
Definition find_parent (env : Env) (is_dm : bool) (m : Message)
  : option Message * bool :=
  let by_reference : option Message * bool :=
    let is_public_thread :=
      match channel_type m with ChPublicThread => true | _ => false end in
    let parent_is_thread_start :=
      is_public_thread
      && (match reference m with None => true | Some _ => false end)
      && channel_parent_is_text m in
    let parent_msg_id : option Z :=
      if parent_is_thread_start then Some (channel_id m)
      else match reference m with Some mid => mid | None => None end in
    match parent_msg_id with
    | None => (None, false)
    | Some pid =>
        if pid =? 0 then (None, false)
        else if parent_is_thread_start then
          match starter_message env m with
          | Some p => (Some p, false)
          | None =>
              match parent_fetch_message env m pid with
              | Fetched p => (Some p, false)
              | FetchFailed => (None, true)
              end
          end
        else
          match cached_message env m with
          | Some p => (Some p, false)
          | None =>
              match channel_fetch_message env m pid with
              | Fetched p => (Some p, false)
              | FetchFailed => (None, true)
              end
          end
    end in
  match reference m with
  | None =>
      if negb (contains (mention env) (content m)) then
        match history_before env m with
        | FetchFailed => (None, true)
        | Fetched None => by_reference
        | Fetched (Some prev) =>
            if (match msg_type prev with MtDefault | MtReply => true | MtOther => false end)
               && (if is_dm then is_bot env (author prev)
                   else same_user (author prev) (author m))
            then (Some prev, false)
            else by_reference
        end
      else by_reference
  | Some _ => by_reference
  end.

(** The body of [if curr_node.text is None:]: the node filled in from the
    message. *)
Definition populate (env : Env) (lim : Limits) (is_dm : bool) (m : Message)
    (node : MsgNode) : MsgNode :=
  let txt := node_text env m in
  let r := if is_bot env (author m) then RoleModel else RoleUser in
  let found := find_parent env is_dm m in
  {| text := Some txt;
     images := node_images env lim m txt;
     role := r;
     node_user_id :=
       match r with RoleUser => Some (user_id (author m)) | RoleModel => None end;
     node_display_name :=
       match r with
       | RoleUser => Some (user_display_name (author m))
       | RoleModel => None
       end;
     has_bad_attachments :=
       (length (good_attachments m) <? length (attachments m))%nat;
     fetch_parent_failed := fetch_parent_failed node || snd found;
     parent_msg := match fst found with Some p => Some p | None => parent_msg node end;
     locked := locked node |}.

(** The locals of the loop and the cache. *)
Record State := {
  messages : list Turn;
  user_warnings : gset str;
  conversation_user_ids : gset Z;
  msg_nodes : gmap Z MsgNode
}.

(** The parts of the turn built from a populated node. *)
Definition node_parts (lim : Limits) (node : MsgNode) : list Part :=
  let txt := slice_to (max_text lim) (default [] (text node)) in
  (if truthy txt then
     [TextPart
        (match role node, node_display_name node with
         | RoleUser, Some name =>
             if truthy name then name ++ lit ": " ++ txt else txt
         | _, _ => txt
         end)]
   else [])
  ++ map ImgPart (slice_to (max_images lim) (images node)).

Definition add_if (b : bool) (w : str) (ws : gset str) : gset str :=
  if b then {[ w ]} ∪ ws else ws.

(** [msg_nodes.setdefault(curr_msg.id, MsgNode())]. *)
Definition cached_node (st : State) (curr_msg : Message) : MsgNode :=
  default (MsgNode_new None) (msg_nodes st !! msg_id curr_msg).

(** [if curr_node.text is None:] the node is populated, once. *)
Definition filled_node (env : Env) (lim : Limits) (is_dm : bool)
    (curr_msg : Message) (curr_node : MsgNode) : MsgNode :=
  match text curr_node with
  | None => populate env lim is_dm curr_msg curr_node
  | Some _ => curr_node
  end.

Inductive StepResult :=
| Blocked                                  (* the node's lock is held *)
| Next (st : State) (curr_msg : option Message).

(** One turn of the [while] loop, for the current message [curr_msg]. *)
Definition loop_body (env : Env) (lim : Limits) (is_dm : bool) (st : State)
    (curr_msg : Message) : StepResult :=
  let curr_node := cached_node st curr_msg in
  if locked curr_node then Blocked
  else
    let curr_node := filled_node env lim is_dm curr_msg curr_node in
    let ids :=
      match node_user_id curr_node with
      | Some uid => if uid =? 0 then conversation_user_ids st
                    else {[ uid ]} ∪ conversation_user_ids st
      | None => conversation_user_ids st
      end in
    let new_parts := node_parts lim curr_node in
    let msgs :=
      match new_parts with
      | [] => messages st
      | _ :: _ => messages st ++ [{| turn_role := role curr_node; parts := new_parts |}]
      end in
    let ws := user_warnings st in
    let ws := add_if (max_text lim <? length (default [] (text curr_node)))%nat
                     (warn_max_text lim) ws in
    let ws := add_if (max_images lim <? length (images curr_node))%nat
                     (warn_max_images lim) ws in
    let ws := add_if (has_bad_attachments curr_node) warn_unsupported ws in
    let ws :=
      add_if (fetch_parent_failed curr_node
              || (match parent_msg curr_node with Some _ => true | None => false end
                  && Nat.eqb (length msgs) (max_messages lim)))
             (warn_only_last (length msgs)) ws in
    Next {| messages := msgs;
            user_warnings := ws;
            conversation_user_ids := ids;
            msg_nodes := <[ msg_id curr_msg := curr_node ]> (msg_nodes st) |}
         (parent_msg curr_node).

(** The [while] loop; [fuel] bounds the number of iterations, and [None]
    is returned when it does not suffice. *)
Inductive Outcome :=
| Done (st : State)
| Stuck.            (* waiting for a lock that is held *)

Fixpoint walk (env : Env) (lim : Limits) (is_dm : bool) (fuel : nat)
    (st : State) (curr_msg : option Message) : option Outcome :=
  match curr_msg with
  | None => Some (Done st)
  | Some m =>
      if (length (messages st) <? max_messages lim)%nat then
        match fuel with
        | O => None
        | S fuel' =>
            match loop_body env lim is_dm st m with
            | Blocked => Some Stuck
            | Next st' next => walk env lim is_dm fuel' st' next
            end
        end
      else Some (Done st)
  end.

(** The state the handler starts the walk in. *)
Definition start (nodes : gmap Z MsgNode) : State :=
  {| messages := []; user_warnings := ∅; conversation_user_ids := ∅;
     msg_nodes := nodes |}.

(** The state and the current message after [n] iterations of the loop
    body alone, the guard on [len(messages)] left aside. *)
Fixpoint visit (env : Env) (lim : Limits) (is_dm : bool) (n : nat)
    (st : State) (curr_msg : option Message) : option (State * Message) :=
  match curr_msg with
  | None => None
  | Some m =>
      match n with
      | O => Some (st, m)
      | S n' =>
          match loop_body env lim is_dm st m with
          | Blocked => None
          | Next st' next => visit env lim is_dm n' st' next
          end
      end
  end.

(** The loop body on [m] gets the node's lock and appends a turn to
    [messages]. *)
Definition yields_turn (env : Env) (lim : Limits) (is_dm : bool) (st : State)
    (m : Message) : bool :=
  match loop_body env lim is_dm st m with
  | Blocked => false
  | Next st' _ => Nat.eqb (length (messages st')) (S (length (messages st)))
  end.

(** Every node of the cache holds at most [max_images] images. *)
Definition cache_capped (lim : Limits) (nodes : gmap Z MsgNode) : Prop :=
  forall k node, nodes !! k = Some node ->
                 (length (images node) <= max_images lim)%nat.

(** Every turn holds at most [max_images] images. *)
Definition turns_capped (lim : Limits) (turns : list Turn) : Prop :=
  Forall (fun t => (length (turn_images t) <= max_images lim)%nat) turns.

(** An attachment of [m] that is not among the images handed to the
    resolver. *)
Definition dropped (lim : Limits) (m : Message) (att : Attachment) : Prop :=
  In att (attachments m)
  /\ ~ In att (slice_to (max_images lim) (good_attachments m)).

End Walk.

(** ** Streaming response driver ([on_message], from the generation call on) *)

Module Driver.

Definition EDIT_DELAY_SECONDS : Q := 2.
Definition MAX_MESSAGE_NODES : nat := 500.

(** The in-progress marker: a space and the white circle U+26AA. *)
Definition marker : str := [32%N; 9898%N].

Definition error_msg : str :=
  lit "Sorry, I encountered an error while generating a response.".

Definition max_message_length (use_plain_responses : bool) : nat :=
  if use_plain_responses then 2000%nat else (4096 - length marker)%nat.

Inductive Color := Orange | DarkGreen | Red.

(** A [discord.Embed]: its fields, description and colour. *)
Record Embed := {
  embed_fields : list (str * str);
  description : option str;
  color : option Color
}.

Definition Embed_new : Embed :=
  {| embed_fields := []; description := None; color := None |}.

Definition paint (d : str) (c : Color) (e : Embed) : Embed :=
  {| embed_fields := embed_fields e; description := Some d; color := Some c |}.

(** The keyword arguments of a [reply] or an [edit]. *)
Inductive Kwargs :=
| EmbedKw (e : Embed) (silent : bool)
| ContentKw (c : str).

(** The message object a [reply] returns. *)
Record Sent := { sent_id : Z; sent_content : str }.

Definition kw_content (kw : Kwargs) : str :=
  match kw with ContentKw c => c | EmbedKw _ _ => [] end.

Inductive CallKind := IsReply | IsEdit.

(** One call of the reply/edit API.  [call_stamp] is the clock reading of
    the chunk during which the call was issued, [None] for a call issued
    outside the chunk loop. *)
Record Call := {
  call_kind : CallKind;
  call_target : Z;
  call_kwargs : Kwargs;
  call_ok : bool;
  call_stamp : option Q
}.

(** The platform: the id of the next message it creates, what every
    message created here shows, what it replies to, and the calls
    received so far. *)
Record Platform := {
  next_id : Z;
  shown : gmap Z Kwargs;
  reply_of : gmap Z Z;
  calls : list Call
}.

(** The locals of the handler, the cache and the platform. *)
Record State := {
  response_msgs : list Sent;
  response_contents : list str;
  curr_content : str;
  chunk_buffer : str;
  last_edit_time : Q;
  embed : Embed;
  msg_nodes : gmap Z MsgNode;
  platform : Platform
}.

Definition set_response_msgs v (s : State) : State :=
  {| response_msgs := v; response_contents := response_contents s;
     curr_content := curr_content s; chunk_buffer := chunk_buffer s;
     last_edit_time := last_edit_time s; embed := embed s;
     msg_nodes := msg_nodes s; platform := platform s |}.
Definition set_response_contents v (s : State) : State :=
  {| response_msgs := response_msgs s; response_contents := v;
     curr_content := curr_content s; chunk_buffer := chunk_buffer s;
     last_edit_time := last_edit_time s; embed := embed s;
     msg_nodes := msg_nodes s; platform := platform s |}.
Definition set_curr_content v (s : State) : State :=
  {| response_msgs := response_msgs s; response_contents := response_contents s;
     curr_content := v; chunk_buffer := chunk_buffer s;
     last_edit_time := last_edit_time s; embed := embed s;
     msg_nodes := msg_nodes s; platform := platform s |}.
Definition set_chunk_buffer v (s : State) : State :=
  {| response_msgs := response_msgs s; response_contents := response_contents s;
     curr_content := curr_content s; chunk_buffer := v;
     last_edit_time := last_edit_time s; embed := embed s;
     msg_nodes := msg_nodes s; platform := platform s |}.
Definition set_last_edit_time v (s : State) : State :=
  {| response_msgs := response_msgs s; response_contents := response_contents s;
     curr_content := curr_content s; chunk_buffer := chunk_buffer s;
     last_edit_time := v; embed := embed s;
     msg_nodes := msg_nodes s; platform := platform s |}.
Definition set_embed v (s : State) : State :=
  {| response_msgs := response_msgs s; response_contents := response_contents s;
     curr_content := curr_content s; chunk_buffer := chunk_buffer s;
     last_edit_time := last_edit_time s; embed := v;
     msg_nodes := msg_nodes s; platform := platform s |}.
Definition set_msg_nodes v (s : State) : State :=
  {| response_msgs := response_msgs s; response_contents := response_contents s;
     curr_content := curr_content s; chunk_buffer := chunk_buffer s;
     last_edit_time := last_edit_time s; embed := embed s;
     msg_nodes := v; platform := platform s |}.
Definition set_platform v (s : State) : State :=
  {| response_msgs := response_msgs s; response_contents := response_contents s;
     curr_content := curr_content s; chunk_buffer := chunk_buffer s;
     last_edit_time := last_edit_time s; embed := embed s;
     msg_nodes := msg_nodes s; platform := v |}.

(** A computation over the handler's state that may raise; the state
    reached is kept when it does. *)
Definition M (A : Type) : Type := State -> State * PyResult A.

Definition ret {A} (a : A) : M A := fun s => (s, Return a).
Definition raise {A} (e : PyExn) : M A := fun s => (s, Raise e).
Definition bind {A B} (m : M A) (k : A -> M B) : M B :=
  fun s => match m s with
           | (s', Return a) => k a s'
           | (s', Raise e) => (s', Raise e)
           end.
Definition get : M State := fun s => (s, Return s).
Definition modify (f : State -> State) : M unit := fun s => (f s, Return tt).
Definition when (b : bool) (m : M unit) : M unit := if b then m else ret tt.

Notation "'let*' x ':=' m 'in' k" := (bind m (fun x => k))
  (at level 10, x name, m at level 100, k at level 200).
Notation "m ;; k" := (bind m (fun _ => k))
  (at level 100, k at level 200, right associativity).

(** One element the generation stream yields: a chunk whose text can be
    read, with the clock reading taken right after, a chunk without text,
    or a chunk whose text raises when read. *)
Inductive Chunk :=
| TextChunk (txt : str) (now : Q)
| NoText
| BadText.

(** The generation call: it raises, or it returns a stream that yields
    its chunks and then ends or raises. *)
Inductive Generation :=
| GenFails
| GenStream (chunks : list Chunk) (breaks : bool).

Section Handler.
(** Whether the platform call number [n] raises. *)
Variable api_fails : nat -> bool.
Variable use_plain_responses : bool.
(** The trigger message. *)
Variable new_msg : Message.

Definition record_call (c : Call) (pf : Platform) : Platform :=
  {| next_id := next_id pf; shown := shown pf; reply_of := reply_of pf;
     calls := calls pf ++ [c] |}.

(** [await target.edit(...)]. *)
Definition edit (stamp : option Q) (target : Sent) (kw : Kwargs) : M unit :=
  fun s =>
    let pf := platform s in
    let c ok := {| call_kind := IsEdit; call_target := sent_id target;
                   call_kwargs := kw; call_ok := ok; call_stamp := stamp |} in
    if api_fails (length (calls pf)) then
      (set_platform (record_call (c false) pf) s, Raise HTTPException)
    else
      (set_platform
         {| next_id := next_id pf;
            shown := <[ sent_id target := kw ]> (shown pf);
            reply_of := reply_of pf;
            calls := calls pf ++ [c true] |} s,
       Return tt).

(** [await target.reply(...)]. *)
Definition reply (stamp : option Q) (target : Z) (kw : Kwargs) : M Sent :=
  fun s =>
    let pf := platform s in
    let c ok := {| call_kind := IsReply; call_target := target;
                   call_kwargs := kw; call_ok := ok; call_stamp := stamp |} in
    if api_fails (length (calls pf)) then
      (set_platform (record_call (c false) pf) s, Raise HTTPException)
    else
      (set_platform
         {| next_id := next_id pf + 1;
            shown := <[ next_id pf := kw ]> (shown pf);
            reply_of := <[ next_id pf := target ]> (reply_of pf);
            calls := calls pf ++ [c true] |} s,
       Return {| sent_id := next_id pf; sent_content := kw_content kw |}).

Definition reply_helper (stamp : option Q) (kw : Kwargs) : M unit :=
  let* s := get in
  let reply_target :=
    match last (response_msgs s) with
    | None => msg_id new_msg
    | Some m => sent_id m
    end in
  let* response_msg := reply stamp reply_target kw in
  modify (fun s => set_response_msgs (response_msgs s ++ [response_msg]) s) ;;
  modify (fun s =>
    set_msg_nodes
      (<[ sent_id response_msg := set_locked true (MsgNode_new (Some new_msg)) ]>
         (msg_nodes s)) s).

(** [response_contents[-1]], read where the list is not empty. *)
Definition last_content (s : State) : str :=
  default [] (last (response_contents s)).

(** [response_msgs[-1]]. *)
Definition last_msg : M Sent :=
  let* s := get in
  match last (response_msgs s) with
  | Some m => ret m
  | None => raise IndexError
  end.

(** [response_contents.append(chunk_buffer); chunk_buffer = ''] *)
Definition commit_buffer : M unit :=
  modify (fun s =>
    set_chunk_buffer []
      (set_response_contents (response_contents s ++ [chunk_buffer s]) s)).

(** The in-progress embed of a message just opened is sent and the edit
    timer restarted. *)
Definition open_message (fresh_embed : bool) (current_time : Q) : M unit :=
  modify (fun s =>
    set_embed (paint (last_content s ++ marker) Orange
                     (if fresh_embed then Embed_new else embed s)) s) ;;
  let* s := get in
  reply_helper (Some current_time) (EmbedKw (embed s) true) ;;
  modify (set_last_edit_time current_time).

Definition cap : nat := max_message_length use_plain_responses.

(** The active message gets its committed content as final content. *)
Definition finalize_active (committed : str) (current_time : Q) : M unit :=
  modify (fun s => set_embed (paint committed DarkGreen (embed s)) s) ;;
  let* m := last_msg in
  let* s := get in
  edit (Some current_time) m (EmbedKw (embed s) false).

(** [if response_contents and len(response_contents[-1] + chunk_buffer) >
    max_message_length:] a new message is started with the buffer. *)
Definition split_message (committed : str) (current_time : Q) : M unit :=
  when (negb use_plain_responses) (finalize_active committed current_time) ;;
  commit_buffer ;;
  when (negb use_plain_responses) (open_message true current_time).

(** [if response_contents == []:] the first message. *)
Definition first_message (current_time : Q) : M unit :=
  commit_buffer ;;
  when (negb use_plain_responses) (open_message false current_time).

(** The periodic update of the active message. *)
Definition periodic_edit (committed : str) (current_time : Q) : M unit :=
  modify (fun s =>
    set_embed (paint (committed ++ chunk_buffer s ++ marker) Orange (embed s)) s) ;;
  let* m := last_msg in
  let* s := get in
  edit (Some current_time) m (EmbedKw (embed s) false) ;;
  modify (set_last_edit_time current_time).

(** The body of [if hasattr(chunk, 'text'):]. *)
Definition on_text (txt : str) (current_time : Q) : M unit :=
  modify (fun s => set_chunk_buffer (chunk_buffer s ++ txt) s) ;;
  modify (fun s => set_curr_content (curr_content s ++ txt) s) ;;
  let* s := get in
  let time_since_edit := (current_time - last_edit_time s)%Q in
  match last (response_contents s) with
  | Some committed =>
      if (cap <? length (committed ++ chunk_buffer s))%nat
      then split_message committed current_time
      else when (negb use_plain_responses
                 && Qle_bool EDIT_DELAY_SECONDS time_since_edit)
                (periodic_edit committed current_time)
  | None => first_message current_time
  end.

(** One chunk of the stream under [try: ... except Exception: continue]:
    whatever the body raises is logged and dropped, the state reached is
    kept. *)
Definition process_chunk (c : Chunk) (s : State) : State :=
  match c with
  | TextChunk txt now => fst (on_text txt now s)
  | NoText => s
  | BadText => fst (@raise unit ValueError s)
  end.

Definition process_chunks (cs : list Chunk) (s : State) : State :=
  fold_left (fun s c => process_chunk c s) cs s.

(** [if chunk_buffer: response_contents[-1] += chunk_buffer]. *)
Definition flush_buffer : M unit :=
  let* s := get in
  if truthy (chunk_buffer s) then
    match last (response_contents s) with
    | None => raise IndexError
    | Some c =>
        modify (set_response_contents
                  (removelast (response_contents s) ++ [c ++ chunk_buffer s]))
    end
  else ret tt.

(** The final [for i, content in enumerate(response_contents)] of the
    rich mode, from index [i] on. *)
Fixpoint final_rich (i : nat) (contents : list str) : M unit :=
  match contents with
  | [] => ret tt
  | content :: rest =>
      modify (fun s => set_embed (paint content DarkGreen (embed s)) s) ;;
      let* s := get in
      match nth_error (response_msgs s) i with
      | Some m => edit None m (EmbedKw (embed s) false)
      | None => reply_helper None (EmbedKw (embed s) true)
      end ;;
      final_rich (S i) rest
  end.

(** The final [for content in response_contents] of the plain mode. *)
Fixpoint final_plain (contents : list str) : M unit :=
  match contents with
  | [] => ret tt
  | content :: rest =>
      let* s := get in
      match last (response_msgs s) with
      | None => reply_helper None (ContentKw content)
      | Some m =>
          if truthy (sent_content m) then reply_helper None (ContentKw content)
          else edit None m (ContentKw content)
      end ;;
      final_plain rest
  end.

Definition final_update : M unit :=
  flush_buffer ;;
  let* s := get in
  if use_plain_responses then final_plain (response_contents s)
  else final_rich 0 (response_contents s).

(** The body of the outer [try]. *)
Definition try_body (gen : Generation) : M unit :=
  match gen with
  | GenFails => raise GenerationError
  | GenStream chunks breaks =>
      modify (process_chunks chunks) ;;
      if breaks then raise GenerationError else final_update
  end.

(** The body of the outer [except Exception]. *)
Definition except_body : M unit :=
  if use_plain_responses then
    let* s := get in
    match last (response_msgs s) with
    | Some m => edit None m (ContentKw error_msg)
    | None => reply_helper None (ContentKw error_msg)
    end
  else
    modify (fun s => set_embed (paint error_msg Red (embed s)) s) ;;
    let* s := get in
    match last (response_msgs s) with
    | Some m => edit None m (EmbedKw (embed s) false)
    | None => reply_helper None (EmbedKw (embed s) false)
    end.

(** [for response_msg in response_msgs]: the node's text is set and its
    lock released. *)
Fixpoint store_final (msgs : list Sent) : M unit :=
  match msgs with
  | [] => ret tt
  | response_msg :: rest =>
      let* s := get in
      match msg_nodes s !! sent_id response_msg with
      | None => raise KeyError
      | Some node =>
          if locked node then
            modify (set_msg_nodes
                      (<[ sent_id response_msg :=
                            set_locked false
                              (set_text (join [] (response_contents s)) node) ]>
                         (msg_nodes s))) ;;
            store_final rest
          else
            modify (set_msg_nodes
                      (<[ sent_id response_msg :=
                            set_text (join [] (response_contents s)) node ]>
                         (msg_nodes s))) ;;
            raise RuntimeError
      end
  end.

(** The state the response starts in.  In the rich mode the embed
    carries the warnings of the walk; the plain mode has no embed and
    never reads this component. *)
Definition initial (user_warnings : gset str) (nodes : gmap Z MsgNode)
    (pf : Platform) : State :=
  {| response_msgs := []; response_contents := [];
     curr_content := []; chunk_buffer := []; last_edit_time := 0;
     embed :=
       (if use_plain_responses || bool_decide (user_warnings = ∅) then Embed_new
        else {| embed_fields :=
                  [(Walk.warn_sign ++ lit " Warnings",
                    join Prompt.nl (sorted (elements user_warnings)))];
                description := None; color := None |});
     msg_nodes := nodes; platform := pf |}.

(** The handler from the generation call to the stored response: the
    outer [try], its [except Exception] and the loop that stores the
    final response.  The typing indicator is not modelled. *)
Definition respond (gen : Generation) : M unit :=
  fun s =>
    let after_try :=
      match try_body gen s with
      | (s1, Return _) => (s1, Return tt)
      | (s1, Raise _) => except_body s1
      end in
    match after_try with
    | (s2, Return _) => store_final (response_msgs s2) s2
    | (s2, Raise e) => (s2, Raise e)
    end.

End Handler.

(** [sorted(msg_nodes.keys())]. *)
Definition sorted_keys (nodes : gmap Z MsgNode) : list Z :=
  merge_sort Z.le (elements (dom nodes)).

(** The loop over the oldest keys: each node's lock is taken and the node
    popped; [None] when a lock is held. *)
Fixpoint evict_each (ids : list Z) (nodes : gmap Z MsgNode)
  : option (gmap Z MsgNode) :=
  match ids with
  | [] => Some nodes
  | msg_id :: rest =>
      if locked (default (MsgNode_new None) (nodes !! msg_id)) then None
      else evict_each rest (delete msg_id nodes)
  end.

(** The clean-up of old message nodes that ends the handler. *)
Definition evict (nodes : gmap Z MsgNode) : option (gmap Z MsgNode) :=
  let num_nodes := size nodes in
  if (MAX_MESSAGE_NODES <? num_nodes)%nat
  then evict_each (slice_to (num_nodes - MAX_MESSAGE_NODES) (sorted_keys nodes)) nodes
  else Some nodes.

(** *** Notions used to state the properties of the driver *)

(** The node [reply_helper] registers for a message it has sent. *)
Definition fresh_node (new_msg : Message) : MsgNode :=
  set_locked true (MsgNode_new (Some new_msg)).

(** The node of a response message once the response is stored. *)
Definition stored_node (new_msg : Message) (full_text : str) : MsgNode :=
  set_locked false (set_text full_text (MsgNode_new (Some new_msg))).

(** The messages sent so far have distinct ids below the platform's next
    id, and each has its locked, still empty node in the cache. *)
Definition registered (new_msg : Message) (s : State) : Prop :=
  (forall m, In m (response_msgs s) -> sent_id m < next_id (platform s))
  /\ NoDup (map sent_id (response_msgs s))
  /\ (forall m, In m (response_msgs s) ->
                msg_nodes s !! sent_id m = Some (fresh_node new_msg)).

(** A property of the state that a computation keeps, whether it returns
    or raises. *)
Definition preserves {A} (P : State -> Prop) (m : M A) : Prop :=
  forall s, P s -> P (fst (m s)).

(** A call that carries the in-progress embed (orange, with the marker). *)
Definition in_progress (c : Call) : bool :=
  match call_kwargs c with
  | EmbedKw e _ => match color e with Some Orange => true | _ => false end
  | ContentKw _ => false
  end.

Definition is_edit (c : Call) : bool :=
  match call_kind c with IsEdit => true | IsReply => false end.

(** A call after which the handler sets [last_edit_time]: a successful
    send or edit of an in-progress embed. *)
Definition restarts_timer (c : Call) : bool := call_ok c && in_progress c.

(** An in-progress edit: the periodic update of the active message. *)
Definition periodic (c : Call) : bool := is_edit c && in_progress c.

(** The number of keys of the cache that are not older than [k]. *)
Definition newer_keys (k : Z) (nodes : gmap Z MsgNode) : nat :=
  length (List.filter (fun x => k <=? x) (sorted_keys nodes)).

(** The text the chunks of a stream carry. *)
Fixpoint stream_text (chunks : list Chunk) : str :=
  match chunks with
  | [] => []
  | TextChunk txt _ :: rest => txt ++ stream_text rest
  | _ :: rest => stream_text rest
  end.

(** The contents committed so far and the buffer make up [whole], in at
    most one message. *)
Definition unsplit (whole : str) (s : State) : Prop :=
  (response_contents s = [] /\ chunk_buffer s = [] /\ whole = [])
  \/ (exists c, response_contents s = [c] /\ c ++ chunk_buffer s = whole).

(** The keyword arguments that show the fixed error message. *)
Definition shows_error (kw : Kwargs) : Prop :=
  match kw with
  | EmbedKw e _ => description e = Some error_msg /\ color e = Some Red
  | ContentKw c => c = error_msg
  end.

(** The message the [except] body writes the error to: the last one sent,
    or the one the platform creates next. *)
Definition error_target (s : State) : Z :=
  match last (response_msgs s) with
  | Some m => sent_id m
  | None => next_id (platform s)
  end.

(** The clock readings of the chunks never go back, from [t0] on. *)
Fixpoint clock_monotone (t0 : Q) (chunks : list Chunk) : bool :=
  match chunks with
  | [] => true
  | TextChunk _ now :: rest => Qle_bool t0 now && clock_monotone now rest
  | _ :: rest => clock_monotone t0 rest
  end.

(** The in-progress edits of [cs] come 2 seconds or more after every
    earlier call of [cs] that restarted the timer. *)
Definition spaced (cs : list Call) : Prop :=
  forall (i j : nat) ci cj ti tj,
    (i < j)%nat -> cs !! i = Some ci -> cs !! j = Some cj ->
    restarts_timer ci = true -> periodic cj = true ->
    call_stamp ci = Some ti -> call_stamp cj = Some tj ->
    (EDIT_DELAY_SECONDS <= tj - ti)%Q.

(** The timer of the handler bounds the stamps of the calls that restarted
    it, and is not ahead of the clock reading [t]. *)
Definition timer_ok (t : Q) (s : State) : Prop :=
  spaced (calls (platform s))
  /\ (forall c tc, In c (calls (platform s)) -> restarts_timer c = true ->
                   call_stamp c = Some tc -> (tc <= last_edit_time s)%Q)
  /\ (last_edit_time s <= t)%Q.

(** Every message sent replies to the one sent before it, the first one
    to the trigger message. *)
Definition replies_chained (new_msg : Message) (s : State) : Prop :=
  forall (i : nat) m,
    response_msgs s !! i = Some m ->
    reply_of (platform s) !! sent_id m
    = Some (match i with
            | O => msg_id new_msg
            | S j => from_option sent_id (msg_id new_msg) (response_msgs s !! j)
            end).

(** A platform on which every call raises. *)
Definition always_fails : nat -> bool := fun _ => true.

End Driver.

(** ** Preference store and slash commands ([ServerDataManager],
    [model_command], [prompt_command], [known_command])

    One handler runs at a time: the locks of [get_lock] guard single
    reads and writes and are not modelled.  A write replaces the file
    and does not fail. *)

Module Store.

(** The entries of the global configuration the store and the commands
    read.  [admin_ids] is [config['permissions']['users']['admin_ids']];
    [max_user_description_length] is [None] when the key is missing. *)
Record Config := {
  default_model : str;
  default_system_prompt : str;
  admin_ids : list Z;
  max_user_description_length : option nat
}.

(** A stored user record: a JSON object with the keys the program
    writes, each of which may be missing; the empty object has none. *)
Record Rec := {
  display_name : option str;
  description : option str;
  first_seen : option str;
  last_updated : option str
}.

Definition empty_rec : Rec :=
  {| display_name := None; description := None; first_seen := None;
     last_updated := None |}.

(** [bool(d)] for a dictionary: it holds a key. *)
Definition rec_truthy (r : Rec) : bool :=
  match display_name r, description r, first_seen r, last_updated r with
  | None, None, None, None => false
  | _, _, _, _ => true
  end.

Definition new_rec (name now : str) : Rec :=
  {| display_name := Some name; description := Some []; first_seen := Some now;
     last_updated := Some now |}.

Definition set_display_name (v : str) (r : Rec) : Rec :=
  {| display_name := Some v; description := description r;
     first_seen := first_seen r; last_updated := last_updated r |}.

Definition set_description (v : str) (r : Rec) : Rec :=
  {| display_name := display_name r; description := Some v;
     first_seen := first_seen r; last_updated := last_updated r |}.

Definition set_last_updated (v : str) (r : Rec) : Rec :=
  {| display_name := display_name r; description := description r;
     first_seen := first_seen r; last_updated := Some v |}.

(** The data of one server or direct-message file.  The keys [model] and
    [system_prompt] are in every object the program writes; [data_users]
    is [None] for [null], [data_user] is [None] when the key is missing. *)
Record Data := {
  data_model : str;
  data_system_prompt : str;
  data_users : option (gmap str Rec);
  data_user : option Rec
}.

Definition set_model (v : str) (d : Data) : Data :=
  {| data_model := v; data_system_prompt := data_system_prompt d;
     data_users := data_users d; data_user := data_user d |}.

Definition set_system_prompt (v : str) (d : Data) : Data :=
  {| data_model := data_model d; data_system_prompt := v;
     data_users := data_users d; data_user := data_user d |}.

Definition set_users (v : gmap str Rec) (d : Data) : Data :=
  {| data_model := data_model d; data_system_prompt := data_system_prompt d;
     data_users := Some v; data_user := data_user d |}.

Definition set_user (v : Rec) (d : Data) : Data :=
  {| data_model := data_model d; data_system_prompt := data_system_prompt d;
     data_users := data_users d; data_user := Some v |}.

(** A file of the data directory: an object the program has written, or
    a content that cannot be read or parsed. *)
Inductive File :=
| Json (data : Data)
| Unreadable.

(** The data directory, by path. *)
Abbreviation Files := (gmap str File).

Inductive Exn :=
| TypeError     (* [None] used as a dictionary *)
| KeyError.     (* a missing dictionary key *)

Inductive Result (A : Type) :=
| Ok (a : A)
| Err (e : Exn).
Arguments Ok {A} a.
Arguments Err {A} e.

(** [f'{user_id}'] for an optional id. *)
Definition format_id (id : option Z) : str :=
  match id with
  | Some z => str_of_int z
  | None => lit "None"
  end.

Definition get_server_file (server_id user_id : option Z) : str :=
  match server_id with
  | None => lit "server_data/dm_" ++ format_id user_id ++ lit ".json"
  | Some sid => lit "server_data/" ++ str_of_int sid ++ lit ".json"
  end.

(** [{} if server_id else None]. *)
Definition default_users (server_id : option Z) : option (gmap str Rec) :=
  match server_id with
  | Some sid => if sid =? 0 then None else Some ∅
  | None => None
  end.

Definition _save_data (file_path : str) (data : Data) (files : Files) : Files :=
  <[ file_path := Json data ]> files.

Definition save_server_data (server_id : option Z) (data : Data)
    (user_id : option Z) (files : Files) : Files :=
  _save_data (get_server_file server_id user_id) data files.

Section Commands.
Variable config : Config.

Definition load_server_data (server_id user_id : option Z) (files : Files)
  : Files * Data :=
  let file_path := get_server_file server_id user_id in
  match files !! file_path with
  | None =>
      let default_data :=
        {| data_model := default_model config;
           data_system_prompt := default_system_prompt config;
           data_users := default_users server_id;
           data_user := match server_id with
                        | None => Some empty_rec
                        | Some _ => None
                        end |} in
      (_save_data file_path default_data files, default_data)
  | Some (Json data) => (files, data)
  | Some Unreadable =>
      (files,
       {| data_model := default_model config;
          data_system_prompt := default_system_prompt config;
          data_users := default_users server_id;
          data_user := None |})
  end.

(** The record of a user seen again: the name and the time are renewed. *)
Definition seen_again (name now : str) (r : Rec) : Rec :=
  set_last_updated now (set_display_name name r).

(** [now] is the clock reading [datetime.now().isoformat()]. *)
Definition get_or_create_user (server_id : option Z) (user_id : Z)
    (name : str) (dm_user_id : option Z) (now : str) (files : Files)
  : Files * Result Rec :=
  let '(files, data) := load_server_data server_id dm_user_id files in
  match server_id with
  | None =>
      let u :=
        match data_user data with
        | Some r => if rec_truthy r then seen_again name now r
                    else new_rec name now
        | None => new_rec name now
        end in
      (save_server_data server_id (set_user u data) dm_user_id files, Ok u)
  | Some _ =>
      let user_id_str := str_of_int user_id in
      match data_users data with
      | None => (files, Err TypeError)
      | Some m =>
          let u :=
            match m !! user_id_str with
            | None => new_rec name now
            | Some r => seen_again name now r
            end in
          (save_server_data server_id (set_users (<[ user_id_str := u ]> m) data)
             dm_user_id files,
           Ok u)
      end
  end.

(** The user of an interaction or the member a command names. *)
Record Member := { member_id : Z; member_display_name : str }.

(** [user.mention]. *)
Definition mention (m : Member) : str :=
  lit "<@" ++ str_of_int (member_id m) ++ lit ">".

Record Interaction := { guild_id : option Z; user : Member }.

Definition user_is_admin (interaction : Interaction) : bool :=
  Gate.py_in (member_id (user interaction)) (admin_ids config).

(** The id that names the file of a direct message. *)
Definition dm_id (interaction : Interaction) : option Z :=
  match guild_id interaction with
  | None => Some (member_id (user interaction))
  | Some _ => None
  end.

Definition backtick : str := [96%N].

(** [model_command]: the files left and the message sent. *)
Definition model_command (interaction : Interaction) (model : option str)
    (files : Files) : Files * str :=
  let server_id := guild_id interaction in
  let user_id := dm_id interaction in
  let '(files, data) := load_server_data server_id user_id files in
  let current_model := data_model data in
  match model with
  | None =>
      (files, lit "Current model: " ++ backtick ++ current_model ++ backtick)
  | Some model =>
      if bool_decide (model = current_model) then
        (files, lit "Already using: " ++ backtick ++ current_model ++ backtick)
      else if negb (user_is_admin interaction) then
        (files, lit "You don't have permission to change the model.")
      else
        (save_server_data server_id (set_model model data) user_id files,
         lit "Model switched to: " ++ backtick ++ model ++ backtick)
  end.

Definition fence : str := [96%N; 96%N; 96%N].

(** [not text] for an optional string. *)
Definition missing (text : option str) : bool :=
  match text with
  | Some s => negb (truthy s)
  | None => true
  end.

(** [prompt_command]: the files left and the message sent, if any. *)
Definition prompt_command (interaction : Interaction) (action : str)
    (text : option str) (files : Files) : Files * option str :=
  let server_id := guild_id interaction in
  let user_id := dm_id interaction in
  let '(files, data) := load_server_data server_id user_id files in
  if bool_decide (action = lit "view") then
    let current_prompt := data_system_prompt data in
    (files,
     Some (lit "**Current system prompt:**" ++ Prompt.nl ++ fence ++ Prompt.nl
           ++ current_prompt ++ Prompt.nl ++ fence))
  else if bool_decide (action = lit "set") then
    if negb (user_is_admin interaction) then
      (files, Some (lit "You don't have permission to change the system prompt."))
    else if missing text then
      (files, Some (lit "Please provide the prompt text."))
    else
      (save_server_data server_id
         (set_system_prompt (strip (default [] text)) data) user_id files,
       Some (lit "System prompt updated successfully!"))
  else if bool_decide (action = lit "reset") then
    if negb (user_is_admin interaction) then
      (files, Some (lit "You don't have permission to reset the system prompt."))
    else
      (save_server_data server_id
         (set_system_prompt (default_system_prompt config) data) user_id files,
       Some (lit "System prompt reset to default."))
  else (files, None).

(** [config.get('max_user_description_length', 500)]. *)
Definition max_length : nat := default 500%nat (max_user_description_length config).

(** The last lines of the [view] action. *)
Definition view_message (name desc : str) : str :=
  if truthy desc then
    lit "**" ++ name ++ lit "'s description:**" ++ Prompt.nl ++ desc
  else name ++ lit " has no description set.".

Definition not_seen_yet (target_user : Member) : str :=
  mention target_user ++ lit " hasn't interacted with the bot yet.".

(** [known_command]: the files left and the message sent, if any; [now]
    is the clock reading of [get_or_create_user]. *)
Definition known_command (interaction : Interaction) (action : str)
    (desc : option str) (member : option Member) (now : str) (files : Files)
  : Files * Result (option str) :=
  let server_id := guild_id interaction in
  let dm_user_id := dm_id interaction in
  let target_user := default (user interaction) member in
  let own := member_id target_user =? member_id (user interaction) in
  if match member with
     | Some u => negb (member_id u =? member_id (user interaction))
                 && negb (user_is_admin interaction)
     | None => false
     end
  then (files, Ok (Some (lit "You don't have permission to manage other users.")))
  else
    let '(files, data) := load_server_data server_id dm_user_id files in
    if bool_decide (action = lit "view") then
      match server_id with
      | None =>
          let user_data := default empty_rec (data_user data) in
          (files,
           Ok (Some (view_message
                       (default (member_display_name target_user)
                                (display_name user_data))
                       (default [] (description user_data)))))
      | Some _ =>
          match data_users data with
          | None => (files, Err TypeError)
          | Some m =>
              match m !! str_of_int (member_id target_user) with
              | None => (files, Ok (Some (not_seen_yet target_user)))
              | Some user_data =>
                  (files,
                   Ok (Some (view_message
                               (default (member_display_name target_user)
                                        (display_name user_data))
                               (default [] (description user_data)))))
              end
          end
      end
    else if bool_decide (action = lit "set") then
      if missing desc then
        (files, Ok (Some (lit "Please provide a description.")))
      else if (max_length <? length (default [] desc))%nat then
        (files,
         Ok (Some (lit "Description too long! Maximum "
                   ++ str_of_int (Z.of_nat max_length) ++ lit " characters.")))
      else
        match get_or_create_user server_id (member_id target_user)
                (member_display_name target_user) dm_user_id now files with
        | (files, Err e) => (files, Err e)
        | (files, Ok _) =>
            let '(files, data) := load_server_data server_id dm_user_id files in
            let updated : Result Data :=
              match server_id with
              | None =>
                  match data_user data with
                  | None => Err KeyError
                  | Some r =>
                      Ok (set_user (set_description (strip (default [] desc)) r)
                                   data)
                  end
              | Some _ =>
                  match data_users data with
                  | None => Err TypeError
                  | Some m =>
                      match m !! str_of_int (member_id target_user) with
                      | None => Err KeyError
                      | Some r =>
                          Ok (set_users
                                (<[ str_of_int (member_id target_user)
                                    := set_description (strip (default [] desc)) r ]>
                                   m)
                                data)
                      end
                  end
              end in
            match updated with
            | Err e => (files, Err e)
            | Ok data =>
                (save_server_data server_id data dm_user_id files,
                 Ok (Some (if own
                           then lit "Your description has been updated!"
                           else lit "Description updated for "
                                ++ mention target_user)))
            end
        end
    else if bool_decide (action = lit "remove") then
      match server_id with
      | None =>
          match data_user data with
          | Some r =>
              if rec_truthy r then
                (save_server_data server_id
                   (set_user (set_description [] r) data) dm_user_id files,
                 Ok (Some (lit "Your description has been removed.")))
              else (files, Ok (Some (lit "No description to remove.")))
          | None => (files, Ok (Some (lit "No description to remove.")))
          end
      | Some _ =>
          match data_users data with
          | None => (files, Err TypeError)
          | Some m =>
              match m !! str_of_int (member_id target_user) with
              | Some r =>
                  (save_server_data server_id
                     (set_users
                        (<[ str_of_int (member_id target_user)
                            := set_description [] r ]> m) data)
                     dm_user_id files,
                   Ok (Some (if own
                             then lit "Your description has been removed."
                             else lit "Description removed for "
                                  ++ mention target_user)))
              | None => (files, Ok (Some (not_seen_yet target_user)))
              end
          end
      end
    else (files, Ok None).

(** The store's part of the message handler: the data is loaded, then
    the author is registered; the data loaded first is the one the
    prompt is built from. *)
Definition on_message_store (server_id : option Z) (author_id : Z)
    (name now : str) (files : Files) : Files * Result Data :=
  let dm_user_id :=
    match server_id with
    | None => Some author_id
    | Some _ => None
    end in
  let '(files, server_data) := load_server_data server_id dm_user_id files in
  match get_or_create_user server_id author_id name dm_user_id now files with
  | (files, Ok _) => (files, Ok server_data)
  | (files, Err e) => (files, Err e)
  end.

End Commands.

(** *** Notions used to state the properties of the store *)

(** A record with the keys it lacks read as empty strings. *)
Definition fill (r : Rec) : Prompt.UserRec :=
  {| Prompt.display_name := default [] (display_name r);
     Prompt.description := default [] (description r);
     Prompt.first_seen := default [] (first_seen r);
     Prompt.last_updated := default [] (last_updated r) |}.

(** The data of a direct message as [build_system_prompt] reads it: the
    users entry is [null], and of the user entry the function reads
    whether it is a dictionary that holds a key. *)
Definition dm_server_data (d : Data) : Prompt.ServerData :=
  {| Prompt.sd_users := None;
     Prompt.sd_user :=
       match data_user d with
       | Some r => if rec_truthy r then Some (fill r) else None
       | None => None
       end |}.

(** The records of a file's data: the guild members and the one of a
    direct message. *)
Definition records (d : Data) : list Rec :=
  match data_users d with
  | Some m => map snd (map_to_list m)
  | None => []
  end
  ++ match data_user d with Some r => [r] | None => [] end.

(** The record the store keeps of a user: the one record of a direct
    message file, the entry under the user's id in a guild file. *)
Definition record_of (server_id : option Z) (user_id : Z) (d : Data)
  : option Rec :=
  match server_id with
  | None => data_user d
  | Some _ =>
      match data_users d with
      | Some m => m !! str_of_int user_id
      | None => None
      end
  end.

(** No description stored in [files] is longer than [n]. *)
Definition descriptions_within (n : nat) (files : Files) : Prop :=
  forall path d r,
    files !! path = Some (Json d) -> In r (records d) ->
    (length (default [] (description r)) <= n)%nat.

(** The command names a member other than its user, who is not an
    administrator: the check that opens [known_command]. *)
Definition manages_other (config : Config) (interaction : Interaction)
    (member : option Member) : bool :=
  match member with
  | Some u => negb (member_id u =? member_id (user interaction))
              && negb (user_is_admin config interaction)
  | None => false
  end.

(** The file of a guild, when there is one, can take user records. *)
Definition takes_users (config : Config) (server_id : option Z) (files : Files)
  : Prop :=
  match server_id with
  | None => True
  | Some sid =>
      data_users (snd (load_server_data config server_id None files)) <> None
  end.

End Store.

(** ** Image download ([download_and_encode_image]) *)

Module Download.

(** What the function reads of the HTTP response: [header] is the
    content-type header, [None] when the response has none. *)
Record Response := {
  status_code : Z;
  header : option str;
  content : list Byte.byte
}.

Definition mime_type_mapping : list (str * str) :=
  [(lit "image/jpeg", lit "image/jpeg");
   (lit "image/jpg", lit "image/jpeg");
   (lit "image/png", lit "image/png");
   (lit "image/gif", lit "image/png");
   (lit "image/webp", lit "image/webp")].

(** The loop over the mapping: the first content type found in the
    lowered header decides.  The keys and the word gif are ASCII and no
    key ends in the letter i, so lowering the ASCII letters of the header
    gives the tests the result they have on [content_type.lower()]. *)
Fixpoint pick_mime (mapping : list (str * str)) (lowered : str) : option str :=
  match mapping with
  | [] => None
  | (ct, mt) :: rest =>
      if contains ct lowered then Some mt else pick_mime rest lowered
  end.

Section Fetch.
(** [httpx_client.get(url, follow_redirects=True)], [None] when it
    raises. *)
Variable get : str -> option Response.
(** The first frame of the picture saved as PNG, [None] when the
    conversion raises. *)
Variable to_png : list Byte.byte -> option (list Byte.byte).
Variable b64encode : list Byte.byte -> str.

Definition download_and_encode_image (url : str) : option Chat.ImagePart :=
  match get url with
  | None => None
  | Some response =>
      if negb (status_code response =? 200) then None
      else
        let content_type := default [] (header response) in
        match pick_mime mime_type_mapping (Urls.lower content_type) with
        | None => None
        | Some mime_type =>
            if contains (lit "gif") (Urls.lower content_type) then
              match to_png (content response) with
              | None => None
              | Some image_data =>
                  Some {| Chat.mime_type := lit "image/png";
                          Chat.data := b64encode image_data |}
              end
            else
              Some {| Chat.mime_type := mime_type;
                      Chat.data := b64encode (content response) |}
        end
  end.

End Fetch.

End Download.

(** * Concrete events, messages and streams *)

Module Inputs.

Import Gate.

(** A guild whose channel allow-list holds channel 50 only; user 1 is an
    administrator. *)
Definition cfg_channel_list : ConfigData :=
  {| allow_dms := true;
     permissions :=
       {| users := {| allowed_ids := []; blocked_ids := [] |};
          admin_ids := [1];
          roles := {| allowed_ids := []; blocked_ids := [] |};
          channels := {| allowed_ids := [50]; blocked_ids := [] |} |} |}.

(** The administrator mentions the bot in channel 60 of that guild. *)
Definition ev_admin_guild : Event :=
  {| author_id := 1; author_bot := false; is_dm := false; mentions_bot := true;
     author_roles := []; channel_id := 60; parent_id := None;
     category_id := None |}.

(** A guild with an empty user allow-list and role 9 in the role
    allow-list. *)
Definition cfg_role_list : ConfigData :=
  {| allow_dms := true;
     permissions :=
       {| users := {| allowed_ids := []; blocked_ids := [] |};
          admin_ids := [];
          roles := {| allowed_ids := [9]; blocked_ids := [] |};
          channels := {| allowed_ids := []; blocked_ids := [] |} |} |}.

(** A member without roles mentions the bot in that guild. *)
Definition ev_member_guild : Event :=
  {| author_id := 2; author_bot := false; is_dm := false; mentions_bot := true;
     author_roles := []; channel_id := 60; parent_id := None;
     category_id := None |}.

(** A configuration whose allow-lists are all empty. *)
Definition cfg_open : ConfigData :=
  {| allow_dms := true;
     permissions :=
       {| users := {| allowed_ids := []; blocked_ids := [] |};
          admin_ids := [];
          roles := {| allowed_ids := []; blocked_ids := [] |};
          channels := {| allowed_ids := []; blocked_ids := [] |} |} |}.

(** A stored user record with a description. *)
Definition ann : Prompt.UserRec :=
  {| Prompt.display_name := lit "Ann";
     Prompt.description := lit "likes cats";
     Prompt.first_seen := lit "2025-01-01T00:00:00";
     Prompt.last_updated := lit "2025-01-02T00:00:00" |}.

(** The preference record of a direct-message context once the user has
    been stored: no [users] mapping, one [user] record. *)
Definition dm_record : Prompt.ServerData :=
  {| Prompt.sd_users := None; Prompt.sd_user := Some ann |}.

(** A guild record that knows user 42. *)
Definition guild_record : Prompt.ServerData :=
  {| Prompt.sd_users := Some {[ str_of_int 42 := ann ]};
     Prompt.sd_user := None |}.

Import Chat.

(** The bot account has id 999. *)
Definition bot : User := {| user_id := 999; user_display_name := lit "gemini" |}.

Definition alice : User := {| user_id := 10; user_display_name := lit "Alice" |}.

Definition image_of (u : str) : option ImagePart :=
  Some {| mime_type := lit "image/png"; data := u |}.

(** A message of Alice in a guild text channel, without attachments. *)
Definition text_msg (id : Z) (txt : str) (ref : option (option Z)) : Message :=
  {| msg_id := id; content := txt; author := alice; attachments := [];
     embeds := []; reference := ref; msg_type := MtDefault;
     channel_id := 60; channel_type := ChText; channel_parent_is_text := false |}.

(** Alice writes hello (message 1); later she replies to it with a message
    that holds the mention of the bot and nothing else (message 2). *)
Definition hello_msg : Message := text_msg 1 (lit "hello") None.

Definition bare_mention_reply : Message :=
  text_msg 2 (lit "<@999>") (Some (Some 1)).

(** The platform around this exchange: every image downloads, the reply
    reference of message 2 is cached. *)
Definition env_chain : Env :=
  {| bot_id := 999;
     history_before := fun _ => Fetched None;
     starter_message := fun _ => None;
     parent_fetch_message := fun _ _ => FetchFailed;
     channel_fetch_message := fun _ _ => FetchFailed;
     cached_message := fun m => if msg_id m =? 2 then Some hello_msg else None;
     download_and_encode_image := image_of |}.

(** A message whose reply reference resolves to the message itself. *)
Definition self_reply : Message := text_msg 5 (lit "<@999>") (Some (Some 5)).

Definition talking_self_reply : Message :=
  text_msg 6 (lit "<@999> again") (Some (Some 6)).

Definition env_loop : Env :=
  {| bot_id := 999;
     history_before := fun _ => Fetched None;
     starter_message := fun _ => None;
     parent_fetch_message := fun _ _ => FetchFailed;
     channel_fetch_message := fun _ _ => FetchFailed;
     cached_message := fun m => Some m;
     download_and_encode_image := image_of |}.

Definition lim_one_message : Limits :=
  {| max_text := 2000; max_images := 5; max_messages := 1; max_urls := 3 |}.

Definition lim_two_messages : Limits :=
  {| max_text := 2000; max_images := 5; max_messages := 2; max_urls := 3 |}.

Definition lim_one_image : Limits :=
  {| max_text := 2000; max_images := 1; max_messages := 25; max_urls := 3 |}.

Definition png_one : Attachment :=
  {| content_type := Some (lit "image/png"); url := lit "https://cdn.example/one.png" |}.

Definition png_two : Attachment :=
  {| content_type := Some (lit "image/png"); url := lit "https://cdn.example/two.png" |}.

(** Alice mentions the bot with two pictures attached. *)
Definition two_pictures : Message :=
  {| msg_id := 3; content := lit "<@999> look"; author := alice;
     attachments := [png_one; png_two]; embeds := []; reference := None;
     msg_type := MtDefault; channel_id := 60; channel_type := ChText;
     channel_parent_is_text := false |}.

(** The state of the walk after its first visit of [self_reply]. *)
Definition self_reply_seen : Walk.State :=
  match Walk.loop_body env_loop lim_one_message false (Walk.start ∅) self_reply with
  | Walk.Next st _ => st
  | Walk.Blocked => Walk.start ∅
  end.

Import Driver.

(** The trigger of the responses below. *)
Definition trigger : Message := text_msg 7 (lit "<@999> hi") None.

(** A platform that has seen no call yet and numbers its messages from
    1000 on. *)
Definition fresh_platform : Platform :=
  {| next_id := 1000; shown := ∅; reply_of := ∅; calls := [] |}.

Definition never_fails : nat -> bool := fun _ => false.

(** The platform call number 1 (the second one) raises. *)
Definition second_call_fails : nat -> bool := fun n => Nat.eqb n 1.

(** The delta sequence of the specification's streaming property. *)
Definition spec_deltas : list Chunk :=
  [TextChunk (lit "Hello ") 100; TextChunk (lit "world, ") 101;
   TextChunk (List.repeat 120%N 3800) 102; TextChunk (lit "overflow!") 103].

Definition spec_text : str :=
  lit "Hello " ++ lit "world, " ++ List.repeat 120%N 3800 ++ lit "overflow!".

(** A stream whose third delta does not fit: the first message is opened
    at 100 s, edited at 102 s, and the 4094 characters that arrive at
    102.5 s overflow it. *)
Definition overflowing_deltas : list Chunk :=
  [TextChunk (lit "a") 100; TextChunk (lit "b") 102;
   TextChunk (List.repeat 120%N 4094) (205 # 2)].

(** Three short deltas, far enough apart for an edit each. *)
Definition slow_deltas : list Chunk :=
  [TextChunk (lit "one ") 100; TextChunk (lit "two ") 105;
   TextChunk (lit "three") 110].

(** The state a rich response starts in, without warnings. *)
Definition rich_start : State := initial false ∅ ∅ fresh_platform.

(** The state reached before the third delta of [overflowing_deltas]. *)
Definition before_overflow : State :=
  process_chunks never_fails false trigger
                 [TextChunk (lit "a") 100; TextChunk (lit "b") 102] rich_start.

(** The same sequence with a third delta long enough to overflow the
    first message when the last delta arrives. *)
Definition long_deltas : list Chunk :=
  [TextChunk (lit "Hello ") 100; TextChunk (lit "world, ") 101;
   TextChunk (List.repeat 120%N 4080) 102; TextChunk (lit "overflow!") 103].

(** A cache of 501 empty nodes with the keys 0 to 500. *)
Definition full_cache : gmap Z MsgNode :=
  list_to_map (map (fun i => (Z.of_nat i, MsgNode_new None)) (seq 0 501)).

(** An administrator who is also on the user block-list. *)
Definition cfg_blocked_admin : Gate.ConfigData :=
  {| Gate.allow_dms := true;
     Gate.permissions :=
       {| Gate.users := {| Gate.allowed_ids := []; Gate.blocked_ids := [1] |};
          Gate.admin_ids := [1];
          Gate.roles := {| Gate.allowed_ids := []; Gate.blocked_ids := [] |};
          Gate.channels := {| Gate.allowed_ids := []; Gate.blocked_ids := [] |} |} |}.

(** A member writes in thread 70 whose parent is channel 50. *)
Definition ev_member_thread : Gate.Event :=
  {| Gate.author_id := 2; Gate.author_bot := false; Gate.is_dm := false;
     Gate.mentions_bot := true; Gate.author_roles := []; Gate.channel_id := 70;
     Gate.parent_id := Some 50; Gate.category_id := None |}.

(** A reply to message 77, which is neither cached nor fetchable. *)
Definition orphan_reply : Message := text_msg 8 (lit "<@999> hi") (Some (Some 77)).

Definition pdf_file : Attachment :=
  {| content_type := Some (lit "application/pdf");
     url := lit "https://cdn.example/notes.pdf" |}.

(** Alice mentions the bot with a document attached. *)
Definition with_document : Message :=
  {| msg_id := 9; content := lit "<@999> read this"; author := alice;
     attachments := [pdf_file]; embeds := []; reference := None;
     msg_type := MtDefault; channel_id := 60; channel_type := ChText;
     channel_parent_is_text := false |}.

(** The configuration of the store: user 1 is the administrator, the
    description limit is left at its default. *)
Definition store_config : Store.Config :=
  {| Store.default_model := lit "gemini-2.5-flash";
     Store.default_system_prompt := lit "You are a helpful assistant.";
     Store.admin_ids := [1];
     Store.max_user_description_length := None |}.

Definition ann_member : Store.Member :=
  {| Store.member_id := 2; Store.member_display_name := lit "Ann" |}.

Definition root_member : Store.Member :=
  {| Store.member_id := 1; Store.member_display_name := lit "Root" |}.

(** Ann and the administrator in guild 70, and Ann in a direct message. *)
Definition ann_in_guild : Store.Interaction :=
  {| Store.guild_id := Some 70; Store.user := ann_member |}.

Definition root_in_guild : Store.Interaction :=
  {| Store.guild_id := Some 70; Store.user := root_member |}.

Definition ann_in_dm : Store.Interaction :=
  {| Store.guild_id := None; Store.user := ann_member |}.

(** An empty data directory. *)
Definition no_files : Store.Files := ∅.

Definition noon : str := lit "2025-01-01T12:00:00".

(** A server that answers every request with an animated picture. *)
Definition gif_server (u : str) : option Download.Response :=
  Some {| Download.status_code := 200;
          Download.header := Some (lit "image/GIF");
          Download.content := [] |}.

(** A converter and an encoder that stand for the libraries. *)
Definition same_bytes (b : list Byte.byte) : option (list Byte.byte) := Some b.

Definition no_text (b : list Byte.byte) : str := [].

End Inputs.

(** * Properties of the permission gate *)

Section GateFacts.
Import Gate.

(** The decision of the gate, case by case. *)
Lemma permitted_unfold cfg ev :
  permitted cfg ev
  = negb (negb (is_good_user cfg ev) || user_blocked cfg ev
          || (negb (is_good_channel cfg ev) || channel_blocked cfg ev)).
Proof.
  unfold permitted, is_bad_user, is_bad_channel, user_blocked, channel_blocked.
  destruct (is_good_user cfg ev), (is_good_channel cfg ev); simpl;
    repeat match goal with |- context [py_in ?a ?b] => destruct (py_in a b) end;
    repeat match goal with |- context [any_in ?a ?b] => destruct (any_in a b) end;
    reflexivity.
Qed.

Lemma admin_is_good_user cfg ev :
  user_is_admin cfg ev = true -> is_good_user cfg ev = true.
Proof. unfold is_good_user. intros ->. reflexivity. Qed.

Lemma plain_user_good cfg ev :
  user_is_admin cfg ev = false ->
  is_good_user cfg ev = user_allow_check cfg ev.
Proof. unfold is_good_user, user_allow_check. intros ->. reflexivity. Qed.

Lemma good_channel_cases cfg ev :
  is_good_channel cfg ev
  = if user_is_admin cfg ev
    then is_dm ev || channel_allow_check cfg ev
    else channel_allow_check cfg ev.
Proof.
  unfold is_good_channel, channel_allow_check.
  destruct (user_is_admin cfg ev), (is_dm ev); reflexivity.
Qed.

(** C1, as the code decides: an administrator skips the user allow-check
    everywhere and the channel allow-check in direct messages only; in a
    guild channel the administrator still needs the channel allow-check;
    nobody skips the block-lists.  Everybody else is processed exactly
    when both allow-checks pass and no block-list applies. *)
Theorem gate_decision cfg ev :
  permitted cfg ev
  = if user_is_admin cfg ev
    then (is_dm ev || channel_allow_check cfg ev)
         && negb (user_blocked cfg ev) && negb (channel_blocked cfg ev)
    else (user_allow_check cfg ev && negb (user_blocked cfg ev))
         && (channel_allow_check cfg ev && negb (channel_blocked cfg ev)).
Proof.
  rewrite permitted_unfold, good_channel_cases.
  destruct (user_is_admin cfg ev) eqn:Hadm.
  - rewrite (admin_is_good_user _ _ Hadm).
    destruct (is_dm ev), (channel_allow_check cfg ev),
      (user_blocked cfg ev), (channel_blocked cfg ev); reflexivity.
  - rewrite (plain_user_good _ _ Hadm).
    destruct (user_allow_check cfg ev), (channel_allow_check cfg ev),
      (user_blocked cfg ev), (channel_blocked cfg ev); reflexivity.
Qed.

(** C1, refuted as stated: an administrator writing in a guild channel
    outside a non-empty channel allow-list is on no block-list, so the
    stated decision processes the event, and the gate rejects it. *)
Lemma gate_admin_guild_rejected :
  user_is_admin Inputs.cfg_channel_list Inputs.ev_admin_guild = true
  /\ is_dm Inputs.ev_admin_guild = false
  /\ spec_decision Inputs.cfg_channel_list Inputs.ev_admin_guild = true
  /\ permitted Inputs.cfg_channel_list Inputs.ev_admin_guild = false.
Proof. repeat split; reflexivity. Qed.

Lemma user_scope_open cfg ev :
  allowed_ids (users (permissions cfg)) = [] ->
  is_dm ev = true \/ allowed_ids (roles (permissions cfg)) = [] ->
  is_good_user cfg ev = true.
Proof.
  intros Hu Hr. unfold is_good_user, allow_all_users. rewrite Hu.
  destruct Hr as [-> | ->]; simpl.
  - now rewrite orb_true_r.
  - destruct (is_dm ev); simpl; now rewrite orb_true_r.
Qed.

Lemma channel_scope_open cfg ev :
  allowed_ids (channels (permissions cfg)) = [] ->
  is_good_channel cfg ev
  = if is_dm ev then user_is_admin cfg ev || allow_dms cfg else true.
Proof.
  intros Hc. unfold is_good_channel, allow_all_channels. rewrite Hc.
  destruct (is_dm ev); reflexivity.
Qed.

Lemma py_in_In x ids : py_in x ids = true <-> In x ids.
Proof.
  unfold py_in. rewrite existsb_exists. split.
  - intros (y & Hy & Heq). apply Z.eqb_eq in Heq. now subst.
  - intros Hx. exists x. split; [exact Hx | apply Z.eqb_refl].
Qed.

Lemma any_in_In xs ids :
  any_in xs ids = true <-> exists x, In x xs /\ In x ids.
Proof.
  unfold any_in. rewrite existsb_exists. split.
  - intros (x & Hx & Hin). apply py_in_In in Hin. eauto.
  - intros (x & Hx & Hin). exists x. split; [exact Hx | now apply py_in_In].
Qed.

Lemma is_empty_nil (ids : list Z) : is_empty ids = true <-> ids = [].
Proof. destruct ids; simpl; split; congruence. Qed.

(** C2, as the code decides: the user and the role allow-sets open the
    user scope together, and the channel scope is evaluated on its own.
    An author passes the user allow-check exactly when the author is an
    administrator, or the user allow-set is empty and (the message is a
    direct message or the role allow-set is empty as well), or the
    author is listed, or the author holds an allowed role; the channel
    lists play no part in it.  A channel passes the channel allow-check
    exactly when, in a direct message, the author is an administrator or
    direct messages are allowed, and, in a guild, the channel allow-set
    is empty or holds the channel, its parent or its category; the user
    and role lists play no part in it. *)
Theorem empty_allow_sets cfg ev :
  (is_good_user cfg ev = true <->
     user_is_admin cfg ev = true
     \/ (allowed_ids (users (permissions cfg)) = []
         /\ (is_dm ev = true \/ allowed_ids (roles (permissions cfg)) = []))
     \/ In (author_id ev) (allowed_ids (users (permissions cfg)))
     \/ (exists r, In r (author_roles ev)
                   /\ In r (allowed_ids (roles (permissions cfg)))))
  /\ (is_good_channel cfg ev = true <->
        (is_dm ev = true
         /\ (user_is_admin cfg ev = true \/ allow_dms cfg = true))
        \/ (is_dm ev = false
            /\ (allowed_ids (channels (permissions cfg)) = []
                \/ exists c, In c (channel_ids ev)
                             /\ In c (allowed_ids (channels (permissions cfg)))))).
Proof.
  split.
  - unfold is_good_user, allow_all_users, role_ids.
    rewrite !orb_true_iff, py_in_In, any_in_In.
    destruct (is_dm ev); rewrite ?andb_true_iff, !is_empty_nil;
      intuition (try congruence).
  - unfold is_good_channel, allow_all_channels.
    destruct (is_dm ev).
    + rewrite orb_true_iff. intuition congruence.
    + rewrite orb_true_iff, is_empty_nil, any_in_In. intuition congruence.
Qed.

Lemma empty_allow_sets_witness :
  is_good_user Inputs.cfg_open Inputs.ev_member_guild = true
  /\ is_good_channel Inputs.cfg_open Inputs.ev_member_guild = true
  /\ is_good_user Inputs.cfg_role_list Inputs.ev_member_guild = false.
Proof.
  pose proof (empty_allow_sets Inputs.cfg_open Inputs.ev_member_guild) as [Hu Hc].
  pose proof (empty_allow_sets Inputs.cfg_role_list Inputs.ev_member_guild)
    as [Hr _].
  split; [|split].
  - apply Hu. right. left. split; [reflexivity | right; reflexivity].
  - apply Hc. right. split; [reflexivity | left; reflexivity].
  - apply not_true_is_false. intros H. apply Hr in H.
    destruct H as [H|[[_ [H|H]]|[H|(r & H & _)]]];
      first [discriminate H | destruct H].
Defined.

(** C2, refuted as stated: in a guild with an empty user allow-set and a
    non-empty role allow-set, an author holding none of the allowed
    roles fails the user allow-check. *)
Lemma guild_role_list_closes_user_scope :
  is_dm Inputs.ev_member_guild = false
  /\ spec_user_scope_open Inputs.cfg_role_list = true
  /\ is_good_user Inputs.cfg_role_list Inputs.ev_member_guild = false
  /\ permitted Inputs.cfg_role_list Inputs.ev_member_guild = false.
Proof. repeat split; reflexivity. Qed.

End GateFacts.

(** * Properties of the system prompt *)

Section PromptFacts.
Import Prompt.

Lemma in_users_lookup m u key :
  in_users {| sd_users := Some m; sd_user := u |} key
  = match m !! key with Some _ => true | None => false end.
Proof.
  unfold in_users; simpl.
  destruct (m !! key) as [r|] eqn:Hk.
  - rewrite (bool_decide_eq_true_2 (is_Some (Some r))) by eauto.
    rewrite bool_decide_eq_false_2; [reflexivity|].
    intros ->. rewrite lookup_empty in Hk. discriminate.
  - rewrite (bool_decide_eq_false_2 (is_Some None)); [apply andb_false_r|].
    intros [x Hx]. discriminate.
Qed.

(** In a guild record the loop never raises and appends the lines of the
    participants with a description, in the order of the iteration. *)
Lemma loop_guild m ids : forall loc,
  exists u',
    loop {| sd_users := Some m; sd_user := None |} loc ids
    = Return {| user := u'; users_info := users_info loc ++ spec_lines m ids |}.
Proof.
  induction ids as [|i ids IH]; intros loc; simpl.
  - exists (user loc). rewrite app_nil_r. now destruct loc.
  - unfold loop_body. rewrite in_users_lookup. unfold users_get; simpl.
    destruct (m !! str_of_int i) as [r|] eqn:Hk.
    + destruct (IH {| user := Some r;
                      users_info := if truthy (description r)
                                    then users_info loc ++ [guild_line i r]
                                    else users_info loc |}) as [u' Hu'].
      exists u'. rewrite Hu'. simpl.
      destruct (truthy (description r)); simpl; now rewrite <- ?app_assoc.
    + destruct (IH loc) as [u' Hu']. exists u'. now rewrite Hu'.
Qed.

(** For a guild record [build_system_prompt] returns, and the known-users
    block holds exactly one line per participant with a stored non-empty
    description; without such a participant there is no block. *)
Lemma build_system_prompt_guild date time base m name ids :
  build_system_prompt date time base {| sd_users := Some m; sd_user := None |}
                      name ids
  = Return (prompt_head date time base name
            ++ match spec_lines m ids with
               | [] => []
               | lines => known_users_header ++ join nl lines ++ known_users_footer
               end).
Proof.
  unfold build_system_prompt.
  destruct (loop_guild m ids {| user := None; users_info := [] |}) as [u' ->].
  simpl.
  destruct (spec_lines m ids); [now rewrite app_nil_r | reflexivity].
Qed.

(** With the direct-message form of the record, a stored user and at least
    one participant, the loop reads its variable [user] before any
    assignment. *)
Lemma build_system_prompt_dm_raises date time base u name i ids :
  build_system_prompt date time base {| sd_users := None; sd_user := Some u |}
                      name (i :: ids)
  = Raise UnboundLocalError.
Proof. reflexivity. Qed.

(** C9, at the failing input: for the stored record of a direct-message
    context and the participant who has a description, the function does
    not return a prompt; it raises [UnboundLocalError]. *)
Theorem build_system_prompt_dm_unbound :
  description Inputs.ann <> []
  /\ build_system_prompt (lit "January 01 2025") (lit "12:00:00 UTC+0000")
       (lit "You are a bot. Today is {date}.") Inputs.dm_record None [42]
     = Raise UnboundLocalError.
Proof. split; [discriminate | reflexivity]. Qed.

(** The same participant in a guild record gets the line. *)
Example build_system_prompt_guild_line :
  build_system_prompt (lit "January 01 2025") (lit "12:00:00 UTC+0000")
    (lit " Today is {date}. ") Inputs.guild_record (Some (lit "Home")) [42; 7]
  = Return (lit "Today is January 01 2025." ++ nl ++ nl
            ++ lit "Current server: Home" ++ known_users_header
            ++ lit "- <@42> (Display: Ann): likes cats" ++ known_users_footer).
Proof. vm_compute. reflexivity. Qed.

End PromptFacts.

(** * Properties of the conversation walk *)

Section WalkFacts.
Import Walk.

Variable env : Env.
Variable lim : Limits.
Variable is_dm : bool.

Lemma omap_length_le {A B} (f : A -> option B) (l : list A) :
  (length (omap f l) <= length l)%nat.
Proof.
  induction l as [|a l IH]; csimpl; [lia|].
  destruct (f a); csimpl; lia.
Qed.

(** The images of a populated node respect the cap. *)
Lemma node_images_le m txt :
  (length (node_images env lim m txt) <= max_images lim)%nat.
Proof.
  unfold node_images, slice_to.
  set (from := omap _ (firstn (max_images lim) (good_attachments m))).
  assert (Hfrom : (length from <= max_images lim)%nat).
  { subst from. etransitivity; [apply omap_length_le|]. apply firstn_le_length. }
  destruct (Nat.ltb_spec (length from) (max_images lim)); [|assumption].
  rewrite length_app.
  pose proof (omap_length_le (download_and_encode_image env)
                (firstn (max_images lim - length from)
                        (Urls.extract_image_urls txt (max_urls lim)))) as Hl.
  pose proof (firstn_le_length (max_images lim - length from)
                (Urls.extract_image_urls txt (max_urls lim))).
  lia.
Qed.

Lemma filled_node_text m node : text (filled_node env lim is_dm m node) <> None.
Proof.
  unfold filled_node. destruct (text node) eqn:Ht; [congruence|]. discriminate.
Qed.

Lemma filled_node_images m node :
  (length (images node) <= max_images lim)%nat ->
  (length (images (filled_node env lim is_dm m node)) <= max_images lim)%nat.
Proof.
  unfold filled_node. destruct (text node); [trivial|].
  intros _. apply node_images_le.
Qed.

Lemma cached_node_images st m :
  cache_capped lim (msg_nodes st) ->
  (length (images (cached_node st m)) <= max_images lim)%nat.
Proof.
  intros Hc. unfold cached_node.
  destruct (msg_nodes st !! msg_id m) as [n|] eqn:Hk; simpl.
  - eapply Hc; eassumption.
  - lia.
Qed.

(** The loop body, when the lock is free. *)
Lemma loop_body_next st m st' next :
  loop_body env lim is_dm st m = Next st' next ->
  let node := filled_node env lim is_dm m (cached_node st m) in
  locked (cached_node st m) = false
  /\ next = parent_msg node
  /\ msg_nodes st' = <[ msg_id m := node ]> (msg_nodes st)
  /\ messages st'
     = match node_parts lim node with
       | [] => messages st
       | _ :: _ => messages st ++ [{| turn_role := role node;
                                      parts := node_parts lim node |}]
       end
  /\ user_warnings st'
     = add_if (fetch_parent_failed node
               || (match parent_msg node with Some _ => true | None => false end
                   && Nat.eqb (length (messages st')) (max_messages lim)))
              (warn_only_last (length (messages st')))
         (add_if (has_bad_attachments node) warn_unsupported
            (add_if (max_images lim <? length (images node))%nat
                    (warn_max_images lim)
               (add_if (max_text lim <? length (default [] (text node)))%nat
                       (warn_max_text lim) (user_warnings st)))).
Proof.
  unfold loop_body. destruct (locked (cached_node st m)); [discriminate|].
  intros H. injection H as <- <-. simpl. repeat split; reflexivity.
Qed.

Lemma add_if_mono b w ws x : x ∈ ws -> x ∈ add_if b w ws.
Proof. unfold add_if. destruct b; set_solver. Qed.

Lemma add_if_true w ws : w ∈ add_if true w ws.
Proof. unfold add_if. set_solver. Qed.

(** The images of a turn are the capped images of its node. *)
Lemma node_parts_images node :
  (length (List.filter is_image (node_parts lim node)) <= max_images lim)%nat.
Proof.
  unfold node_parts, slice_to.
  rewrite List.filter_app.
  assert (Htxt : forall l : list Part,
             (forall p, In p l -> is_image p = false) -> List.filter is_image l = []).
  { induction l as [|p l IH]; simpl; intros Hl; [reflexivity|].
    rewrite (Hl p) by now left. apply IH. intros q Hq. apply Hl. now right. }
  rewrite Htxt, app_nil_l.
  - assert (Himg : forall l : list ImagePart,
               List.filter is_image (map ImgPart l) = map ImgPart l).
    { induction l as [|i l IH]; simpl; [reflexivity|]. now rewrite IH. }
    rewrite Himg, length_map. apply firstn_le_length.
  - intros p Hp. destruct (truthy _); [|contradiction].
    destruct Hp as [<-|[]]. reflexivity.
Qed.

(** One iteration keeps the cache and the turns within the image cap and
    appends at most one turn. *)
Lemma loop_body_invariant st m st' next :
  loop_body env lim is_dm st m = Next st' next ->
  cache_capped lim (msg_nodes st) ->
  turns_capped lim (messages st) ->
  cache_capped lim (msg_nodes st') /\ turns_capped lim (messages st')
  /\ (length (messages st) <= length (messages st') <= S (length (messages st)))%nat
  /\ user_warnings st ⊆ user_warnings st'.
Proof.
  intros H Hc Ht. apply loop_body_next in H.
  destruct H as (_ & _ & Hn & Hm & Hw).
  set (node := filled_node env lim is_dm m (cached_node st m)) in *.
  repeat split.
  - intros k n. rewrite Hn, lookup_insert.
    case_decide.
    + intros [= <-]. apply filled_node_images, cached_node_images, Hc.
    + apply Hc.
  - rewrite Hm. pose proof (node_parts_images node) as Hi.
    destruct (node_parts lim node) eqn:Hp; [assumption|].
    apply Forall_app. split; [assumption|].
    constructor; [|constructor]. exact Hi.
  - rewrite Hm. destruct (node_parts lim node); [lia|]. rewrite length_app. lia.
  - rewrite Hm. destruct (node_parts lim node); [lia|].
    rewrite length_app. simpl. lia.
  - rewrite Hw. intros x Hx. now do 4 apply add_if_mono.
Qed.

(** The branch that adds the images warning is never taken on a cache
    within the cap: the list it tests was cut when the node was filled. *)
Lemma images_branch_dead st m :
  cache_capped lim (msg_nodes st) ->
  (max_images lim
   <? length (images (filled_node env lim is_dm m (cached_node st m))))%nat
  = false.
Proof.
  intros Hc. apply Nat.ltb_ge.
  apply filled_node_images, cached_node_images, Hc.
Qed.

(** A text longer than [max_text] adds the text warning. *)
Lemma loop_body_warns_long_text st m st' next :
  loop_body env lim is_dm st m = Next st' next ->
  (max_text lim
   < length (default [] (text (filled_node env lim is_dm m (cached_node st m)))))%nat ->
  warn_max_text lim ∈ user_warnings st'.
Proof.
  intros H Hlen. apply loop_body_next in H.
  destruct H as (_ & _ & _ & _ & ->).
  do 3 apply add_if_mono.
  apply Nat.ltb_lt in Hlen. rewrite Hlen. apply add_if_true.
Qed.

(** The walk, when it ends, keeps the bounds on turns and on images per
    turn, and only adds warnings. *)
Lemma walk_bounds fuel : forall st curr st',
  walk env lim is_dm fuel st curr = Some (Done st') ->
  cache_capped lim (msg_nodes st) ->
  turns_capped lim (messages st) ->
  (length (messages st) <= max_messages lim)%nat ->
  (length (messages st') <= max_messages lim)%nat
  /\ turns_capped lim (messages st')
  /\ cache_capped lim (msg_nodes st')
  /\ user_warnings st ⊆ user_warnings st'.
Proof.
  induction fuel as [|fuel IH]; intros st curr st' H Hc Ht Hle.
  - destruct curr as [m|]; simpl in H.
    + destruct (Nat.ltb_spec (length (messages st)) (max_messages lim));
        [discriminate|].
      injection H as <-. auto.
    + injection H as <-. auto.
  - destruct curr as [m|]; simpl in H; [|injection H as <-; auto].
    destruct (Nat.ltb_spec (length (messages st)) (max_messages lim)) as [Hlt|Hge];
      [|injection H as <-; auto].
    destruct (loop_body env lim is_dm st m) as [|st1 next] eqn:Hb; [discriminate|].
    destruct (loop_body_invariant _ _ _ _ Hb Hc Ht) as (Hc1 & Ht1 & Hlen & Hw).
    destruct (IH _ _ _ H Hc1 Ht1 ltac:(lia)) as (? & ? & ? & Hw').
    repeat split; try assumption. etransitivity; eassumption.
Qed.

(** The walk ends within [n] iterations when the lineage it follows ends
    before the [n]-th visit. *)
Lemma walk_finite_lineage n : forall st curr,
  visit env lim is_dm n st curr = None ->
  walk env lim is_dm n st curr <> None.
Proof.
  induction n as [|n IH]; intros st curr H.
  - destruct curr; simpl in *; [discriminate|congruence].
  - destruct curr as [m|]; simpl in *; [|congruence].
    destruct (length (messages st) <? max_messages lim)%nat; [|congruence].
    destruct (loop_body env lim is_dm st m) as [|st1 next]; [congruence|].
    now apply IH.
Qed.

(** The walk ends within [k] iterations when [k] more turns fill the
    conversation and every message visited yields one. *)
Lemma walk_emitting k : forall st curr,
  (max_messages lim <= length (messages st) + k)%nat ->
  (forall n st_n m_n,
      (n < k)%nat ->
      visit env lim is_dm n st curr = Some (st_n, m_n) ->
      (length (messages st_n) < max_messages lim)%nat ->
      yields_turn env lim is_dm st_n m_n = true) ->
  exists st', walk env lim is_dm k st curr = Some (Done st').
Proof.
  induction k as [|k IH]; intros st curr Hk Hy.
  - destruct curr as [m|]; simpl; [|eauto].
    destruct (Nat.ltb_spec (length (messages st)) (max_messages lim)); [lia|eauto].
  - destruct curr as [m|]; simpl; [|eauto].
    destruct (Nat.ltb_spec (length (messages st)) (max_messages lim)) as [Hlt|];
      [|eauto].
    specialize (Hy 0%nat st m ltac:(lia) eq_refl Hlt) as Hy0.
    unfold yields_turn in Hy0.
    destruct (loop_body env lim is_dm st m) as [|st1 next] eqn:Hb; [discriminate|].
    apply Nat.eqb_eq in Hy0.
    apply IH; [lia|].
    intros n st_n m_n Hn Hv Hlen.
    apply (Hy (S n) st_n m_n); [lia| |assumption].
    simpl. now rewrite Hb.
Qed.

End WalkFacts.

Section WalkClaims.
Import Walk.

Lemma walk_turn_count env lim is_dm fuel : forall st curr st',
  walk env lim is_dm fuel st curr = Some (Done st') ->
  (length (messages st) <= max_messages lim)%nat ->
  (length (messages st') <= max_messages lim)%nat.
Proof.
  induction fuel as [|fuel IH]; intros st curr st' H Hle;
    destruct curr as [m|]; simpl in H; try (injection H as <-; assumption);
    destruct (Nat.ltb_spec (length (messages st)) (max_messages lim)) as [Hlt|Hge];
    try discriminate; try (injection H as <-; assumption).
  destruct (loop_body env lim is_dm st m) as [|st1 next] eqn:Hb; [discriminate|].
  apply (IH _ _ _ H).
  apply loop_body_next in Hb. destruct Hb as (_ & _ & _ & -> & _).
  destruct (node_parts lim _); [lia|]. rewrite length_app. simpl. lia.
Qed.

(** A message whose visit leaves the state as it is and is its own parent
    keeps the loop running for ever. *)
Lemma walk_stuck_in_cycle env lim is_dm st m :
  loop_body env lim is_dm st m = Next st (Some m) ->
  (length (messages st) < max_messages lim)%nat ->
  forall fuel, walk env lim is_dm fuel st (Some m) = None.
Proof.
  intros Hb Hlt fuel. apply Nat.ltb_lt in Hlt.
  induction fuel as [|fuel IH]; simpl; rewrite Hlt; [reflexivity|].
  now rewrite Hb.
Qed.

(** C3, as the code behaves: the loop counts the turns it has emitted, not
    its iterations.  On every lineage, cyclic or not, whose visited
    messages each yield a turn, the walk ends within [max_messages]
    iterations, with at most [max_messages] turns. *)
Theorem walk_terminates_when_turns_emitted env lim is_dm nodes m :
  (forall n st_n m_n,
      (n < max_messages lim)%nat ->
      visit env lim is_dm n (start nodes) (Some m) = Some (st_n, m_n) ->
      (length (messages st_n) < max_messages lim)%nat ->
      yields_turn env lim is_dm st_n m_n = true) ->
  exists st',
    walk env lim is_dm (max_messages lim) (start nodes) (Some m) = Some (Done st')
    /\ (length (messages st') <= max_messages lim)%nat.
Proof.
  intros Hy.
  destruct (walk_emitting env lim is_dm (max_messages lim) (start nodes) (Some m))
    as [st' Hst']; [simpl; lia | exact Hy |].
  exists st'. split; [exact Hst'|].
  apply (walk_turn_count _ _ _ _ _ _ _ Hst'). simpl. lia.
Qed.

Lemma walk_terminates_when_turns_emitted_witness :
  exists st',
    walk Inputs.env_loop Inputs.lim_two_messages false
         (max_messages Inputs.lim_two_messages) (start ∅)
         (Some Inputs.talking_self_reply) = Some (Done st')
    /\ (length (messages st') <= max_messages Inputs.lim_two_messages)%nat.
Proof.
  apply (walk_terminates_when_turns_emitted Inputs.env_loop Inputs.lim_two_messages
           false ∅ Inputs.talking_self_reply).
  intros n st_n m_n Hn Hv _.
  destruct n as [|[|n]].
  - injection Hv as <- <-. vm_compute. reflexivity.
  - vm_compute in Hv. injection Hv as <- <-. vm_compute. reflexivity.
  - simpl in Hn. lia.
Defined.

(** C3, refuted as stated.  With [max_messages = 1], a reply that holds
    only the mention of the bot yields no turn, so the walk from it needs
    two iterations: one does not finish it, two do.  And a message that
    yields no turn and resolves to itself as parent keeps the loop running
    whatever the number of iterations. *)
Lemma walk_iterations_unbounded :
  walk Inputs.env_chain Inputs.lim_one_message false
       (max_messages Inputs.lim_one_message) (start ∅)
       (Some Inputs.bare_mention_reply) = None
  /\ (exists st', walk Inputs.env_chain Inputs.lim_one_message false 2 (start ∅)
                       (Some Inputs.bare_mention_reply) = Some (Done st')
                  /\ length (messages st') = 1%nat)
  /\ (forall fuel,
         walk Inputs.env_loop Inputs.lim_one_message false fuel (start ∅)
              (Some Inputs.self_reply) = None).
Proof.
  split; [vm_compute; reflexivity|]. split.
  - eexists. split; vm_compute; reflexivity.
  - assert (H0 : loop_body Inputs.env_loop Inputs.lim_one_message false (start ∅)
                           Inputs.self_reply
                 = Next Inputs.self_reply_seen (Some Inputs.self_reply))
      by (vm_compute; reflexivity).
    assert (H1 : loop_body Inputs.env_loop Inputs.lim_one_message false
                           Inputs.self_reply_seen Inputs.self_reply
                 = Next Inputs.self_reply_seen (Some Inputs.self_reply))
      by (vm_compute; reflexivity).
    intros [|fuel]; [reflexivity|].
    change (walk Inputs.env_loop Inputs.lim_one_message false (S fuel) (start ∅)
                 (Some Inputs.self_reply))
      with (match loop_body Inputs.env_loop Inputs.lim_one_message false (start ∅)
                            Inputs.self_reply with
            | Blocked => Some Stuck
            | Next st' next =>
                walk Inputs.env_loop Inputs.lim_one_message false fuel st' next
            end).
    rewrite H0.
    apply (walk_stuck_in_cycle _ _ _ _ _ H1).
    vm_compute. lia.
Qed.

(** C4, the parts that hold: a walk that starts on a cache within the
    image cap ends with at most [max_messages] turns, each with at most
    [max_images] images, and a visited message whose text is longer than
    [max_text] puts the text warning into the set. *)
Lemma walk_respects_limits env lim is_dm fuel nodes m st' :
  cache_capped lim nodes ->
  walk env lim is_dm fuel (start nodes) (Some m) = Some (Done st') ->
  (length (messages st') <= max_messages lim)%nat
  /\ turns_capped lim (messages st').
Proof.
  intros Hc H.
  destruct (walk_bounds env lim is_dm fuel _ _ _ H) as (? & ? & _);
    simpl; auto; try lia. constructor.
Qed.

Lemma walk_keeps_text_warning env lim is_dm fuel st m st1 next st' :
  loop_body env lim is_dm st m = Next st1 next ->
  (max_text lim
   < length (default [] (text (filled_node env lim is_dm m (cached_node st m)))))%nat ->
  walk env lim is_dm fuel st1 next = Some (Done st') ->
  cache_capped lim (msg_nodes st1) -> turns_capped lim (messages st1) ->
  (length (messages st1) <= max_messages lim)%nat ->
  warn_max_text lim ∈ user_warnings st'.
Proof.
  intros Hb Hlen Hw Hc Ht Hle.
  pose proof (loop_body_warns_long_text _ _ _ _ _ _ _ Hb Hlen) as Hin.
  destruct (walk_bounds _ _ _ _ _ _ _ Hw Hc Ht Hle) as (_ & _ & _ & Hsub).
  set_solver.
Qed.

(** C4, at the failing input: a message with two image attachments under
    [max_images = 1].  Both are images and both would download; the turn
    gets one image, the other is cut, and the walk ends without any
    warning: the images warning is not in the set. *)
Theorem images_cut_without_warning :
  length (good_attachments Inputs.two_pictures) = 2%nat
  /\ max_images Inputs.lim_one_image = 1%nat
  /\ exists st' t,
       walk Inputs.env_chain Inputs.lim_one_image false
            (max_messages Inputs.lim_one_image) (start ∅)
            (Some Inputs.two_pictures) = Some (Done st')
       /\ messages st' = [t]
       /\ length (turn_images t) = 1%nat
       /\ user_warnings st' = ∅
       /\ warn_max_images Inputs.lim_one_image ∉ user_warnings st'.
Proof.
  split; [reflexivity|]. split; [reflexivity|].
  eexists. eexists.
  split; [vm_compute; reflexivity|].
  split; [vm_compute; reflexivity|].
  split; [vm_compute; reflexivity|].
  assert (He : user_warnings
                 {| messages := []; user_warnings := ∅;
                    conversation_user_ids := ∅; msg_nodes := ∅ |} = ∅)
    by reflexivity.
  split; [vm_compute; reflexivity|].
  vm_compute. intros H. inversion H.
Qed.

Lemma filter_shorter {A} (f : A -> bool) (l : list A) :
  (length (List.filter f l) < length l)%nat
  <-> exists x, In x l /\ f x = false.
Proof.
  induction l as [|a l IH]; simpl.
  - split; [lia | intros (x & [] & _)].
  - pose proof (List.filter_length_le f l) as Hle.
    destruct (f a) eqn:Ha; simpl.
    + rewrite <- Nat.succ_lt_mono, IH. split.
      * intros (x & Hx & Hf). eauto.
      * intros (x & [-> | Hx] & Hf); [congruence | eauto].
    + split; [eauto | lia].
Qed.

(** C5, as the code sets the flag: it is true exactly when some attachment
    of the message is not an image (its content type is missing, empty or
    does not start with image). *)
Theorem has_bad_attachments_iff env lim is_dm m node :
  has_bad_attachments (populate env lim is_dm m node) = true
  <-> exists att, In att (attachments m) /\ is_good_attachment att = false.
Proof.
  unfold populate; simpl. rewrite Nat.ltb_lt. apply filter_shorter.
Qed.

(** C5, refuted as stated: the second of two image attachments is dropped
    by the cap [max_images = 1], and the flag of the node stays false. *)
Lemma capped_picture_not_flagged :
  dropped Inputs.lim_one_image Inputs.two_pictures Inputs.png_two
  /\ is_good_attachment Inputs.png_two = true
  /\ has_bad_attachments
       (populate Inputs.env_chain Inputs.lim_one_image false Inputs.two_pictures
                 (MsgNode_new None)) = false.
Proof.
  split; [|split; reflexivity].
  split.
  - right. left. reflexivity.
  - intros [H|[]]. discriminate H.
Qed.

End WalkClaims.

(** * Properties of the streaming response driver *)

Section DriverFacts.
Import Driver.

Variable api_fails : nat -> bool.
Variable plain : bool.
Variable new_msg : Message.

Local Abbreviation edit := (edit api_fails).
Local Abbreviation reply_helper := (reply_helper api_fails new_msg).
Local Abbreviation open_message := (open_message api_fails new_msg).
Local Abbreviation finalize_active := (finalize_active api_fails).
Local Abbreviation split_message := (split_message api_fails plain new_msg).
Local Abbreviation first_message := (first_message api_fails plain new_msg).
Local Abbreviation periodic_edit := (periodic_edit api_fails).
Local Abbreviation on_text := (on_text api_fails plain new_msg).
Local Abbreviation process_chunk := (process_chunk api_fails plain new_msg).
Local Abbreviation process_chunks := (process_chunks api_fails plain new_msg).
Local Abbreviation final_rich := (final_rich api_fails new_msg).
Local Abbreviation final_plain := (final_plain api_fails new_msg).
Local Abbreviation final_update := (final_update api_fails plain new_msg).
Local Abbreviation try_body := (try_body api_fails plain new_msg).
Local Abbreviation except_body := (except_body api_fails plain new_msg).
Local Abbreviation respond := (respond api_fails plain new_msg).

(** *** Rules for [preserves] *)

Lemma preserves_ret {A} P (a : A) : preserves P (ret a).
Proof. intros s Hs. exact Hs. Qed.

Lemma preserves_raise {A} P e : preserves P (@raise A e).
Proof. intros s Hs. exact Hs. Qed.

Lemma preserves_get P : preserves P get.
Proof. intros s Hs. exact Hs. Qed.

Lemma preserves_modify P f :
  (forall s, P s -> P (f s)) -> preserves P (modify f).
Proof. intros Hf s Hs. apply Hf, Hs. Qed.

Lemma preserves_bind {A B} P (m : M A) (k : A -> M B) :
  preserves P m -> (forall a, preserves P (k a)) -> preserves P (bind m k).
Proof.
  intros Hm Hk s Hs. unfold bind. specialize (Hm s Hs).
  destruct (m s) as [s1 [a|e]]; simpl in *; [apply Hk, Hm | exact Hm].
Qed.

Lemma preserves_when P b m : preserves P m -> preserves P (when b m).
Proof. intros Hm. destruct b; [exact Hm | apply preserves_ret]. Qed.

(** What [get] hands over satisfies the property too. *)
Lemma preserves_get_bind {B} P (k : State -> M B) :
  (forall s0, P s0 -> preserves P (k s0)) -> preserves P (bind get k).
Proof. intros Hk s Hs. unfold bind, get. apply (Hk s Hs s Hs). Qed.

(** *** The messages sent stay registered *)

Lemma registered_edit stamp m kw : preserves (registered new_msg) (edit stamp m kw).
Proof.
  intros s Hs. unfold Driver.edit.
  destruct (api_fails _); simpl; exact Hs.
Qed.

Lemma registered_reply_helper stamp kw :
  preserves (registered new_msg) (reply_helper stamp kw).
Proof.
  intros s (Hlt & Hnd & Hnodes).
  unfold Driver.reply_helper, Driver.reply, bind, get, modify.
  destruct (api_fails _); simpl; [now repeat split|].
  repeat split; simpl.
  - intros m Hm. apply in_app_or in Hm. destruct Hm as [Hm|[<-|[]]]; simpl.
    + specialize (Hlt m Hm). lia.
    + lia.
  - rewrite map_app. simpl. apply NoDup_app. repeat split.
    + exact Hnd.
    + intros x Hx Hx'. apply list_elem_of_In in Hx'.
      destruct Hx' as [Hx'|[]]. subst x.
      apply list_elem_of_In, in_map_iff in Hx. destruct Hx as (m & Hid & Hm).
      specialize (Hlt m Hm). lia.
    + apply NoDup_singleton.
  - intros m Hm. apply in_app_or in Hm. destruct Hm as [Hm|[<-|[]]]; simpl.
    + rewrite lookup_insert_ne; [apply Hnodes, Hm|].
      specialize (Hlt m Hm). lia.
    + apply lookup_insert_eq.
Qed.

Ltac keep_registered :=
  repeat lazymatch goal with
    | |- preserves _ (ret _) => apply preserves_ret
    | |- preserves _ (raise _) => apply preserves_raise
    | |- preserves _ (bind get _) => apply preserves_get_bind; intros ? ?
    | |- preserves _ (bind _ _) => apply preserves_bind; [|intros ?]
    | |- preserves _ (when _ _) => apply preserves_when
    | |- preserves _ (modify _) => apply preserves_modify; intros ? ?; assumption
    | |- preserves _ (Driver.edit _ _ _ _) => apply registered_edit
    | |- preserves _ (Driver.reply_helper _ _ _ _) => apply registered_reply_helper
    end.

Lemma registered_last_msg : preserves (registered new_msg) last_msg.
Proof.
  unfold last_msg. apply preserves_get_bind. intros s0 _.
  destruct (last _); keep_registered.
Qed.

Lemma registered_open_message fresh t :
  preserves (registered new_msg) (open_message fresh t).
Proof. unfold Driver.open_message. keep_registered. Qed.

Lemma registered_on_text txt t : preserves (registered new_msg) (on_text txt t).
Proof.
  unfold Driver.on_text. keep_registered.
  destruct (last _).
  - destruct (_ <? _)%nat.
    + unfold Driver.split_message, Driver.finalize_active, commit_buffer.
      keep_registered; try apply registered_last_msg; try apply registered_open_message.
    + unfold Driver.periodic_edit.
      keep_registered; try apply registered_last_msg.
  - unfold Driver.first_message, commit_buffer.
    keep_registered; apply registered_open_message.
Qed.

Lemma registered_process_chunks cs : forall s,
  registered new_msg s -> registered new_msg (process_chunks cs s).
Proof.
  induction cs as [|c cs IH]; intros s Hs; simpl; [exact Hs|].
  apply IH. destruct c; simpl; [apply registered_on_text, Hs | exact Hs | exact Hs].
Qed.

Lemma registered_final_rich contents : forall i,
  preserves (registered new_msg) (final_rich i contents).
Proof.
  induction contents as [|c contents IH]; intros i; simpl; keep_registered.
  - destruct (nth_error _ _); keep_registered.
  - apply IH.
Qed.

Lemma registered_final_plain contents :
  preserves (registered new_msg) (final_plain contents).
Proof.
  induction contents as [|c contents IH]; simpl; keep_registered.
  - destruct (last _) as [m|]; [destruct (truthy _)|]; keep_registered.
  - apply IH.
Qed.

Lemma registered_try_body gen : preserves (registered new_msg) (try_body gen).
Proof.
  destruct gen as [|chunks breaks]; simpl; [apply preserves_raise|].
  apply preserves_bind.
  - apply preserves_modify. apply registered_process_chunks.
  - intros _. destruct breaks; [apply preserves_raise|].
    unfold Driver.final_update, flush_buffer. keep_registered.
    + destruct (truthy _); [destruct (last _)|]; keep_registered.
    + destruct plain; [apply registered_final_plain | apply registered_final_rich].
Qed.

Lemma registered_except_body : preserves (registered new_msg) except_body.
Proof.
  unfold Driver.except_body. destruct plain; keep_registered;
    destruct (last _); keep_registered.
Qed.

Lemma registered_initial ws nodes pf :
  registered new_msg (initial plain ws nodes pf).
Proof.
  repeat split; simpl; try constructor; intros m [].
Qed.

(** *** The final response is stored *)

(** On registered messages the storing loop does not raise: it sets the
    text of every node to the whole response and releases its lock. *)
Lemma store_final_registered msgs : forall s,
  NoDup (map sent_id msgs) ->
  (forall m, In m msgs -> msg_nodes s !! sent_id m = Some (fresh_node new_msg)) ->
  exists s',
    store_final msgs s = (s', Return tt)
    /\ response_msgs s' = response_msgs s
    /\ response_contents s' = response_contents s
    /\ platform s' = platform s
    /\ (forall m, In m msgs ->
          msg_nodes s' !! sent_id m
          = Some (stored_node new_msg (join [] (response_contents s))))
    /\ (forall k, ~ In k (map sent_id msgs) -> msg_nodes s' !! k = msg_nodes s !! k).
Proof.
  induction msgs as [|m msgs IH]; intros s Hnd Hnodes.
  - exists s. simpl. unfold ret. repeat split; auto. intros m [].
  - simpl in Hnd. apply NoDup_cons in Hnd. destruct Hnd as [Hnotin Hnd].
    simpl. unfold bind at 1, get.
    rewrite (Hnodes m (or_introl eq_refl)). simpl.
    unfold bind, modify.
    set (s1 := set_msg_nodes _ s).
    destruct (IH s1 Hnd) as (s' & Hs' & Hm' & Hc' & Hp' & Hin & Hout).
    { intros m' Hm'. subst s1; simpl.
      rewrite lookup_insert_ne; [apply Hnodes; now right|].
      intros Heq. apply Hnotin. apply list_elem_of_In, in_map_iff. eauto. }
    exists s'. rewrite Hs'. repeat split; auto.
    + intros m' [<-|Hm'']; [|apply Hin, Hm''].
      rewrite Hout.
      * subst s1; simpl. apply lookup_insert_eq.
      * intros Hk. apply Hnotin, list_elem_of_In, Hk.
    + intros k Hk. rewrite Hout by (intros Hk'; apply Hk; now right).
      subst s1; simpl. apply lookup_insert_ne. intros Heq. apply Hk. now left.
Qed.

(** The handler reaches the storing loop in a state whose messages are
    registered, unless the [except] body itself raises. *)
Lemma respond_cases gen s0 s' r :
  registered new_msg s0 ->
  respond gen s0 = (s', r) ->
  (exists s2, store_final (response_msgs s2) s2 = (s', r)
              /\ registered new_msg s2)
  \/ (exists s1 e1 e, try_body gen s0 = (s1, Raise e1)
                      /\ except_body s1 = (s', Raise e) /\ r = Raise e).
Proof.
  unfold Driver.respond. intros Hreg H.
  pose proof (registered_try_body gen s0 Hreg) as Ht.
  destruct (try_body gen s0) as [s1 [[]|e1]] eqn:Htry; simpl in Ht.
  - left. exists s1. split; [exact H | exact Ht].
  - pose proof (registered_except_body s1 Ht) as He.
    destruct (except_body s1) as [s2 [[]|e]] eqn:Hex; simpl in He.
    + left. exists s2. split; [exact H | exact He].
    + right. injection H as <- <-. eauto 6.
Qed.

(** The [except] body returns when its one platform call succeeds. *)
Lemma except_body_returns s1 :
  api_fails (length (calls (platform s1))) = false ->
  exists s2, except_body s1 = (s2, Return tt).
Proof.
  intros Hok. unfold Driver.except_body.
  destruct plain; unfold bind, get, modify, Driver.edit, Driver.reply_helper,
    Driver.reply, bind, get, modify; simpl;
    destruct (last (response_msgs s1)); simpl; rewrite Hok; simpl; eauto.
Qed.

(** Without a failing platform call the handler returns. *)
Lemma respond_returns gen ws nodes pf :
  (forall n, api_fails n = false) ->
  exists s', respond gen (initial plain ws nodes pf) = (s', Return tt).
Proof.
  intros Hok. unfold Driver.respond.
  pose proof (registered_try_body gen _ (registered_initial ws nodes pf)) as Ht.
  destruct (try_body gen (initial plain ws nodes pf)) as [s1 [[]|e1]]; simpl in Ht.
  - destruct Ht as (_ & Hnd & Hnodes).
    destruct (store_final_registered _ s1 Hnd Hnodes) as (s' & Hs' & _). eauto.
  - destruct (except_body_returns s1 (Hok _)) as [s2 Hs2].
    pose proof (registered_except_body s1 Ht) as He. rewrite Hs2 in *. simpl in He.
    destruct He as (_ & Hnd & Hnodes).
    destruct (store_final_registered _ s2 Hnd Hnodes) as (s' & Hs' & _). eauto.
Qed.

(** The [except] body, when its platform call succeeds: one call without
    stamp that shows the error message, an edit of the last message sent
    or else a reply to the trigger; nothing else on the platform changes. *)
Lemma except_body_effect s1 :
  api_fails (length (calls (platform s1))) = false ->
  exists s2 c,
    except_body s1 = (s2, Return tt)
    /\ calls (platform s2) = calls (platform s1) ++ [c]
    /\ call_ok c = true /\ call_stamp c = None /\ shows_error (call_kwargs c)
    /\ shown (platform s2) = <[ error_target s1 := call_kwargs c ]> (shown (platform s1))
    /\ response_contents s2 = response_contents s1
    /\ match last (response_msgs s1) with
       | Some m => call_kind c = IsEdit /\ call_target c = sent_id m
                   /\ response_msgs s2 = response_msgs s1
       | None => call_kind c = IsReply /\ call_target c = msg_id new_msg
                 /\ response_msgs s2
                    = response_msgs s1
                      ++ [{| sent_id := next_id (platform s1);
                             sent_content := kw_content (call_kwargs c) |}]
       end.
Proof.
  intros Hok. unfold Driver.except_body, error_target.
  destruct plain; unfold bind, get, modify, Driver.edit, Driver.reply_helper,
    Driver.reply, bind, get, modify; simpl;
    destruct (last (response_msgs s1)) as [m|] eqn:Hlast; simpl;
    rewrite ?Hlast, Hok; simpl; rewrite ?Hlast;
    eexists; eexists; (split; [reflexivity|]); simpl;
    repeat split; reflexivity.
Qed.

(** *** The edit timer *)

Lemma spaced_snoc cs c :
  spaced cs ->
  (periodic c = true ->
   forall c0 t0 tc, In c0 cs -> restarts_timer c0 = true ->
                    call_stamp c0 = Some t0 -> call_stamp c = Some tc ->
                    (EDIT_DELAY_SECONDS <= tc - t0)%Q) ->
  spaced (cs ++ [c]).
Proof.
  intros Hsp Hc i j ci cj ti tj Hij Hi Hj Hri Hpj Hti Htj.
  destruct (Nat.lt_ge_cases j (length cs)) as [Hlt|Hge].
  - rewrite lookup_app_l in Hi by lia. rewrite lookup_app_l in Hj by lia.
    exact (Hsp i j ci cj ti tj Hij Hi Hj Hri Hpj Hti Htj).
  - assert (Hjlen : j = length cs).
    { apply lookup_lt_Some in Hj. rewrite length_app in Hj. simpl in Hj. lia. }
    subst j. rewrite list_lookup_middle in Hj by reflexivity.
    injection Hj as <-.
    rewrite lookup_app_l in Hi by lia.
    apply (Hc Hpj ci ti tj); try assumption.
    apply list_elem_of_In. eapply list_elem_of_lookup_2; eassumption.
Qed.

(** One more call, stamped with the reading [t] of the chunk at hand, keeps
    the timer in order: an in-progress edit needs the delay to have
    elapsed, and the timer either stays (the call did not restart it) or
    is set to [t]. *)
Lemma timer_ok_call t s s' c :
  timer_ok t s ->
  calls (platform s') = calls (platform s) ++ [c] ->
  call_stamp c = Some t ->
  (periodic c = true -> (EDIT_DELAY_SECONDS <= t - last_edit_time s)%Q) ->
  (last_edit_time s' = last_edit_time s /\ restarts_timer c = false)
  \/ last_edit_time s' = t ->
  timer_ok t s'.
Proof.
  intros (Hsp & Hb & Hle) Hcalls Hst Hper HL.
  assert (Hdelay : (0 <= EDIT_DELAY_SECONDS)%Q) by (unfold EDIT_DELAY_SECONDS; lra).
  split; [|split].
  - rewrite Hcalls. apply spaced_snoc; [exact Hsp|].
    intros Hp c0 t0 tc Hin Hr Ht0 Htc.
    rewrite Hst in Htc. injection Htc as <-.
    specialize (Hb c0 t0 Hin Hr Ht0). specialize (Hper Hp). lra.
  - intros c0 tc. rewrite Hcalls. intros Hin Hr Htc.
    apply in_app_or in Hin. destruct Hin as [Hin|[<-|[]]].
    + specialize (Hb c0 tc Hin Hr Htc).
      destruct HL as [[-> _]| ->]; [exact Hb | lra].
    + rewrite Hst in Htc. injection Htc as <-.
      destruct HL as [[_ Hnr]| ->]; [congruence | lra].
  - destruct HL as [[-> _]| ->]; [exact Hle | lra].
Qed.

Lemma timer_ok_same t s s' :
  calls (platform s') = calls (platform s) ->
  last_edit_time s' = last_edit_time s ->
  timer_ok t s -> timer_ok t s'.
Proof. unfold timer_ok. intros -> ->. trivial. Qed.

Lemma timer_ok_later t t' s : (t <= t')%Q -> timer_ok t s -> timer_ok t' s.
Proof. intros Ht (Hsp & Hb & Hle). repeat split; auto. lra. Qed.

Ltac run_driver :=
  unfold Driver.split_message, Driver.first_message, Driver.periodic_edit,
    Driver.finalize_active, last_msg, commit_buffer, Driver.open_message,
    Driver.reply_helper, Driver.reply, Driver.edit, when, bind, modify, get, ret,
    raise, last_content, set_last_edit_time, set_msg_nodes, set_response_msgs,
    set_platform, set_embed, set_chunk_buffer, set_response_contents,
    set_curr_content, record_call; cbn.

Lemma commit_buffer_timer t : preserves (timer_ok t) commit_buffer.
Proof. intros s Hs. now apply (timer_ok_same t s). Qed.

(** Sending the in-progress embed of a new message restarts the timer
    when the call succeeds. *)
Lemma open_message_timer fresh t : preserves (timer_ok t) (open_message fresh t).
Proof.
  intros s Hs. run_driver.
  destruct (api_fails (length (calls (platform s)))); cbn.
  - eapply (timer_ok_call t s); [exact Hs | reflexivity | reflexivity | | ].
    + discriminate.
    + left. split; reflexivity.
  - eapply (timer_ok_call t s); [exact Hs | reflexivity | reflexivity | | ].
    + discriminate.
    + right. reflexivity.
Qed.

(** The edit that completes the active message at a split leaves the
    timer alone. *)
Lemma finalize_active_timer committed t :
  preserves (timer_ok t) (finalize_active committed t).
Proof.
  intros s Hs. run_driver.
  destruct (last (response_msgs s)) as [m|]; cbn.
  - destruct (api_fails (length (calls (platform s)))); cbn;
      (eapply (timer_ok_call t s);
       [exact Hs | reflexivity | reflexivity | discriminate
       | left; split; reflexivity]).
  - now apply (timer_ok_same t s).
Qed.

(** The periodic edit is issued only once the delay has elapsed. *)
Lemma periodic_edit_timer committed t s :
  (EDIT_DELAY_SECONDS <= t - last_edit_time s)%Q ->
  timer_ok t s -> timer_ok t (fst (periodic_edit committed t s)).
Proof.
  intros Hdelay Hs. run_driver.
  destruct (last (response_msgs s)) as [m|]; cbn.
  - destruct (api_fails (length (calls (platform s)))); cbn.
    + eapply (timer_ok_call t s);
        [exact Hs | reflexivity | reflexivity | intros _; exact Hdelay
        | left; split; reflexivity].
    + eapply (timer_ok_call t s);
        [exact Hs | reflexivity | reflexivity | intros _; exact Hdelay
        | right; reflexivity].
  - now apply (timer_ok_same t s).
Qed.

Lemma split_message_timer committed t :
  preserves (timer_ok t) (split_message committed t).
Proof.
  unfold Driver.split_message.
  apply preserves_bind; [apply preserves_when, finalize_active_timer|intros _].
  apply preserves_bind; [apply commit_buffer_timer|intros _].
  apply preserves_when, open_message_timer.
Qed.

Lemma first_message_timer t : preserves (timer_ok t) (first_message t).
Proof.
  unfold Driver.first_message.
  apply preserves_bind; [apply commit_buffer_timer|intros _].
  apply preserves_when, open_message_timer.
Qed.

(** The state after a text chunk, branch by branch. *)
Lemma on_text_unfold txt t s :
  let s1 := set_curr_content (curr_content s ++ txt)
              (set_chunk_buffer (chunk_buffer s ++ txt) s) in
  fst (on_text txt t s)
  = match last (response_contents s) with
    | Some committed =>
        if (cap plain <? length (committed ++ chunk_buffer s ++ txt))%nat
        then fst (split_message committed t s1)
        else if negb plain
                && Qle_bool EDIT_DELAY_SECONDS (t - last_edit_time s)
             then fst (periodic_edit committed t s1)
             else s1
    | None => fst (first_message t s1)
    end.
Proof.
  unfold Driver.on_text, bind, modify, get, when.
  cbn [fst snd response_contents chunk_buffer last_edit_time
       set_curr_content set_chunk_buffer].
  destruct (last (response_contents s)) as [committed|]; [|reflexivity].
  destruct (cap plain <? length (committed ++ chunk_buffer s ++ txt))%nat;
    [reflexivity|].
  destruct (negb plain
            && Qle_bool EDIT_DELAY_SECONDS (t - last_edit_time s)); reflexivity.
Qed.

Lemma on_text_timer txt t s :
  timer_ok t s -> timer_ok t (fst (on_text txt t s)).
Proof.
  intros Hs. rewrite on_text_unfold. cbv zeta.
  set (s1 := set_curr_content _ _).
  assert (Hs1 : timer_ok t s1) by now apply (timer_ok_same t s).
  destruct (last (response_contents s)) as [committed|].
  - destruct (cap plain <? length (committed ++ chunk_buffer s ++ txt))%nat;
      [now apply split_message_timer|].
    destruct (negb plain
              && Qle_bool EDIT_DELAY_SECONDS (t - last_edit_time s)) eqn:Hcond;
      [|exact Hs1].
    apply andb_prop in Hcond. destruct Hcond as [_ Hq].
    apply Qle_bool_iff in Hq. now apply periodic_edit_timer.
  - now apply first_message_timer.
Qed.

Lemma process_chunks_timer chunks : forall t0 s,
  timer_ok t0 s -> clock_monotone t0 chunks = true ->
  exists t1, timer_ok t1 (process_chunks chunks s).
Proof.
  induction chunks as [|c chunks IH]; intros t0 s Hs Hmono; simpl.
  - eauto.
  - destruct c as [txt now| |]; simpl in *; [|eauto|eauto].
    apply andb_prop in Hmono. destruct Hmono as [Hle Hmono].
    apply Qle_bool_iff in Hle.
    apply (IH now); [|exact Hmono].
    apply on_text_timer. now apply (timer_ok_later t0).
Qed.

(** *** A text that fits the capacity is not split *)

Lemma contents_edit (Q : list str -> str -> Prop) stamp m kw :
  preserves (fun s => Q (response_contents s) (chunk_buffer s)) (edit stamp m kw).
Proof. intros s Hs. unfold Driver.edit. destruct (api_fails _); exact Hs. Qed.

Lemma contents_reply_helper (Q : list str -> str -> Prop) stamp kw :
  preserves (fun s => Q (response_contents s) (chunk_buffer s))
            (reply_helper stamp kw).
Proof.
  intros s Hs. unfold Driver.reply_helper, Driver.reply, bind, get, modify.
  destruct (api_fails _); exact Hs.
Qed.

Ltac keep_contents :=
  repeat lazymatch goal with
    | |- preserves _ (ret _) => apply preserves_ret
    | |- preserves _ (raise _) => apply preserves_raise
    | |- preserves _ (bind get _) => apply preserves_get_bind; intros ? ?
    | |- preserves _ (bind _ _) => apply preserves_bind; [|intros ?]
    | |- preserves _ (when _ _) => apply preserves_when
    | |- preserves _ (modify _) => apply preserves_modify; intros ? ?; assumption
    | |- preserves _ (Driver.edit _ _ _ _) => apply contents_edit
    | |- preserves _ (Driver.reply_helper _ _ _ _) => apply contents_reply_helper
    | |- preserves _ (match last ?l with _ => _ end) => destruct (last l)
    end.

Lemma contents_open_message (Q : list str -> str -> Prop) fresh t :
  preserves (fun s => Q (response_contents s) (chunk_buffer s))
            (open_message fresh t).
Proof. unfold Driver.open_message. keep_contents. Qed.

Lemma contents_periodic_edit (Q : list str -> str -> Prop) committed t :
  preserves (fun s => Q (response_contents s) (chunk_buffer s))
            (periodic_edit committed t).
Proof. unfold Driver.periodic_edit, last_msg. keep_contents. Qed.

Lemma on_text_unsplit whole txt t s :
  (length (whole ++ txt) <= cap plain)%nat ->
  unsplit whole s -> unsplit (whole ++ txt) (fst (on_text txt t s)).
Proof.
  intros Hfit Hs. rewrite on_text_unfold. cbv zeta.
  set (s1 := set_curr_content _ _).
  destruct Hs as [(Hc & Hb & ->) | (c & Hc & Hcb)]; rewrite Hc; cbn [last].
  - (* the first message *)
    change (fst (first_message t s1))
      with (fst (when (negb plain) (open_message false t)
                   (set_chunk_buffer []
                      (set_response_contents
                         (response_contents s1 ++ [chunk_buffer s1]) s1)))).
    apply (preserves_when _ _ _
             (contents_open_message
                (fun cs b => (cs = [] /\ b = [] /\ [] ++ txt = [])
                             \/ (exists c, cs = [c] /\ c ++ b = [] ++ txt))
                false t)).
    right. exists (chunk_buffer s ++ txt). subst s1. cbn.
    rewrite Hc, Hb. split; [reflexivity | now rewrite app_nil_r].
  - (* the active message takes the delta *)
    assert (Hno : (cap plain <? length (c ++ chunk_buffer s ++ txt))%nat = false).
    { apply Nat.ltb_ge. rewrite app_assoc, Hcb. exact Hfit. }
    rewrite Hno.
    assert (Hs1 : unsplit (whole ++ txt) s1).
    { right. exists c. subst s1. cbn. split; [exact Hc|].
      now rewrite app_assoc, Hcb. }
    destruct (negb plain && _); [|exact Hs1].
    apply (contents_periodic_edit
             (fun cs b => (cs = [] /\ b = [] /\ whole ++ txt = [])
                          \/ (exists c, cs = [c] /\ c ++ b = whole ++ txt))).
    exact Hs1.
Qed.

Lemma process_chunks_unsplit chunks : forall whole s,
  (length (whole ++ stream_text chunks) <= cap plain)%nat ->
  unsplit whole s ->
  unsplit (whole ++ stream_text chunks) (process_chunks chunks s).
Proof.
  induction chunks as [|c chunks IH]; intros whole s Hfit Hs; simpl.
  - now rewrite app_nil_r.
  - destruct c as [txt now| |]; simpl in *; [|now apply IH|now apply IH].
    rewrite app_assoc. apply IH; [now rewrite <- app_assoc|].
    apply on_text_unsplit; [|exact Hs].
    rewrite app_assoc, length_app in Hfit. lia.
Qed.

(** When the whole text of the stream fits the capacity of one message,
    no message is started besides the first: whatever the platform calls
    do, the contents end up as the one whole text. *)
Lemma fitting_text_is_not_split chunks ws nodes pf :
  (length (stream_text chunks) <= cap plain)%nat ->
  let s := fst (flush_buffer
                  (process_chunks chunks (initial plain ws nodes pf))) in
  response_contents s = [stream_text chunks]
  \/ (response_contents s = [] /\ stream_text chunks = []).
Proof.
  intros Hfit.
  pose proof (process_chunks_unsplit chunks [] (initial plain ws nodes pf) Hfit)
    as Hun.
  simpl in Hun. specialize (Hun (or_introl (conj eq_refl (conj eq_refl eq_refl)))).
  cbv zeta. unfold flush_buffer, bind, get, modify, raise, ret.
  destruct Hun as [(Hc & Hb & Hw) | (c & Hc & Hcb)].
  - rewrite Hb. cbn. right. split; assumption.
  - left. destruct (chunk_buffer (process_chunks chunks _)) as [|b0 b] eqn:Hb; cbn.
    + rewrite Hc. now rewrite app_nil_r in Hcb; subst.
    + rewrite Hc. cbn. now rewrite Hcb.
Qed.

End DriverFacts.

Section ResponseStored.
Import Driver.



End ResponseStored.

Section Failure.
Import Driver.

(** C8, as the code behaves: when the generation call, the stream itself
    or the final update raises, the handler stops, and with one more
    platform call it writes the fixed error message to the last message
    sent, or to a new reply to the trigger when none was sent; every
    other message keeps what it showed, and the handler goes on to store
    the response.  (An error while one chunk is handled does not reach
    this path: it is dropped and the stream goes on.) *)
Theorem failure_shows_error_message api_fails plain new_msg gen ws nodes pf s1 e :
  try_body api_fails plain new_msg gen (initial plain ws nodes pf) = (s1, Raise e) ->
  api_fails (length (calls (platform s1))) = false ->
  exists s' c,
    respond api_fails plain new_msg gen (initial plain ws nodes pf) = (s', Return tt)
    /\ calls (platform s') = calls (platform s1) ++ [c]
    /\ call_ok c = true /\ call_stamp c = None /\ shows_error (call_kwargs c)
    /\ match last (response_msgs s1) with
       | Some m => call_kind c = IsEdit /\ call_target c = sent_id m
       | None => call_kind c = IsReply /\ call_target c = msg_id new_msg
       end
    /\ shown (platform s') !! error_target s1 = Some (call_kwargs c)
    /\ (forall k, k <> error_target s1 ->
                  shown (platform s') !! k = shown (platform s1) !! k)
    /\ response_contents s' = response_contents s1.
Proof.
  intros Htry Hok.
  destruct (except_body_effect api_fails plain new_msg s1 Hok)
    as (s2 & c & Hex & Hcalls & Hcok & Hstamp & Herr & Hshown & Hcont & Hkind).
  pose proof (registered_try_body api_fails plain new_msg gen _
                (registered_initial plain new_msg ws nodes pf)) as Hreg1.
  rewrite Htry in Hreg1. simpl in Hreg1.
  pose proof (registered_except_body api_fails plain new_msg s1 Hreg1) as Hreg2.
  rewrite Hex in Hreg2. simpl in Hreg2. destruct Hreg2 as (_ & Hnd & Hnodes).
  destruct (store_final_registered new_msg (response_msgs s2) s2 Hnd Hnodes)
    as (s' & Hs' & _ & Hc' & Hp' & _).
  exists s', c. unfold respond. rewrite Htry, Hex, Hs', Hp', Hc', Hcalls, Hshown.
  repeat split; try assumption.
  - destruct (last (response_msgs s1)); tauto.
  - apply lookup_insert_eq.
  - intros k Hk. apply lookup_insert_ne. congruence.
Qed.

Lemma failure_shows_error_message_witness :
  exists s' c,
    respond Inputs.never_fails false Inputs.trigger
            (GenStream Inputs.slow_deltas true) (initial false ∅ ∅ Inputs.fresh_platform)
    = (s', Return tt)
    /\ calls (platform s')
       = calls (platform (process_chunks Inputs.never_fails false Inputs.trigger
                            Inputs.slow_deltas Inputs.rich_start)) ++ [c]
    /\ call_ok c = true /\ call_stamp c = None /\ shows_error (call_kwargs c)
    /\ match last (response_msgs
                     (process_chunks Inputs.never_fails false Inputs.trigger
                        Inputs.slow_deltas Inputs.rich_start)) with
       | Some m => call_kind c = IsEdit /\ call_target c = sent_id m
       | None => call_kind c = IsReply /\ call_target c = msg_id Inputs.trigger
       end
    /\ shown (platform s')
       !! error_target (process_chunks Inputs.never_fails false Inputs.trigger
                          Inputs.slow_deltas Inputs.rich_start)
       = Some (call_kwargs c)
    /\ (forall k,
           k <> error_target (process_chunks Inputs.never_fails false Inputs.trigger
                                Inputs.slow_deltas Inputs.rich_start) ->
           shown (platform s') !! k
           = shown (platform (process_chunks Inputs.never_fails false Inputs.trigger
                                Inputs.slow_deltas Inputs.rich_start)) !! k)
    /\ response_contents s'
       = response_contents (process_chunks Inputs.never_fails false Inputs.trigger
                              Inputs.slow_deltas Inputs.rich_start).
Proof.
  apply (failure_shows_error_message Inputs.never_fails false Inputs.trigger
           (GenStream Inputs.slow_deltas true) ∅ ∅ Inputs.fresh_platform
           (process_chunks Inputs.never_fails false Inputs.trigger
              Inputs.slow_deltas Inputs.rich_start) GenerationError).
  - reflexivity.
  - reflexivity.
Defined.

(** C8, refuted as stated: the second platform call, the edit issued while
    the second chunk is handled, fails.  The handler does not stop and
    shows no error message: the third chunk is handled and edits the
    message, the final update completes it, and the message ends up
    showing the whole text in the colour of a complete response. *)
Lemma edit_error_does_not_abort :
  let s := fst (respond Inputs.second_call_fails false Inputs.trigger
                  (GenStream Inputs.slow_deltas false) Inputs.rich_start) in
  map (fun c => (call_kind c, call_ok c, call_stamp c)) (calls (platform s))
  = [(IsReply, true, Some 100%Q); (IsEdit, false, Some 105%Q);
     (IsEdit, true, Some 110%Q); (IsEdit, true, None)]
  /\ shown (platform s) !! 1000
     = Some (EmbedKw {| embed_fields := [];
                        description := Some (lit "one two three");
                        color := Some DarkGreen |} false)
  /\ ~ (exists kw, shown (platform s) !! 1000 = Some kw /\ shows_error kw).
Proof.
  split; [vm_compute; reflexivity|].
  assert (H : shown (platform
                (fst (respond Inputs.second_call_fails false Inputs.trigger
                        (GenStream Inputs.slow_deltas false) Inputs.rich_start)))
              !! 1000
              = Some (EmbedKw {| embed_fields := [];
                                 description := Some (lit "one two three");
                                 color := Some DarkGreen |} false))
    by (vm_compute; reflexivity).
  split; [exact H|].
  intros (kw & Hkw & Herr). simpl in Hkw. rewrite H in Hkw.
  injection Hkw as <-. destruct Herr as [_ Hred]. discriminate Hred.
Qed.

End Failure.

Section Splitting.
Import Driver.

(** The run of the handler on the delta sequence of the specification:
    the whole text has 3822 characters and fits the first message. *)
Lemma spec_deltas_run :
  let s := fst (respond Inputs.never_fails false Inputs.trigger
                  (GenStream Inputs.spec_deltas false) Inputs.rich_start) in
  max_message_length false = 4094%nat
  /\ length Inputs.spec_text = 3822%nat
  /\ response_msgs s = [{| sent_id := 1000; sent_content := [] |}]
  /\ response_contents s = [Inputs.spec_text]
  /\ shown (platform s) !! 1000
     = Some (EmbedKw {| embed_fields := []; description := Some Inputs.spec_text;
                        color := Some DarkGreen |} false).
Proof. repeat split; vm_compute; reflexivity. Qed.

(** C6, as the code behaves.  When a delta arrives and the committed
    content of the active message together with the buffer exceeds the
    capacity (4094 characters in the rich mode, 2000 in the plain mode), the
    buffer is committed as the content of a new message.  In the rich mode
    the active message is edited to its committed content alone, in the
    colour of a complete message, and a new message is sent as a reply to
    it, seeded with the buffer and the marker, and the edit timer
    restarts; in the plain mode nothing is sent before the stream ends.
    The delta sequence of the specification fits one message: it is
    answered with exactly one message that holds the whole text. *)
Theorem overflow_splits_message api_fails plain new_msg s txt t committed m :
  last (response_contents s) = Some committed ->
  (max_message_length plain < length (committed ++ chunk_buffer s ++ txt))%nat ->
  (plain = false ->
   last (response_msgs s) = Some m
   /\ api_fails (length (calls (platform s))) = false
   /\ api_fails (S (length (calls (platform s)))) = false) ->
  let s' := process_chunk api_fails plain new_msg (TextChunk txt t) s in
  response_contents s' = response_contents s ++ [chunk_buffer s ++ txt]
  /\ chunk_buffer s' = []
  /\ (if plain
      then calls (platform s') = calls (platform s)
           /\ response_msgs s' = response_msgs s
      else calls (platform s')
           = calls (platform s)
             ++ [{| call_kind := IsEdit; call_target := sent_id m;
                    call_kwargs := EmbedKw (paint committed DarkGreen (embed s)) false;
                    call_ok := true; call_stamp := Some t |};
                 {| call_kind := IsReply; call_target := sent_id m;
                    call_kwargs :=
                      EmbedKw (paint ((chunk_buffer s ++ txt) ++ marker) Orange Embed_new)
                              true;
                    call_ok := true; call_stamp := Some t |}]
           /\ response_msgs s'
              = response_msgs s
                ++ [{| sent_id := next_id (platform s); sent_content := [] |}]
           /\ reply_of (platform s') !! next_id (platform s) = Some (sent_id m)
           /\ last_edit_time s' = t)
  /\ (let r := fst (respond Inputs.never_fails false Inputs.trigger
                      (GenStream Inputs.spec_deltas false) Inputs.rich_start) in
      length (response_msgs r) = 1%nat
      /\ response_contents r = [Inputs.spec_text]).
Proof.
  intros Hlast Hlen Hrich s'.
  assert (Hs' : s' = fst (split_message api_fails plain new_msg committed t
                            (set_curr_content (curr_content s ++ txt)
                               (set_chunk_buffer (chunk_buffer s ++ txt) s)))).
  { subst s'. unfold process_chunk, on_text, bind, modify, get. simpl.
    rewrite Hlast. apply Nat.ltb_lt in Hlen. unfold cap. rewrite Hlen. reflexivity. }
  destruct spec_deltas_run as (_ & _ & Hmsgs & Hconts & _).
  assert (Hspec : let r := fst (respond Inputs.never_fails false Inputs.trigger
                                  (GenStream Inputs.spec_deltas false)
                                  Inputs.rich_start) in
                  length (response_msgs r) = 1%nat
                  /\ response_contents r = [Inputs.spec_text]).
  { intros r. subst r. split; [now rewrite Hmsgs | exact Hconts]. }
  clear Hmsgs Hconts.
  destruct plain.
  - rewrite Hs'. split; [reflexivity|]. split; [reflexivity|].
    split; [split; reflexivity | exact Hspec].
  - destruct (Hrich eq_refl) as (Hm & Hok1 & Hok2).
    assert (Hrun :
      fst (split_message api_fails false new_msg committed t
             (set_curr_content (curr_content s ++ txt)
                (set_chunk_buffer (chunk_buffer s ++ txt) s)))
      = {| response_msgs :=
             response_msgs s
             ++ [{| sent_id := next_id (platform s); sent_content := [] |}];
           response_contents := response_contents s ++ [chunk_buffer s ++ txt];
           curr_content := curr_content s ++ txt;
           chunk_buffer := [];
           last_edit_time := t;
           embed := paint ((chunk_buffer s ++ txt) ++ marker) Orange Embed_new;
           msg_nodes :=
             <[ next_id (platform s) := fresh_node new_msg ]> (msg_nodes s);
           platform :=
             {| next_id := next_id (platform s) + 1;
                shown :=
                  <[ next_id (platform s) :=
                       EmbedKw (paint ((chunk_buffer s ++ txt) ++ marker)
                                      Orange Embed_new) true ]>
                    (<[ sent_id m :=
                          EmbedKw (paint committed DarkGreen (embed s)) false ]>
                       (shown (platform s)));
                reply_of := <[ next_id (platform s) := sent_id m ]>
                              (reply_of (platform s));
                calls :=
                  (calls (platform s)
                   ++ [{| call_kind := IsEdit; call_target := sent_id m;
                          call_kwargs :=
                            EmbedKw (paint committed DarkGreen (embed s)) false;
                          call_ok := true; call_stamp := Some t |}])
                  ++ [{| call_kind := IsReply; call_target := sent_id m;
                         call_kwargs :=
                           EmbedKw (paint ((chunk_buffer s ++ txt) ++ marker)
                                          Orange Embed_new) true;
                         call_ok := true; call_stamp := Some t |}] |} |}).
    { unfold split_message, finalize_active, last_msg, commit_buffer, open_message,
        reply_helper, reply, edit, when, bind, modify, get, ret, last_content,
        fresh_node, set_last_edit_time, set_msg_nodes, set_response_msgs,
        set_platform, set_embed, set_chunk_buffer, set_response_contents,
        set_curr_content; cbn.
      rewrite Hm. cbn. rewrite Hok1. cbn.
      rewrite length_app, Nat.add_1_r, Hok2. cbn.
      rewrite last_snoc. cbn. rewrite Hm. reflexivity. }
    rewrite Hs', Hrun. cbn [response_contents chunk_buffer platform calls
                              response_msgs reply_of last_edit_time].
    split; [reflexivity|]. split; [reflexivity|].
    split; [|exact Hspec].
    split; [now rewrite <- app_assoc|].
    split; [reflexivity|].
    split; [apply lookup_insert_eq | reflexivity].
Qed.

Lemma overflow_splits_message_witness :
  let s' := process_chunk Inputs.never_fails false Inputs.trigger
              (TextChunk (List.repeat 120%N 4094) (205 # 2)) Inputs.before_overflow in
  response_contents s'
  = response_contents Inputs.before_overflow
    ++ [chunk_buffer Inputs.before_overflow ++ List.repeat 120%N 4094]
  /\ chunk_buffer s' = []
  /\ (if false
      then calls (platform s') = calls (platform Inputs.before_overflow)
           /\ response_msgs s' = response_msgs Inputs.before_overflow
      else calls (platform s')
           = calls (platform Inputs.before_overflow)
             ++ [{| call_kind := IsEdit;
                    call_target := sent_id {| sent_id := 1000; sent_content := [] |};
                    call_kwargs :=
                      EmbedKw (paint (lit "a") DarkGreen (embed Inputs.before_overflow))
                              false;
                    call_ok := true; call_stamp := Some (205 # 2) |};
                 {| call_kind := IsReply;
                    call_target := sent_id {| sent_id := 1000; sent_content := [] |};
                    call_kwargs :=
                      EmbedKw (paint ((chunk_buffer Inputs.before_overflow
                                       ++ List.repeat 120%N 4094) ++ marker)
                                     Orange Embed_new) true;
                    call_ok := true; call_stamp := Some (205 # 2) |}]
           /\ response_msgs s'
              = response_msgs Inputs.before_overflow
                ++ [{| sent_id := next_id (platform Inputs.before_overflow);
                       sent_content := [] |}]
           /\ reply_of (platform s') !! next_id (platform Inputs.before_overflow)
              = Some (sent_id {| sent_id := 1000; sent_content := [] |})
           /\ last_edit_time s' = 205 # 2)
  /\ (let r := fst (respond Inputs.never_fails false Inputs.trigger
                      (GenStream Inputs.spec_deltas false) Inputs.rich_start) in
      length (response_msgs r) = 1%nat
      /\ response_contents r = [Inputs.spec_text]).
Proof.
  apply (overflow_splits_message Inputs.never_fails false Inputs.trigger
           Inputs.before_overflow (List.repeat 120%N 4094) (205 # 2) (lit "a")
           {| sent_id := 1000; sent_content := [] |}).
  - vm_compute. reflexivity.
  - apply Nat.ltb_lt. vm_compute. reflexivity.
  - intros _. repeat split; reflexivity.
Defined.

(** C6, refuted as stated: the delta sequence of the specification has
    3822 characters in all, which is below the capacity; the handler
    answers it with one message that holds the whole text, not with two
    messages of which the second holds the last delta.  And with a third
    delta of 4080 characters, which does make the last delta overflow,
    the second message holds all that came after the first delta, not the
    last delta alone. *)
Lemma spec_deltas_single_message :
  let s := fst (respond Inputs.never_fails false Inputs.trigger
                  (GenStream Inputs.spec_deltas false) Inputs.rich_start) in
  let s2 := fst (respond Inputs.never_fails false Inputs.trigger
                   (GenStream Inputs.long_deltas false) Inputs.rich_start) in
  (length Inputs.spec_text <= 4093)%nat
  /\ length (response_msgs s) = 1%nat
  /\ response_contents s = [Inputs.spec_text]
  /\ ~ (length (response_msgs s) = 2%nat
        /\ last (response_contents s) = Some (lit "overflow!"))
  /\ response_contents s2
     = [lit "Hello ";
        lit "world, " ++ List.repeat 120%N 4080 ++ lit "overflow!"].
Proof.
  destruct spec_deltas_run as (_ & Hlen & Hmsgs & Hconts & _).
  cbv zeta. rewrite Hmsgs, Hconts, Hlen.
  split; [lia|]. split; [reflexivity|]. split; [reflexivity|].
  split; [intros [H _]; discriminate H|].
  vm_compute. reflexivity.
Qed.

End Splitting.

Section EditTimer.
Import Driver.

(** C7, as the code behaves: while the stream is consumed, with clock
    readings of 2 seconds or more that do not go back, every in-progress
    edit (the periodic update of the active message) is issued 2 seconds
    or more after every earlier send or in-progress edit that succeeded.
    The edit that completes the active message when a new one is started
    is not held to the interval, nor are the edits of the final update.
    The readings are seconds since the epoch, so every clock gives more
    than 2; from there on the difference of two readings that the code
    computes in floating point is at least 2 exactly when their exact
    difference is: the timer holds 0 or an earlier reading, and two
    readings of 2 or more that are less than 2 apart are within a factor
    2 of each other, where the floating-point difference is exact. *)
Theorem in_progress_edits_spaced api_fails plain new_msg chunks ws nodes pf :
  calls pf = [] ->
  clock_monotone EDIT_DELAY_SECONDS chunks = true ->
  spaced (calls (platform (process_chunks api_fails plain new_msg chunks
                             (initial plain ws nodes pf)))).
Proof.
  intros Hcalls Hmono.
  destruct (process_chunks_timer api_fails plain new_msg chunks
              EDIT_DELAY_SECONDS (initial plain ws nodes pf)) as [t1 (Hsp & _)].
  - repeat split; simpl.
    + rewrite Hcalls. intros i j ci cj ti tj _ Hi. rewrite lookup_nil in Hi.
      discriminate.
    + rewrite Hcalls. intros c tc [].
    + unfold EDIT_DELAY_SECONDS. lra.
  - exact Hmono.
  - exact Hsp.
Qed.

Lemma in_progress_edits_spaced_witness :
  spaced (calls (platform (process_chunks Inputs.never_fails false Inputs.trigger
                             Inputs.slow_deltas
                             (initial false ∅ ∅ Inputs.fresh_platform)))).
Proof.
  apply (in_progress_edits_spaced Inputs.never_fails false Inputs.trigger
           Inputs.slow_deltas ∅ ∅ Inputs.fresh_platform).
  - reflexivity.
  - reflexivity.
Defined.

(** C7, refuted as stated: the message is edited at 102 s (periodic
    update) and again at 102.5 s, when the delta that overflows it
    arrives and the message is completed; both edits are issued while the
    stream is being consumed, half a second apart. *)
Lemma edits_half_a_second_apart :
  let cs := calls (platform (process_chunks Inputs.never_fails false Inputs.trigger
                               Inputs.overflowing_deltas Inputs.rich_start)) in
  exists c1 c2,
    cs !! 1%nat = Some c1 /\ cs !! 2%nat = Some c2
    /\ is_edit c1 = true /\ is_edit c2 = true
    /\ call_ok c1 = true /\ call_ok c2 = true
    /\ call_stamp c1 = Some 102%Q /\ call_stamp c2 = Some (205 # 2)%Q
    /\ ~ (EDIT_DELAY_SECONDS <= (205 # 2) - 102)%Q.
Proof.
  cbv zeta.
  eexists. eexists.
  split; [vm_compute; reflexivity|].
  split; [vm_compute; reflexivity|].
  repeat (split; [reflexivity|]).
  unfold EDIT_DELAY_SECONDS. intros H. vm_compute in H. apply H. reflexivity.
Qed.

End EditTimer.

Section Cleanup.
Import Driver.

Lemma evict_each_lookup ids : forall nodes nodes' k,
  evict_each ids nodes = Some nodes' -> ~ In k ids ->
  nodes' !! k = nodes !! k.
Proof.
  induction ids as [|i ids IH]; intros nodes nodes' k H Hk; simpl in H.
  - now injection H as <-.
  - destruct (locked _); [discriminate|].
    rewrite (IH _ _ k H) by (intros Hin; apply Hk; now right).
    apply lookup_delete_ne. intros ->. apply Hk. now left.
Qed.

Lemma filter_all_length {A} (f : A -> bool) (l : list A) :
  (forall x, In x l -> f x = true) -> length (List.filter f l) = length l.
Proof.
  induction l as [|a l IH]; intros Hall; simpl; [reflexivity|].
  rewrite (Hall a) by now left. simpl. f_equal. apply IH.
  intros x Hx. apply Hall. now right.
Qed.

Lemma filter_some_length {A} (f : A -> bool) (l : list A) x :
  In x l -> f x = true -> (1 <= length (List.filter f l))%nat.
Proof.
  intros Hx Hf.
  assert (Hin : In x (List.filter f l)) by (apply List.filter_In; auto).
  destruct (List.filter f l); [destruct Hin | simpl; lia].
Qed.

(** The clean-up removes the oldest keys only: a key with at most
    [MAX_MESSAGE_NODES] keys not older than itself keeps its node. *)
Lemma evict_keeps_newest nodes nodes' k :
  evict nodes = Some nodes' ->
  (newer_keys k nodes <= MAX_MESSAGE_NODES)%nat ->
  nodes' !! k = nodes !! k.
Proof.
  unfold evict, newer_keys. intros H Hnew.
  destruct (Nat.ltb_spec MAX_MESSAGE_NODES (size nodes)) as [Hbig|_];
    [|now injection H as <-].
  apply (evict_each_lookup _ _ _ _ H). intros Hin.
  set (l := sorted_keys nodes) in *.
  set (n := (size nodes - MAX_MESSAGE_NODES)%nat) in *.
  assert (Hlen : length l = size nodes).
  { subst l. unfold sorted_keys.
    rewrite (Permutation_length (merge_sort_Permutation Z.le _)).
    rewrite <- size_dom. reflexivity. }
  assert (Hsorted : StronglySorted Z.le (firstn n l ++ skipn n l)).
  { rewrite firstn_skipn. subst l. apply StronglySorted_merge_sort; apply _. }
  rewrite <- (firstn_skipn n l), List.filter_app, length_app in Hnew.
  assert (H1 : (1 <= length (List.filter (fun x : Z => (k <=? x)%Z) (firstn n l)))%nat).
  { apply (filter_some_length _ _ k); [exact Hin | apply Z.leb_refl]. }
  assert (H2 : length (List.filter (fun x : Z => (k <=? x)%Z) (skipn n l))
               = length (skipn n l)).
  { apply filter_all_length. intros x Hx. apply Z.leb_le.
    apply (StronglySorted_app_1_elem_of Z.le (firstn n l) (skipn n l));
      [exact Hsorted | now apply list_elem_of_In | now apply list_elem_of_In]. }
  rewrite H2, length_skipn, Hlen in Hnew. subst n. unfold slice_to in *. lia.
Qed.

(** C10 carried through the clean-up that ends the handler: a response
    message that is among the [MAX_MESSAGE_NODES] newest keys keeps its
    stored node. *)
Lemma response_nodes_survive_cleanup api_fails plain new_msg gen ws nodes pf s'
    nodes' m :
  respond api_fails plain new_msg gen (initial plain ws nodes pf) = (s', Return tt) ->
  evict (msg_nodes s') = Some nodes' ->
  In m (response_msgs s') ->
  (newer_keys (sent_id m) (msg_nodes s') <= MAX_MESSAGE_NODES)%nat ->
  nodes' !! sent_id m
  = Some (stored_node new_msg (join [] (response_contents s'))).
Proof.
  intros Hr He Hm Hnew.
  rewrite (evict_keeps_newest _ _ _ He Hnew).
  destruct (respond_cases api_fails plain new_msg gen _ _ _
              (registered_initial plain new_msg ws nodes pf) Hr)
    as [(s2 & Hst & (_ & Hnd & Hnodes)) | (s1 & e1 & e & _ & _ & Habs)];
    [|discriminate].
  destruct (store_final_registered new_msg (response_msgs s2) s2 Hnd Hnodes)
    as (s'' & Hs'' & Hm'' & Hc'' & _ & Hin & _).
  rewrite Hst in Hs''. injection Hs'' as <-.
  rewrite Hc''. rewrite Hm'' in Hm. apply (Hin m Hm).
Qed.

End Cleanup.

(** * Further properties: the clean-up of the cache *)

Section CleanupBounds.
Import Driver.

Lemma sorted_keys_elem (nodes : gmap Z MsgNode) k :
  In k (sorted_keys nodes) <-> is_Some (nodes !! k).
Proof.
  unfold sorted_keys. rewrite <- list_elem_of_In.
  rewrite (merge_sort_Permutation Z.le (elements (dom nodes))).
  rewrite elem_of_elements. apply elem_of_dom.
Qed.

Lemma sorted_keys_NoDup (nodes : gmap Z MsgNode) : NoDup (sorted_keys nodes).
Proof.
  unfold sorted_keys.
  rewrite (merge_sort_Permutation Z.le (elements (dom nodes))).
  apply NoDup_elements.
Qed.

Lemma sorted_keys_length (nodes : gmap Z MsgNode) :
  length (sorted_keys nodes) = size nodes.
Proof.
  unfold sorted_keys.
  rewrite (Permutation_length (merge_sort_Permutation Z.le _)).
  rewrite <- size_dom. reflexivity.
Qed.

(** What the loop leaves was there before. *)
Lemma evict_each_sub ids : forall (nodes nodes' : gmap Z MsgNode) k v,
  evict_each ids nodes = Some nodes' -> nodes' !! k = Some v ->
  nodes !! k = Some v.
Proof.
  induction ids as [|i ids IH]; intros nodes nodes' k v H Hk; simpl in H.
  - injection H as <-. exact Hk.
  - destruct (locked _); [discriminate|].
    specialize (IH _ _ _ _ H Hk).
    apply lookup_delete_Some in IH. tauto.
Qed.

Lemma evict_each_removed ids : forall (nodes nodes' : gmap Z MsgNode) k,
  evict_each ids nodes = Some nodes' -> In k ids -> nodes' !! k = None.
Proof.
  induction ids as [|i ids IH]; intros nodes nodes' k H Hk; simpl in H;
    [destruct Hk|].
  destruct (locked _); [discriminate|].
  destruct (decide (k = i)) as [->|Hne].
  - destruct (nodes' !! i) as [v|] eqn:Hv; [|reflexivity].
    apply (evict_each_sub _ _ _ _ _ H) in Hv.
    rewrite lookup_delete_eq in Hv. discriminate.
  - destruct Hk as [->|Hk]; [congruence|]. now apply (IH _ _ _ H).
Qed.

Lemma evict_each_size ids : forall (nodes nodes' : gmap Z MsgNode),
  NoDup ids -> (forall i, In i ids -> is_Some (nodes !! i)) ->
  evict_each ids nodes = Some nodes' ->
  (size nodes' + length ids = size nodes)%nat.
Proof.
  induction ids as [|i ids IH]; intros nodes nodes' Hnd Hin H; simpl in H.
  - injection H as <-. simpl. lia.
  - destruct (locked _); [discriminate|].
    apply NoDup_cons in Hnd. destruct Hnd as [Hi Hnd].
    assert (Hpos : size nodes <> 0%nat).
    { intros Hs. apply map_size_empty_iff in Hs. subst nodes.
      destruct (Hin i (or_introl eq_refl)) as [v Hv].
      rewrite lookup_empty in Hv. discriminate. }
    assert (Hin' : forall j, In j ids -> is_Some (delete i nodes !! j)).
    { intros j Hj. rewrite lookup_delete_ne; [apply Hin; now right|].
      intros ->. apply Hi, list_elem_of_In, Hj. }
    specialize (IH (delete i nodes) nodes' Hnd Hin' H).
    rewrite map_size_delete_Some in IH by (apply Hin; now left).
    simpl. lia.
Qed.

(** After the clean-up the cache holds at most [MAX_MESSAGE_NODES] nodes:
    a larger cache is cut to exactly that size, a smaller one is left as
    it is. *)
Theorem evict_bounds_cache (nodes nodes' : gmap Z MsgNode) :
  evict nodes = Some nodes' ->
  size nodes' = Nat.min (size nodes) MAX_MESSAGE_NODES.
Proof.
  unfold evict. intros H.
  destruct (Nat.ltb_spec MAX_MESSAGE_NODES (size nodes)) as [Hbig|Hsmall].
  - unfold slice_to in H.
    assert (Hnd : NoDup (take (size nodes - MAX_MESSAGE_NODES) (sorted_keys nodes))).
    { eapply sublist_NoDup; [apply sorted_keys_NoDup | apply sublist_take]. }
    assert (Hin : forall i,
               In i (take (size nodes - MAX_MESSAGE_NODES) (sorted_keys nodes)) ->
               is_Some (nodes !! i)).
    { intros i Hi. apply sorted_keys_elem, list_elem_of_In.
      eapply subseteq_take. apply list_elem_of_In, Hi. }
    pose proof (evict_each_size _ nodes nodes' Hnd Hin H) as Hsize.
    rewrite length_take, sorted_keys_length in Hsize. lia.
  - injection H as <-. lia.
Qed.

Lemma evict_bounds_cache_witness :
  size (delete 0 Inputs.full_cache)
  = Nat.min (size Inputs.full_cache) MAX_MESSAGE_NODES.
Proof.
  apply (evict_bounds_cache Inputs.full_cache (delete 0 Inputs.full_cache)).
  vm_compute. reflexivity.
Defined.

(** The clean-up removes the oldest keys first: every key it removes is
    smaller than every key it keeps. *)
Theorem evict_oldest_first (nodes nodes' : gmap Z MsgNode) k k' :
  evict nodes = Some nodes' ->
  is_Some (nodes !! k) -> nodes' !! k = None ->
  is_Some (nodes' !! k') ->
  k < k'.
Proof.
  unfold evict. intros H Hk Hgone [v' Hkept].
  destruct (Nat.ltb_spec MAX_MESSAGE_NODES (size nodes)) as [Hbig|Hsmall].
  - set (n := (size nodes - MAX_MESSAGE_NODES)%nat) in *.
    set (l := sorted_keys nodes) in *. unfold slice_to in H.
    assert (Hin : In k (firstn n l)).
    { destruct (in_dec Z.eq_dec k (firstn n l)) as [Hin|Hout]; [exact Hin|].
      rewrite (evict_each_lookup _ _ _ _ H Hout) in Hgone.
      destruct Hk as [v Hv]. congruence. }
    assert (Hout' : ~ In k' (firstn n l)).
    { intros Hin'. rewrite (evict_each_removed _ _ _ _ H Hin') in Hkept.
      discriminate. }
    assert (Hin' : In k' (skipn n l)).
    { assert (Hl : In k' l).
      { apply sorted_keys_elem. exists v'.
        apply (evict_each_sub _ _ _ _ _ H Hkept). }
      rewrite <- (firstn_skipn n l) in Hl. apply in_app_or in Hl. tauto. }
    assert (Hsorted : StronglySorted Z.le (firstn n l ++ skipn n l)).
    { rewrite firstn_skipn. subst l. apply StronglySorted_merge_sort; apply _. }
    pose proof (StronglySorted_app_1_elem_of Z.le _ _ k k' Hsorted
                  (proj2 (list_elem_of_In _ _) Hin)
                  (proj2 (list_elem_of_In _ _) Hin')) as Hle.
    assert (k <> k') by (intros ->; contradiction). lia.
  - injection H as <-. destruct Hk as [v Hv]. congruence.
Qed.

Lemma evict_oldest_first_witness :
  evict Inputs.full_cache = Some (delete 0 Inputs.full_cache) /\ 0 < 1.
Proof.
  split; [vm_compute; reflexivity|].
  apply (evict_oldest_first Inputs.full_cache (delete 0 Inputs.full_cache) 0 1).
  - vm_compute. reflexivity.
  - vm_compute. eauto.
  - apply lookup_delete_eq.
  - vm_compute. eauto.
Defined.

End CleanupBounds.

(** * Further properties: the permission gate *)

Section GateMore.
Import Gate.

(** The block-lists are absolute: an author on the user block-list, an
    author holding a blocked role, or a message in a blocked channel (or a
    channel whose parent or category is blocked) is never processed, not
    even when the author is an administrator. *)
Theorem block_lists_are_absolute cfg ev :
  In (author_id ev) (blocked_ids (users (permissions cfg)))
  \/ (exists r, In r (author_roles ev)
                /\ In r (blocked_ids (roles (permissions cfg))))
  \/ (exists c, In c (channel_ids ev)
                /\ In c (blocked_ids (channels (permissions cfg)))) ->
  processed cfg ev = false.
Proof.
  intros H. unfold processed, permitted, is_bad_user, is_bad_channel.
  apply andb_false_iff. right. apply negb_false_iff.
  destruct H as [H | [H | H]].
  - apply py_in_In in H. rewrite H. now rewrite !orb_true_r.
  - apply any_in_In in H. unfold role_ids. rewrite H. now rewrite !orb_true_r.
  - apply any_in_In in H. rewrite H. now rewrite !orb_true_r.
Qed.

Lemma block_lists_are_absolute_witness :
  user_is_admin Inputs.cfg_blocked_admin Inputs.ev_admin_guild = true
  /\ processed Inputs.cfg_blocked_admin Inputs.ev_admin_guild = false.
Proof.
  split; [reflexivity|].
  apply (block_lists_are_absolute Inputs.cfg_blocked_admin Inputs.ev_admin_guild).
  left. simpl. left. reflexivity.
Defined.

(** In a guild, a message passes the channel check as soon as its
    channel, the parent of its channel (a thread) or its category is in
    the channel allow-list. *)
Theorem allowed_parent_admits_thread cfg ev c :
  is_dm ev = false ->
  c <> 0 ->
  c = channel_id ev \/ parent_id ev = Some c \/ category_id ev = Some c ->
  In c (allowed_ids (channels (permissions cfg))) ->
  is_good_channel cfg ev = true.
Proof.
  intros Hdm Hc Hwhere Hin. unfold is_good_channel. rewrite Hdm.
  apply orb_true_iff. right. apply any_in_In. exists c. split; [|exact Hin].
  unfold channel_ids, filter_none. simpl.
  apply Z.eqb_neq in Hc.
  destruct Hwhere as [<- | [-> | ->]].
  - rewrite Hc. now left.
  - rewrite Hc. apply in_or_app. right. now left.
  - rewrite Hc. apply in_or_app. right. apply in_or_app. right. now left.
Qed.

Lemma allowed_parent_admits_thread_witness :
  is_good_channel Inputs.cfg_channel_list Inputs.ev_member_thread = true.
Proof.
  apply (allowed_parent_admits_thread Inputs.cfg_channel_list
           Inputs.ev_member_thread 50).
  - reflexivity.
  - discriminate.
  - right. left. reflexivity.
  - simpl. left. reflexivity.
Defined.

End GateMore.

(** * Further properties: the conversation walk *)

Section WalkMore.
Import Walk.

Lemma filled_node_locked env lim is_dm m node :
  locked (filled_node env lim is_dm m node) = locked node.
Proof. unfold filled_node. now destruct (text node). Qed.

Lemma filled_node_done env lim is_dm m node :
  text node <> None -> filled_node env lim is_dm m node = node.
Proof. unfold filled_node. destruct (text node); [reflexivity | congruence]. Qed.

(** A message is populated once: after a visit, another visit of the same
    message id leaves the cache as it is and follows the same parent,
    whatever the platform would answer then. *)
Theorem cached_message_not_repopulated env env' lim is_dm is_dm' st m st1 next m' :
  loop_body env lim is_dm st m = Next st1 next ->
  msg_id m' = msg_id m ->
  exists st2,
    loop_body env' lim is_dm' st1 m' = Next st2 next
    /\ msg_nodes st2 = msg_nodes st1.
Proof.
  intros H Hid. apply loop_body_next in H.
  destruct H as (Hlock & Hnext & Hnodes & _).
  set (node := filled_node env lim is_dm m (cached_node st m)) in *.
  assert (Hcached : cached_node st1 m' = node).
  { unfold cached_node. rewrite Hnodes, Hid, lookup_insert_eq. reflexivity. }
  assert (Hfilled : filled_node env' lim is_dm' m' node = node).
  { apply filled_node_done. subst node. apply filled_node_text. }
  unfold loop_body. rewrite Hcached.
  assert (Hl : locked node = false).
  { subst node. now rewrite filled_node_locked. }
  rewrite Hl, Hfilled. eexists. split.
  - rewrite Hnext. reflexivity.
  - simpl. rewrite Hid, Hnodes. apply insert_insert_eq.
Qed.

Lemma cached_message_not_repopulated_witness :
  exists st2,
    loop_body Inputs.env_chain Inputs.lim_one_message true
              Inputs.self_reply_seen Inputs.self_reply
    = Next st2 (Some Inputs.self_reply)
    /\ msg_nodes st2 = msg_nodes Inputs.self_reply_seen.
Proof.
  apply (cached_message_not_repopulated Inputs.env_loop Inputs.env_chain
           Inputs.lim_one_message false true (start ∅) Inputs.self_reply
           Inputs.self_reply_seen (Some Inputs.self_reply) Inputs.self_reply).
  - vm_compute. reflexivity.
  - reflexivity.
Defined.

(** A property kept by every iteration holds when the walk is done. *)
Lemma walk_invariant (I : State -> Prop) env lim is_dm :
  (forall st m st' next,
      loop_body env lim is_dm st m = Next st' next -> I st -> I st') ->
  forall fuel st curr st',
    walk env lim is_dm fuel st curr = Some (Done st') -> I st -> I st'.
Proof.
  intros Hstep. induction fuel as [|fuel IH]; intros st curr st' H Hst;
    destruct curr as [m|]; simpl in H; try (injection H as <-; exact Hst);
    destruct (length (messages st) <? max_messages lim)%nat;
    try discriminate; try (injection H as <-; exact Hst).
  destruct (loop_body env lim is_dm st m) as [|st1 next] eqn:Hb; [discriminate|].
  apply (IH _ _ _ H). apply (Hstep _ _ _ _ Hb Hst).
Qed.

Lemma node_parts_text lim node s :
  In (TextPart s) (node_parts lim node) -> s <> [].
Proof.
  unfold node_parts. intros Hin. apply in_app_or in Hin.
  destruct Hin as [Hin|Hin].
  - destruct (truthy _) eqn:Ht; [|destruct Hin].
    destruct Hin as [Heq|[]]. injection Heq as <-.
    destruct (slice_to (max_text lim) (default [] (text node))) as [|c l] eqn:Hs;
      [discriminate|].
    destruct (role node); [|discriminate].
    destruct (node_display_name node) as [name|]; [|discriminate].
    destruct (truthy name); [|discriminate].
    intros Habs. apply app_eq_nil in Habs. destruct Habs as [_ Habs].
    discriminate.
  - apply in_map_iff in Hin. destruct Hin as (i & Hi & _). discriminate.
Qed.

(** No empty turn is ever built: every turn of the conversation has at
    least one part, and a text part is never the empty string. *)
Theorem turns_are_not_empty env lim is_dm fuel nodes curr st' :
  walk env lim is_dm fuel (start nodes) curr = Some (Done st') ->
  Forall (fun t => parts t <> []
                   /\ forall s, In (TextPart s) (parts t) -> s <> [])
         (messages st').
Proof.
  intros H.
  apply (walk_invariant
           (fun st => Forall (fun t => parts t <> []
                                       /\ forall s, In (TextPart s) (parts t) -> s <> [])
                             (messages st))
           env lim is_dm) with (fuel := fuel) (st := start nodes) (curr := curr);
    [|exact H|constructor].
  intros st m st1 next Hb Hst. apply loop_body_next in Hb.
  destruct Hb as (_ & _ & _ & -> & _).
  pose proof (node_parts_text lim
                (filled_node env lim is_dm m (cached_node st m))) as Ht.
  destruct (node_parts lim _) as [|p ps]; [exact Hst|].
  apply Forall_app. split; [exact Hst|].
  constructor; [|constructor]. split; [discriminate | exact Ht].
Qed.

Lemma turns_are_not_empty_witness :
  Forall (fun t => parts t <> []
                   /\ forall s, In (TextPart s) (parts t) -> s <> [])
         (messages
            (match walk Inputs.env_chain Inputs.lim_one_message false 2 (start ∅)
                        (Some Inputs.bare_mention_reply) with
             | Some (Done st) => st
             | _ => start ∅
             end)).
Proof.
  apply (turns_are_not_empty Inputs.env_chain Inputs.lim_one_message false 2 ∅
           (Some Inputs.bare_mention_reply)).
  vm_compute. reflexivity.
Defined.

Lemma loop_body_unlocked env lim is_dm st m st' next :
  (forall k node, msg_nodes st !! k = Some node -> locked node = false) ->
  loop_body env lim is_dm st m = Next st' next ->
  forall k node, msg_nodes st' !! k = Some node -> locked node = false.
Proof.
  intros Hfree Hb k node Hk. apply loop_body_next in Hb.
  destruct Hb as (Hcached & _ & Hnodes & _).
  rewrite Hnodes in Hk. apply lookup_insert_Some in Hk.
  destruct Hk as [[_ <-]|[_ Hk]]; [|exact (Hfree _ _ Hk)].
  now rewrite filled_node_locked.
Qed.

Lemma cached_node_unlocked st m :
  (forall k node, msg_nodes st !! k = Some node -> locked node = false) ->
  locked (cached_node st m) = false.
Proof.
  intros Hfree. unfold cached_node.
  destruct (msg_nodes st !! msg_id m) as [node|] eqn:Hk; simpl;
    [exact (Hfree _ _ Hk) | reflexivity].
Qed.

(** On a cache without a held lock the walk finishes when the lineage
    does: if fewer than [n] messages can be visited from the current
    one, [n] iterations give the finished conversation. *)
Theorem walk_ends_with_lineage env lim is_dm n : forall st curr,
  (forall k node, msg_nodes st !! k = Some node -> locked node = false) ->
  visit env lim is_dm n st curr = None ->
  exists st', walk env lim is_dm n st curr = Some (Done st').
Proof.
  induction n as [|n IH]; intros st curr Hfree Hvisit;
    destruct curr as [m|]; simpl in *; eauto; try discriminate.
  destruct (length (messages st) <? max_messages lim)%nat; [|eauto].
  pose proof (cached_node_unlocked st m Hfree) as Hlock.
  destruct (loop_body env lim is_dm st m) as [|st1 next] eqn:Hb.
  - unfold loop_body in Hb. rewrite Hlock in Hb. discriminate.
  - apply IH; [|exact Hvisit].
    exact (loop_body_unlocked env lim is_dm st m st1 next Hfree Hb).
Qed.

Lemma walk_ends_with_lineage_witness :
  exists st',
    walk Inputs.env_chain Inputs.lim_two_messages false 2 (start ∅)
         (Some Inputs.bare_mention_reply) = Some (Done st').
Proof.
  apply (walk_ends_with_lineage Inputs.env_chain Inputs.lim_two_messages false 2
           (start ∅) (Some Inputs.bare_mention_reply)).
  - intros k node Hk. simpl in Hk. rewrite lookup_empty in Hk. discriminate.
  - vm_compute. reflexivity.
Defined.

(** Starting on a cache within the image cap, a finished walk holds at
    most [max_messages] turns, and no turn holds more than [max_images]
    images. *)
Theorem conversation_within_limits env lim is_dm fuel nodes m st' :
  (forall k node, nodes !! k = Some node ->
                  (length (images node) <= max_images lim)%nat) ->
  walk env lim is_dm fuel (start nodes) (Some m) = Some (Done st') ->
  (length (messages st') <= max_messages lim)%nat
  /\ Forall (fun t => (length (List.filter is_image (parts t)) <= max_images lim)%nat)
            (messages st').
Proof.
  intros Hc H. exact (walk_respects_limits env lim is_dm fuel nodes m st' Hc H).
Qed.

Lemma conversation_within_limits_witness :
  (length (messages
             (match walk Inputs.env_chain Inputs.lim_one_image false 3 (start ∅)
                         (Some Inputs.two_pictures) with
              | Some (Done st) => st
              | _ => start ∅
              end)) <= max_messages Inputs.lim_one_image)%nat
  /\ Forall (fun t => (length (List.filter is_image (parts t))
                       <= max_images Inputs.lim_one_image)%nat)
            (messages
               (match walk Inputs.env_chain Inputs.lim_one_image false 3 (start ∅)
                           (Some Inputs.two_pictures) with
                | Some (Done st) => st
                | _ => start ∅
                end)).
Proof.
  apply (conversation_within_limits Inputs.env_chain Inputs.lim_one_image false 3 ∅
           Inputs.two_pictures).
  - intros k node Hk. rewrite lookup_empty in Hk. discriminate.
  - vm_compute. reflexivity.
Defined.

(** The bot is never listed among the participants of a conversation,
    and neither is the id 0: starting on a cache whose nodes do not carry
    the bot's id, the ids collected by the walk hold neither. *)
Theorem bot_is_never_a_participant env lim is_dm fuel nodes curr st' :
  (forall k node, nodes !! k = Some node ->
                  node_user_id node <> Some (bot_id env)) ->
  walk env lim is_dm fuel (start nodes) curr = Some (Done st') ->
  (bot_id env ∉ conversation_user_ids st') /\ (0 ∉ conversation_user_ids st').
Proof.
  intros Hc H.
  pose proof (walk_invariant
           (fun st => (forall k node, msg_nodes st !! k = Some node ->
                                      node_user_id node <> Some (bot_id env))
                      /\ (bot_id env ∉ conversation_user_ids st)
                      /\ (0 ∉ conversation_user_ids st))
           env lim is_dm) as Hinv.
  apply (Hinv) with (st' := st') in H.
  - tauto.
  - clear. intros st m st1 next Hb (Hcache & Hbot & Hzero).
    unfold loop_body in Hb.
    destruct (locked (cached_node st m)); [discriminate|].
    injection Hb as <- _. simpl.
    set (node := filled_node env lim is_dm m (cached_node st m)).
    assert (Hnode : node_user_id node <> Some (bot_id env)).
    { subst node. unfold filled_node, cached_node.
      destruct (msg_nodes st !! msg_id m) as [n|] eqn:Hn; simpl.
      - destruct (text n); [exact (Hcache _ _ Hn)|].
        simpl. unfold is_bot. destruct (user_id (author m) =? bot_id env) eqn:Hq;
          [discriminate|]. apply Z.eqb_neq in Hq. congruence.
      - unfold is_bot. destruct (user_id (author m) =? bot_id env) eqn:Hq;
          [discriminate|]. apply Z.eqb_neq in Hq. congruence. }
    split; [|split].
    + intros k n Hk. destruct (decide (k = msg_id m)) as [->|Hne].
      * rewrite lookup_insert_eq in Hk. injection Hk as <-. exact Hnode.
      * rewrite lookup_insert_ne in Hk by congruence. exact (Hcache _ _ Hk).
    + destruct (node_user_id node) as [uid|]; [|exact Hbot].
      destruct (uid =? 0); [exact Hbot|].
      intros Hin. apply elem_of_union in Hin. destruct Hin as [Hin|Hin];
        [|exact (Hbot Hin)].
      apply elem_of_singleton in Hin. congruence.
    + destruct (node_user_id node) as [uid|]; [|exact Hzero].
      destruct (uid =? 0) eqn:Hq; [exact Hzero|]. apply Z.eqb_neq in Hq.
      intros Hin. apply elem_of_union in Hin. destruct Hin as [Hin|Hin];
        [|exact (Hzero Hin)].
      apply elem_of_singleton in Hin. congruence.
  - simpl. split; [exact Hc|]. split; apply not_elem_of_empty.
Qed.

Lemma bot_is_never_a_participant_witness :
  (bot_id Inputs.env_chain
   ∉ conversation_user_ids
       (match walk Inputs.env_chain Inputs.lim_two_messages false 2 (start ∅)
                   (Some Inputs.bare_mention_reply) with
        | Some (Done st) => st
        | _ => start ∅
        end))
  /\ (0 ∉ conversation_user_ids
            (match walk Inputs.env_chain Inputs.lim_two_messages false 2 (start ∅)
                        (Some Inputs.bare_mention_reply) with
             | Some (Done st) => st
             | _ => start ∅
             end)).
Proof.
  apply (bot_is_never_a_participant Inputs.env_chain Inputs.lim_two_messages
           false 2 ∅ (Some Inputs.bare_mention_reply)).
  - intros k node Hk. rewrite lookup_empty in Hk. discriminate.
  - vm_compute. reflexivity.
Defined.

(** When a fetch fails no parent is found. *)
Lemma find_parent_failed env is_dm m :
  snd (find_parent env is_dm m) = true -> fst (find_parent env is_dm m) = None.
Proof.
  unfold find_parent.
  repeat match goal with
         | |- context [match ?x with _ => _ end] => destruct x; simpl
         | |- context [if ?x then _ else _] => destruct x; simpl
         end; intros H; try reflexivity; discriminate.
Qed.

(** A failed fetch of the parent ends the lineage at the message: the
    node is cached without parent and flagged, the walk goes no further,
    and the warning that only the last messages are used is raised. *)
Theorem fetch_failure_ends_lineage env lim is_dm st m st' next :
  msg_nodes st !! msg_id m = None ->
  snd (find_parent env is_dm m) = true ->
  loop_body env lim is_dm st m = Next st' next ->
  next = None
  /\ warn_only_last (length (messages st')) ∈ user_warnings st'
  /\ exists node, msg_nodes st' !! msg_id m = Some node
                  /\ fetch_parent_failed node = true
                  /\ parent_msg node = None.
Proof.
  intros Hnew Hfail Hb. apply loop_body_next in Hb.
  destruct Hb as (_ & Hnext & Hnodes & _ & Hw).
  assert (Hnode : filled_node env lim is_dm m (cached_node st m)
                  = populate env lim is_dm m (MsgNode_new None)).
  { unfold cached_node. rewrite Hnew. reflexivity. }
  rewrite Hnode in *.
  assert (Hparent : parent_msg (populate env lim is_dm m (MsgNode_new None)) = None).
  { simpl. now rewrite (find_parent_failed _ _ _ Hfail). }
  assert (Hflag : fetch_parent_failed (populate env lim is_dm m (MsgNode_new None))
                  = true).
  { simpl. exact Hfail. }
  split; [now rewrite Hnext|]. split.
  - rewrite Hw, Hflag. apply add_if_true.
  - eexists. split; [rewrite Hnodes; apply lookup_insert_eq|]. split; assumption.
Qed.

Lemma fetch_failure_ends_lineage_witness :
  (@None Message) = None
  /\ warn_only_last 1
     ∈ user_warnings
         (match loop_body Inputs.env_chain Inputs.lim_two_messages false (start ∅)
                          Inputs.orphan_reply with
          | Next st _ => st
          | Blocked => start ∅
          end)
  /\ exists node,
       msg_nodes
         (match loop_body Inputs.env_chain Inputs.lim_two_messages false (start ∅)
                          Inputs.orphan_reply with
          | Next st _ => st
          | Blocked => start ∅
          end) !! msg_id Inputs.orphan_reply = Some node
       /\ fetch_parent_failed node = true
       /\ parent_msg node = None.
Proof.
  apply (fetch_failure_ends_lineage Inputs.env_chain Inputs.lim_two_messages false
           (start ∅) Inputs.orphan_reply).
  - apply lookup_empty.
  - vm_compute. reflexivity.
  - vm_compute. reflexivity.
Defined.

Lemma filter_drops {A} (f : A -> bool) (l : list A) x :
  In x l -> f x = false -> (length (List.filter f l) < length l)%nat.
Proof.
  induction l as [|a l IH]; intros Hin Hx; [destruct Hin|].
  simpl. destruct Hin as [->|Hin].
  - rewrite Hx. pose proof (filter_length_le f l). lia.
  - specialize (IH Hin Hx). destruct (f a); simpl; lia.
Qed.

(** A trigger message that carries an attachment which is not an image
    (its content type is missing, empty or does not start with image)
    makes the finished walk warn about unsupported attachments. *)
Theorem unsupported_attachment_warned env lim is_dm fuel nodes m att st' :
  nodes !! msg_id m = None ->
  (0 < max_messages lim)%nat ->
  In att (attachments m) ->
  is_good_attachment att = false ->
  walk env lim is_dm fuel (start nodes) (Some m) = Some (Done st') ->
  warn_unsupported ∈ user_warnings st'.
Proof.
  intros Hnew Hpos Hin Hbad H.
  destruct fuel as [|fuel]; simpl in H.
  - apply Nat.ltb_lt in Hpos. rewrite Hpos in H. discriminate.
  - apply Nat.ltb_lt in Hpos. rewrite Hpos in H.
    destruct (loop_body env lim is_dm (start nodes) m) as [|st1 next] eqn:Hb;
      [discriminate|].
    apply (walk_invariant (fun st => warn_unsupported ∈ user_warnings st)
             env lim is_dm) with (fuel := fuel) (st := st1) (curr := next);
      [|exact H|].
    + clear. intros st m st' next Hb Hst. apply loop_body_next in Hb.
      destruct Hb as (_ & _ & _ & _ & ->). now repeat apply add_if_mono.
    + apply loop_body_next in Hb. destruct Hb as (_ & _ & _ & _ & ->).
      apply add_if_mono.
      assert (Hflag : has_bad_attachments
                        (filled_node env lim is_dm m (cached_node (start nodes) m))
                      = true).
      { unfold cached_node. simpl. rewrite Hnew. simpl.
        apply Nat.ltb_lt. unfold good_attachments.
        apply (filter_drops _ _ att Hin Hbad). }
      rewrite Hflag. apply add_if_true.
Qed.

Lemma unsupported_attachment_warned_witness :
  warn_unsupported
  ∈ user_warnings
      (match walk Inputs.env_chain Inputs.lim_two_messages false 1 (start ∅)
                  (Some Inputs.with_document) with
       | Some (Done st) => st
       | _ => start ∅
       end).
Proof.
  apply (unsupported_attachment_warned Inputs.env_chain Inputs.lim_two_messages
           false 1 ∅ Inputs.with_document Inputs.pdf_file).
  - apply lookup_empty.
  - simpl. lia.
  - left. reflexivity.
  - reflexivity.
  - vm_compute. reflexivity.
Defined.

(** The author of the trigger message takes part in the conversation:
    when the message is new to the cache and its author is not the bot,
    the finished walk lists the author's id among the participants. *)
Theorem trigger_author_is_participant env lim is_dm fuel nodes m st' :
  nodes !! msg_id m = None ->
  (0 < max_messages lim)%nat ->
  is_bot env (author m) = false ->
  user_id (author m) <> 0 ->
  walk env lim is_dm fuel (start nodes) (Some m) = Some (Done st') ->
  user_id (author m) ∈ conversation_user_ids st'.
Proof.
  intros Hnew Hpos Hbot Hid H.
  apply Nat.ltb_lt in Hpos.
  destruct fuel as [|fuel]; simpl in H; rewrite Hpos in H; [discriminate|].
  destruct (loop_body env lim is_dm (start nodes) m) as [|st1 next] eqn:Hb;
    [discriminate|].
  apply (walk_invariant
           (fun st => user_id (author m) ∈ conversation_user_ids st)
           env lim is_dm) with (fuel := fuel) (st := st1) (curr := next);
    [|exact H|].
  - clear. intros st m' st' next Hb Hst. unfold loop_body in Hb.
    destruct (locked (cached_node st m')); [discriminate|].
    injection Hb as <- _. simpl.
    destruct (node_user_id _) as [uid|]; [|exact Hst].
    destruct (uid =? 0); [exact Hst|]. apply elem_of_union. now right.
  - unfold loop_body, cached_node in Hb. simpl in Hb. rewrite Hnew in Hb.
    simpl in Hb. injection Hb as <- _. simpl. rewrite Hbot.
    apply Z.eqb_neq in Hid. rewrite Hid.
    apply elem_of_union. left. now apply elem_of_singleton.
Qed.

Lemma trigger_author_is_participant_witness :
  user_id (author Inputs.with_document)
  ∈ conversation_user_ids
      (match walk Inputs.env_chain Inputs.lim_two_messages false 1 (start ∅)
                  (Some Inputs.with_document) with
       | Some (Done st) => st
       | _ => start ∅
       end).
Proof.
  apply (trigger_author_is_participant Inputs.env_chain Inputs.lim_two_messages
           false 1 ∅ Inputs.with_document).
  - apply lookup_empty.
  - simpl. lia.
  - reflexivity.
  - vm_compute. discriminate.
  - vm_compute. reflexivity.
Defined.

End WalkMore.

(** * Further properties: the response driver *)

Section DriverMore.
Import Driver.

Variable api_fails : nat -> bool.
Variable plain : bool.
Variable new_msg : Message.

Ltac keep_through on_edit on_reply :=
  repeat lazymatch goal with
    | |- preserves _ (ret _) => apply preserves_ret
    | |- preserves _ (raise _) => apply preserves_raise
    | |- preserves _ (bind get _) => apply preserves_get_bind; intros ? ?
    | |- preserves _ (bind _ _) => apply preserves_bind; [|intros ?]
    | |- preserves _ (when _ _) => apply preserves_when
    | |- preserves _ (modify _) =>
        apply preserves_modify; intros ? ?; first [assumption | cbn; auto]
    | |- preserves _ (Driver.edit _ _ _ _) => on_edit
    | |- preserves _ (Driver.reply_helper _ _ _ _) => on_reply
    | |- preserves _ (match last ?l with _ => _ end) => destruct (last l)
    | |- preserves _ (if truthy ?x then _ else _) => destruct (truthy x)
    | |- preserves _ (match nth_error ?l ?i with _ => _ end) =>
        destruct (nth_error l i)
    end.

(** What the [except] body and the storing loop keep holds at the end of
    the handler as soon as it holds after the [try] body. *)
Lemma respond_after_try (P : State -> Prop) gen s0 :
  preserves P (except_body api_fails plain new_msg) ->
  (forall msgs, preserves P (store_final msgs)) ->
  P (fst (try_body api_fails plain new_msg gen s0)) ->
  P (fst (respond api_fails plain new_msg gen s0)).
Proof.
  intros He Hs Ht. unfold respond.
  destruct (try_body api_fails plain new_msg gen s0) as [s1 [[]|e1]];
    simpl in Ht.
  - apply Hs, Ht.
  - specialize (He s1 Ht).
    destruct (except_body api_fails plain new_msg s1) as [s2 [[]|e]];
      simpl in He; [apply Hs, He | exact He].
Qed.

(** ** The text of the response *)

Lemma join_cons (a : str) l : join [] (a :: l) = a ++ join [] l.
Proof. destruct l; simpl; [now rewrite app_nil_r | reflexivity]. Qed.

Lemma join_snoc l (x : str) : join [] (l ++ [x]) = join [] l ++ x.
Proof.
  induction l as [|a l IH]; [reflexivity|].
  rewrite <- app_comm_cons, !join_cons, IH. now rewrite app_assoc.
Qed.

Section Frame.
Variable Q : list str -> str -> Prop.

Local Abbreviation framed := (fun s => Q (response_contents s) (chunk_buffer s)).

Lemma frame_final_rich contents : forall i,
  preserves framed (final_rich api_fails new_msg i contents).
Proof.
  induction contents as [|c contents IH]; intros i; simpl;
    keep_through ltac:(apply contents_edit) ltac:(apply contents_reply_helper).
  apply IH.
Qed.

Lemma frame_final_plain contents :
  preserves framed (final_plain api_fails new_msg contents).
Proof.
  induction contents as [|c contents IH]; simpl;
    keep_through ltac:(apply contents_edit) ltac:(apply contents_reply_helper).
  apply IH.
Qed.

Lemma frame_except_body : preserves framed (except_body api_fails plain new_msg).
Proof.
  unfold except_body. destruct plain;
    keep_through ltac:(apply contents_edit) ltac:(apply contents_reply_helper).
Qed.

Lemma frame_store_final msgs : preserves framed (store_final msgs).
Proof.
  induction msgs as [|m msgs IH]; simpl;
    keep_through ltac:(apply contents_edit) ltac:(apply contents_reply_helper).
  destruct (msg_nodes _ !! _) as [node|];
    [destruct (locked node)|];
    keep_through ltac:(apply contents_edit) ltac:(apply contents_reply_helper).
  apply IH.
Qed.

(** Committing the buffer is the one step of a split or of the first
    message that touches the contents. *)
Lemma frame_split_message committed t :
  (forall cs b, Q cs b -> Q (cs ++ [b]) []) ->
  preserves framed (split_message api_fails plain new_msg committed t).
Proof.
  intros HQ. unfold split_message, finalize_active, commit_buffer, open_message,
    last_msg.
  keep_through ltac:(apply contents_edit) ltac:(apply contents_reply_helper).
Qed.

End Frame.

(** The contents committed so far and the buffer make up [whole], and
    nothing is buffered before the first message is committed. *)
Local Abbreviation carries whole :=
  (fun cs b => join [] cs ++ b = whole /\ (cs = [] -> b = [])).

Lemma carries_commit (whole : str) cs b :
  carries whole cs b -> carries whole (cs ++ [b]) [].
Proof.
  intros [H _]. split.
  - now rewrite join_snoc, app_nil_r.
  - intros Habs. now apply app_eq_nil in Habs.
Qed.

Lemma on_text_carries whole txt t s :
  carries whole (response_contents s) (chunk_buffer s) ->
  let s' := fst (on_text api_fails plain new_msg txt t s) in
  carries (whole ++ txt) (response_contents s') (chunk_buffer s').
Proof.
  intros [Hw Hempty]. cbv zeta. rewrite on_text_unfold. cbv zeta.
  set (s1 := set_curr_content _ _).
  destruct (last (response_contents s)) as [committed|] eqn:Hlast.
  - assert (Hs1 : carries (whole ++ txt) (response_contents s1) (chunk_buffer s1)).
    { subst s1. cbn. split.
      - now rewrite app_assoc, Hw.
      - intros Habs. rewrite Habs in Hlast. discriminate. }
    destruct (cap plain <? length (committed ++ chunk_buffer s ++ txt))%nat.
    + apply (frame_split_message (carries (whole ++ txt)) committed t
               (carries_commit (whole ++ txt)) s1 Hs1).
    + destruct (negb plain && _); [|exact Hs1].
      apply (contents_periodic_edit api_fails (carries (whole ++ txt))
               committed t s1 Hs1).
  - apply last_None in Hlast. specialize (Hempty Hlast).
    rewrite Hlast, Hempty in Hw. simpl in Hw. subst whole.
    change (fst (first_message api_fails plain new_msg t s1))
      with (fst (when (negb plain) (open_message api_fails new_msg false t)
                   (set_chunk_buffer []
                      (set_response_contents
                         (response_contents s1 ++ [chunk_buffer s1]) s1)))).
    apply (preserves_when _ _ _
             (contents_open_message api_fails new_msg (carries ([] ++ txt))
                false t)).
    subst s1. cbn. rewrite Hlast, Hempty. cbn. split.
    + now rewrite app_nil_r.
    + discriminate.
Qed.

Lemma process_chunks_carries chunks : forall whole s,
  carries whole (response_contents s) (chunk_buffer s) ->
  let s' := process_chunks api_fails plain new_msg chunks s in
  carries (whole ++ stream_text chunks) (response_contents s') (chunk_buffer s').
Proof.
  induction chunks as [|c chunks IH]; intros whole s Hs; cbv zeta; simpl.
  - now rewrite app_nil_r.
  - destruct c as [txt now| |]; simpl; [|now apply IH|now apply IH].
    rewrite app_assoc. apply IH. now apply on_text_carries.
Qed.

(** The final update first moves the buffer into the last content, which
    exists whenever the buffer is not empty. *)
Lemma final_update_whole whole s :
  carries whole (response_contents s) (chunk_buffer s) ->
  join [] (response_contents (fst (final_update api_fails plain new_msg s)))
  = whole.
Proof.
  intros [Hw Hempty].
  assert (Hflush : exists s1,
             flush_buffer s = (s1, Return tt)
             /\ join [] (response_contents s1) = whole).
  { unfold flush_buffer, bind, get.
    destruct (chunk_buffer s) as [|b0 b] eqn:Hb; simpl.
    - exists s. split; [reflexivity|]. now rewrite app_nil_r in Hw.
    - destruct (last (response_contents s)) as [c|] eqn:Hlast.
      + eexists. split; [reflexivity|]. cbn.
        apply last_Some in Hlast. destruct Hlast as [l' Hl'].
        rewrite Hl', removelast_last, join_snoc.
        rewrite Hl', join_snoc in Hw. now rewrite app_assoc.
      + apply last_None in Hlast. specialize (Hempty Hlast). discriminate. }
  destruct Hflush as (s1 & Hs1 & Hjoin).
  unfold final_update. unfold bind at 1. rewrite Hs1.
  unfold bind, get.
  destruct plain.
  - apply (frame_final_plain (fun cs _ => join [] cs = whole) _ s1 Hjoin).
  - apply (frame_final_rich (fun cs _ => join [] cs = whole) _ 0%nat s1 Hjoin).
Qed.

(** ** The reply chain *)

Local Abbreviation chain_inv :=
  (fun s => (forall m, In m (response_msgs s) -> sent_id m < next_id (platform s))
            /\ replies_chained new_msg s).

Lemma chain_edit stamp m kw : preserves chain_inv (edit api_fails stamp m kw).
Proof.
  intros s Hs. unfold edit. destruct (api_fails _); simpl; exact Hs.
Qed.

Lemma chain_reply_helper stamp kw :
  preserves chain_inv (reply_helper api_fails new_msg stamp kw).
Proof.
  intros s (Hlt & Hch). unfold reply_helper, reply, bind, get, modify.
  destruct (api_fails _); simpl; [split; assumption|].
  split.
  - intros m Hm. apply in_app_or in Hm. destruct Hm as [Hm|[<-|[]]]; simpl.
    + specialize (Hlt m Hm). lia.
    + lia.
  - unfold replies_chained. simpl. intros i m Hm.
    destruct (decide (i < length (response_msgs s))%nat) as [Hi|Hi].
    + rewrite lookup_app_l in Hm by exact Hi.
      assert (Hid : sent_id m < next_id (platform s)).
      { apply Hlt, list_elem_of_In. eapply list_elem_of_lookup_2, Hm. }
      rewrite lookup_insert_ne by lia.
      rewrite (Hch i m Hm). destruct i as [|j]; [reflexivity|].
      rewrite lookup_app_l by lia. reflexivity.
    + rewrite lookup_app_r in Hm by lia.
      destruct (i - length (response_msgs s))%nat as [|d] eqn:Hd;
        [|destruct d; discriminate].
      injection Hm as <-. simpl. rewrite lookup_insert_eq. f_equal.
      assert (Hlen : i = length (response_msgs s)) by lia.
      rewrite last_lookup.
      destruct i as [|j].
      * destruct (response_msgs s); [reflexivity | discriminate].
      * rewrite lookup_app_l by lia. rewrite <- Hlen. simpl.
        destruct (response_msgs s !! j); reflexivity.
Qed.

Lemma chain_on_text txt t :
  preserves chain_inv (on_text api_fails plain new_msg txt t).
Proof.
  unfold on_text.
  keep_through ltac:(apply chain_edit) ltac:(apply chain_reply_helper).
  - destruct (_ <? _)%nat.
    + unfold split_message, finalize_active, commit_buffer, open_message, last_msg.
      keep_through ltac:(apply chain_edit) ltac:(apply chain_reply_helper).
    + unfold periodic_edit, last_msg.
      keep_through ltac:(apply chain_edit) ltac:(apply chain_reply_helper).
  - unfold first_message, commit_buffer, open_message.
    keep_through ltac:(apply chain_edit) ltac:(apply chain_reply_helper).
Qed.

Lemma chain_process_chunks cs : forall s,
  chain_inv s -> chain_inv (process_chunks api_fails plain new_msg cs s).
Proof.
  induction cs as [|c cs IH]; intros s Hs; simpl; [exact Hs|].
  apply IH. destruct c; simpl; [apply chain_on_text, Hs | exact Hs | exact Hs].
Qed.

Lemma chain_final_rich contents : forall i,
  preserves chain_inv (final_rich api_fails new_msg i contents).
Proof.
  induction contents as [|c contents IH]; intros i; simpl;
    keep_through ltac:(apply chain_edit) ltac:(apply chain_reply_helper).
  apply IH.
Qed.

Lemma chain_final_plain contents :
  preserves chain_inv (final_plain api_fails new_msg contents).
Proof.
  induction contents as [|c contents IH]; simpl;
    keep_through ltac:(apply chain_edit) ltac:(apply chain_reply_helper).
  apply IH.
Qed.

Lemma chain_try_body gen :
  preserves chain_inv (try_body api_fails plain new_msg gen).
Proof.
  destruct gen as [|chunks breaks]; simpl; [apply preserves_raise|].
  apply preserves_bind.
  - apply preserves_modify. apply chain_process_chunks.
  - intros _. destruct breaks; [apply preserves_raise|].
    unfold final_update, flush_buffer.
    keep_through ltac:(apply chain_edit) ltac:(apply chain_reply_helper).
    destruct plain; [apply chain_final_plain | apply chain_final_rich].
Qed.

Lemma chain_except_body : preserves chain_inv (except_body api_fails plain new_msg).
Proof.
  unfold except_body. destruct plain;
    keep_through ltac:(apply chain_edit) ltac:(apply chain_reply_helper).
Qed.

Lemma chain_store_final msgs : preserves chain_inv (store_final msgs).
Proof.
  induction msgs as [|m msgs IH]; simpl;
    keep_through ltac:(apply chain_edit) ltac:(apply chain_reply_helper).
  destruct (msg_nodes _ !! _) as [node|];
    [destruct (locked node)|];
    keep_through ltac:(apply chain_edit) ltac:(apply chain_reply_helper).
  apply IH.
Qed.

Lemma chain_respond gen ws nodes pf :
  chain_inv (fst (respond api_fails plain new_msg gen (initial plain ws nodes pf))).
Proof.
  apply (respond_after_try chain_inv).
  - apply chain_except_body.
  - apply chain_store_final.
  - apply chain_try_body. split.
    + intros m [].
    + intros i m Hm. simpl in Hm. rewrite lookup_nil in Hm. discriminate.
Qed.

(** ** The plain mode while the stream runs *)

Lemma on_text_plain_silent txt t s :
  plain = true ->
  let s' := fst (on_text api_fails plain new_msg txt t s) in
  platform s' = platform s /\ response_msgs s' = response_msgs s.
Proof.
  intros ->. cbv zeta. rewrite on_text_unfold. cbv zeta.
  destruct (last (response_contents s));
    [destruct (_ <? _)%nat|]; split; reflexivity.
Qed.

End DriverMore.

Section DriverText.
Import Driver.

(** Nothing of the generated text is lost or doubled where messages are
    split: when the stream ends, the contents of the response messages
    put together are exactly the text of the chunks, whatever platform
    calls fail on the way.  When the stream breaks the contents are that
    text without the part still buffered. *)
Theorem response_text_is_stream_text api_fails plain new_msg chunks breaks
    ws nodes pf :
  let s' := fst (respond api_fails plain new_msg (GenStream chunks breaks)
                         (initial plain ws nodes pf)) in
  exists rest,
    join [] (response_contents s') ++ rest = stream_text chunks
    /\ (breaks = false -> rest = []).
Proof.
  cbv zeta.
  pose proof (process_chunks_carries api_fails plain new_msg chunks []
                (initial plain ws nodes pf)) as Hc.
  cbv zeta in Hc. simpl app in Hc.
  specialize (Hc (conj eq_refl (fun _ => eq_refl))).
  destruct breaks.
  - exists (chunk_buffer
              (process_chunks api_fails plain new_msg chunks
                 (initial plain ws nodes pf))).
    split; [|discriminate].
    apply (respond_after_try api_fails plain new_msg
             (fun s => join [] (response_contents s)
                       ++ chunk_buffer
                            (process_chunks api_fails plain new_msg chunks
                               (initial plain ws nodes pf))
                       = stream_text chunks)).
    + apply (frame_except_body api_fails plain new_msg
               (fun cs _ => join [] cs ++ _ = stream_text chunks)).
    + intros msgs.
      apply (frame_store_final (fun cs _ => join [] cs ++ _ = stream_text chunks)).
    + simpl. exact (proj1 Hc).
  - exists []. split; [|reflexivity]. rewrite app_nil_r.
    apply (respond_after_try api_fails plain new_msg
             (fun s => join [] (response_contents s) = stream_text chunks)).
    + apply (frame_except_body api_fails plain new_msg
               (fun cs _ => join [] cs = stream_text chunks)).
    + intros msgs.
      apply (frame_store_final (fun cs _ => join [] cs = stream_text chunks)).
    + simpl. unfold bind, modify. simpl.
      apply (final_update_whole api_fails plain new_msg _ _ Hc).
Qed.

End DriverText.

Section DriverGuarantees.
Import Driver.

(** The messages of a response form one reply chain: the first message
    sent replies to the trigger message and every later one to the
    message sent before it, whatever the stream does and whichever
    platform calls fail. *)
Theorem responses_form_reply_chain api_fails plain new_msg gen ws nodes pf :
  replies_chained new_msg
    (fst (respond api_fails plain new_msg gen (initial plain ws nodes pf))).
Proof. exact (proj2 (chain_respond api_fails plain new_msg gen ws nodes pf)). Qed.

(** In the plain mode nothing reaches the platform while the stream
    runs: the chunks are collected without a single reply or edit, and
    no message exists before the stream has ended. *)
Theorem plain_mode_silent_while_streaming api_fails new_msg chunks ws nodes pf :
  let s := process_chunks api_fails true new_msg chunks (initial true ws nodes pf) in
  platform s = pf /\ response_msgs s = [].
Proof.
  cbv zeta.
  assert (H : forall s,
             platform (process_chunks api_fails true new_msg chunks s) = platform s
             /\ response_msgs (process_chunks api_fails true new_msg chunks s)
                = response_msgs s).
  { induction chunks as [|c chunks IH]; intros s; simpl; [now split|].
    destruct (IH (process_chunk api_fails true new_msg c s)) as [-> ->].
    destruct c as [txt now| |]; simpl; try (split; reflexivity).
    apply (on_text_plain_silent api_fails true new_msg txt now s eq_refl). }
  apply (H (initial true ws nodes pf)).
Qed.

(** The one exception that can leave the handler is the failure of the
    platform call that shows the error message: when the handler raises,
    it raises the platform's exception, and the last call the platform
    received is the failed one that carried the error message.  Neither
    the final update nor the storing loop lets an exception of its own
    escape. *)
Theorem only_platform_failure_escapes api_fails plain new_msg gen ws nodes pf s' e :
  respond api_fails plain new_msg gen (initial plain ws nodes pf) = (s', Raise e) ->
  e = HTTPException
  /\ exists c, last (calls (platform s')) = Some c
               /\ call_ok c = false
               /\ shows_error (call_kwargs c).
Proof.
  intros H.
  destruct (respond_cases api_fails plain new_msg gen _ _ _
              (registered_initial plain new_msg ws nodes pf) H)
    as [(s2 & Hst & (_ & Hnd & Hnodes)) | (s1 & e1 & e' & _ & Hex & Hr)].
  - destruct (store_final_registered new_msg _ s2 Hnd Hnodes) as (s'' & Hs'' & _).
    rewrite Hs'' in Hst. discriminate.
  - injection Hr as <-. revert Hex. unfold except_body.
    destruct plain;
      unfold bind, get, modify, edit, reply_helper, reply, bind, get, modify;
      simpl; destruct (last (response_msgs s1)) as [m|]; simpl;
      destruct (api_fails (length (calls (platform s1)))); simpl;
      intros Hex; try discriminate; injection Hex as <- <-;
      (split; [reflexivity|]); simpl; rewrite last_snoc;
      eexists; (split; [reflexivity|]); simpl; repeat split; reflexivity.
Qed.

Lemma only_platform_failure_escapes_witness :
  HTTPException = HTTPException
  /\ exists c,
       last (calls (platform
                      (fst (respond always_fails false Inputs.trigger GenFails
                                    (initial false ∅ ∅ Inputs.fresh_platform)))))
       = Some c
       /\ call_ok c = false
       /\ shows_error (call_kwargs c).
Proof.
  apply (only_platform_failure_escapes always_fails false Inputs.trigger GenFails
           ∅ ∅ Inputs.fresh_platform).
  vm_compute. reflexivity.
Defined.

End DriverGuarantees.

(** * Further properties: the preference store and the commands *)

Section StoreFacts.
Import Store.

(** ** Paths *)

Lemma lit_inj a b : lit a = lit b -> a = b.
Proof.
  unfold lit. intros H.
  rewrite <- (string_of_list_ascii_of_string a),
          <- (string_of_list_ascii_of_string b).
  f_equal. revert H. generalize (list_ascii_of_string a) (list_ascii_of_string b).
  induction l as [|x l IH]; intros [|y l'] H; try discriminate; [reflexivity|].
  simpl in H. injection H as Hx Hl. f_equal; [|now apply IH].
  rewrite <- (ascii_N_embedding x), <- (ascii_N_embedding y). now rewrite Hx.
Qed.

Lemma to_int_proper z :
  Z.to_int z <> Decimal.Pos Decimal.Nil /\ Z.to_int z <> Decimal.Neg Decimal.Nil.
Proof.
  destruct z; simpl; split; try discriminate; intros [= H];
    now apply (DecimalPos.Unsigned.to_uint_nonnil p).
Qed.

(** [str] of an integer determines the integer. *)
Lemma str_of_int_inj a b : str_of_int a = str_of_int b -> a = b.
Proof.
  unfold str_of_int. intros H. apply lit_inj in H.
  apply DecimalZ.to_int_inj.
  destruct (to_int_proper a) as [Ha1 Ha2]. destruct (to_int_proper b) as [Hb1 Hb2].
  pose proof (NilZero.isi _ Ha1 Ha2) as Ia. pose proof (NilZero.isi _ Hb1 Hb2) as Ib.
  rewrite H in Ia. rewrite Ia in Ib. now injection Ib.
Qed.

(** The decimal rendering of an integer does not begin with the letter d. *)
Lemma str_of_int_head z rest : str_of_int z <> 100%N :: rest.
Proof.
  unfold str_of_int.
  destruct (Z.to_int z) as [u|u]; [|discriminate].
  destruct u; discriminate.
Qed.

Lemma action_set : bool_decide (lit "set" = lit "view") = false.
Proof. reflexivity. Qed.

Lemma action_reset :
  bool_decide (lit "reset" = lit "view") = false
  /\ bool_decide (lit "reset" = lit "set") = false.
Proof. split; reflexivity. Qed.

Lemma action_remove :
  bool_decide (lit "remove" = lit "view") = false
  /\ bool_decide (lit "remove" = lit "set") = false.
Proof. split; reflexivity. Qed.

Section StoreSteps.
Variable config : Config.

Local Abbreviation load := (load_server_data config).

Lemma load_other sid uid files p :
  p <> get_server_file sid uid -> fst (load sid uid files) !! p = files !! p.
Proof.
  intros Hp. unfold load_server_data. cbv zeta.
  destruct (files !! get_server_file sid uid) as [[d|]|]; simpl; try reflexivity.
  unfold _save_data. now rewrite lookup_insert_ne.
Qed.

(** Loading twice is loading once. *)
Lemma load_stable sid uid files :
  load sid uid (fst (load sid uid files)) = load sid uid files.
Proof.
  unfold load_server_data at 2 3. cbv zeta.
  destruct (files !! get_server_file sid uid) as [[d|]|] eqn:H; simpl.
  - unfold load_server_data. cbv zeta. now rewrite H.
  - unfold load_server_data. cbv zeta. now rewrite H.
  - unfold load_server_data, _save_data. cbv zeta. now rewrite lookup_insert_eq.
Qed.

Lemma load_after_save sid uid d files :
  load sid uid (save_server_data sid d uid files)
  = (save_server_data sid d uid files, d).
Proof.
  unfold load_server_data, save_server_data, _save_data. cbv zeta.
  now rewrite lookup_insert_eq.
Qed.

Lemma save_other sid uid d files p :
  p <> get_server_file sid uid ->
  save_server_data sid d uid files !! p = files !! p.
Proof.
  intros Hp. unfold save_server_data, _save_data. now rewrite lookup_insert_ne.
Qed.

(** A file the load leaves or creates holds the data loaded, unless the
    file cannot be read. *)
Lemma load_file sid uid files d0 :
  fst (load sid uid files) !! get_server_file sid uid = Some (Json d0) ->
  snd (load sid uid files) = d0.
Proof.
  unfold load_server_data. cbv zeta.
  destruct (files !! get_server_file sid uid) as [[d|]|] eqn:H; simpl.
  - rewrite H. congruence.
  - rewrite H. discriminate.
  - unfold _save_data. rewrite lookup_insert_eq. congruence.
Qed.

Lemma guild_path sid uid : get_server_file (Some sid) uid = get_server_file (Some sid) None.
Proof. reflexivity. Qed.

Lemma get_or_create_user_run sid user_id name dm now files :
  takes_users config sid files ->
  let d := snd (load sid dm files) in
  exists u d',
    get_or_create_user config sid user_id name dm now files
    = (save_server_data sid d' dm (fst (load sid dm files)), Ok u)
    /\ record_of sid user_id d' = Some u
    /\ display_name u = Some name
    /\ last_updated u = Some now
    /\ default [] (description u)
       = default [] (record_of sid user_id d ≫= description)
    /\ data_model d' = data_model d
    /\ data_system_prompt d' = data_system_prompt d
    /\ (forall other, other <> user_id -> sid <> None ->
                      record_of sid other d' = record_of sid other d).
Proof.
  intros Htakes. cbv zeta. unfold get_or_create_user, record_of.
  destruct (load sid dm files) as [files1 d] eqn:Hload. simpl.
  destruct sid as [sid|].
  - unfold takes_users in Htakes.
    change (load_server_data config (Some sid) None files)
      with (load (Some sid) dm files) in Htakes.
    rewrite Hload in Htakes. simpl in Htakes.
    destruct (data_users d) as [m|] eqn:Hm; [|congruence].
    eexists. eexists. split; [reflexivity|]. simpl.
    rewrite lookup_insert_eq. split; [reflexivity|].
    destruct (m !! str_of_int user_id) as [r|] eqn:Hr; simpl;
      (split; [reflexivity|]); (split; [reflexivity|]); (split; [reflexivity|]);
      (split; [reflexivity|]); (split; [reflexivity|]);
      intros other Hother _; rewrite lookup_insert_ne; try reflexivity;
      intros Heq; apply Hother; symmetry; now apply str_of_int_inj.
  - eexists. eexists. split; [reflexivity|]. simpl.
    split; [reflexivity|].
    destruct (data_user d) as [r|]; simpl.
    + destruct (rec_truthy r) eqn:Ht; simpl.
      * repeat split; try reflexivity. intros other _ Habs. congruence.
      * assert (description r = None).
        { unfold rec_truthy in Ht.
          destruct (display_name r), (description r), (first_seen r),
            (last_updated r); try discriminate; reflexivity. }
        rewrite H. repeat split; try reflexivity. intros other _ Habs. congruence.
    + repeat split; try reflexivity. intros other _ Habs. congruence.
Qed.

Lemma length_lstrip s : (length (lstrip s) <= length s)%nat.
Proof.
  induction s as [|c s IH]; simpl; [lia|]. destruct (is_space c); simpl; lia.
Qed.

Lemma length_strip s : (length (strip s) <= length s)%nat.
Proof.
  unfold strip, rstrip. rewrite length_rev.
  etransitivity; [apply length_lstrip|]. rewrite length_rev. apply length_lstrip.
Qed.

End StoreSteps.

Section StoreFrames.
Variable config : Config.

Lemma load_other' sid uid f f' d p :
  load_server_data config sid uid f = (f', d) ->
  p <> get_server_file sid uid -> f' !! p = f !! p.
Proof.
  intros H Hp. rewrite <- (load_other config sid uid f p Hp). now rewrite H.
Qed.

Lemma get_or_create_user_other sid user_id name dm now f f' r p :
  get_or_create_user config sid user_id name dm now f = (f', r) ->
  p <> get_server_file sid dm -> f' !! p = f !! p.
Proof.
  unfold get_or_create_user. intros H Hp.
  destruct (load_server_data config sid dm f) as [f1 d] eqn:Hload.
  pose proof (load_other' _ _ _ _ _ _ Hload Hp) as H1.
  destruct sid as [sid|].
  - destruct (data_users d); injection H as <- _;
      [rewrite save_other by exact Hp|]; exact H1.
  - injection H as <- _. rewrite save_other by exact Hp. exact H1.
Qed.

Ltac untouched Hp :=
  repeat first
    [ reflexivity
    | rewrite save_other by exact Hp
    | erewrite load_other' by (first [eassumption | exact Hp])
    | erewrite get_or_create_user_other by (first [eassumption | exact Hp]) ].

Lemma model_command_other interaction model files p :
  p <> get_server_file (guild_id interaction) (dm_id interaction) ->
  fst (model_command config interaction model files) !! p = files !! p.
Proof.
  intros Hp. unfold model_command.
  destruct (load_server_data config _ _ files) as [f1 d] eqn:Hload.
  destruct model as [m|]; simpl; [|untouched Hp].
  destruct (bool_decide _); simpl; [untouched Hp|].
  destruct (negb _); simpl; untouched Hp.
Qed.

Lemma prompt_command_other interaction action text files p :
  p <> get_server_file (guild_id interaction) (dm_id interaction) ->
  fst (prompt_command config interaction action text files) !! p = files !! p.
Proof.
  intros Hp. unfold prompt_command.
  destruct (load_server_data config _ _ files) as [f1 d] eqn:Hload.
  repeat match goal with
         | |- context [if ?b then _ else _] => destruct b; simpl
         end; untouched Hp.
Qed.

Lemma known_command_other interaction action desc member now files p :
  p <> get_server_file (guild_id interaction) (dm_id interaction) ->
  fst (known_command config interaction action desc member now files) !! p
  = files !! p.
Proof.
  intros Hp. unfold known_command.
  destruct (match member with Some _ => _ | None => _ end); [reflexivity|].
  destruct (load_server_data config _ _ files) as [f1 d] eqn:Hload.
  destruct (bool_decide (action = lit "view")).
  { repeat match goal with
           | |- context [match ?x with _ => _ end] => destruct x; simpl
           end; untouched Hp. }
  destruct (bool_decide (action = lit "set")).
  { destruct (missing desc); [simpl; untouched Hp|].
    destruct (_ <? _)%nat; [simpl; untouched Hp|].
    destruct (get_or_create_user config _ _ _ _ _ f1) as [f2 [u|e]] eqn:Hgoc;
      [|simpl; untouched Hp].
    destruct (load_server_data config _ _ f2) as [f3 d3] eqn:Hload3.
    repeat match goal with
           | |- context [match ?x with _ => _ end] => destruct x; simpl
           end; untouched Hp. }
  destruct (bool_decide (action = lit "remove")); [|simpl; untouched Hp].
  repeat match goal with
         | |- context [match ?x with _ => _ end] => destruct x; simpl
         end; untouched Hp.
Qed.

End StoreFrames.

Section KnownSteps.
Variable config : Config.

Lemma takes_users_loaded sid uid files :
  takes_users config sid files ->
  takes_users config sid (fst (load_server_data config sid uid files)).
Proof.
  destruct sid as [g|]; [|exact id]. unfold takes_users.
  change (load_server_data config (Some g) uid files)
    with (load_server_data config (Some g) None files).
  now rewrite load_stable.
Qed.

(** The [view] action on a record that is stored. *)
Lemma known_view_of_record interaction member now files d r :
  manages_other config interaction member = false ->
  load_server_data config (guild_id interaction) (dm_id interaction) files
  = (files, d) ->
  record_of (guild_id interaction)
            (member_id (default (user interaction) member)) d = Some r ->
  known_command config interaction (lit "view") None member now files
  = (files,
     Ok (Some (view_message
                 (default (member_display_name (default (user interaction) member))
                          (display_name r))
                 (default [] (description r))))).
Proof.
  unfold manages_other, known_command, record_of. intros Hperm Hload Hrec.
  rewrite Hperm, Hload.
  rewrite (bool_decide_eq_true_2 (lit "view" = lit "view")) by reflexivity.
  destruct (guild_id interaction) as [g|].
  - destruct (data_users d) as [m|]; [|discriminate]. now rewrite Hrec.
  - now rewrite Hrec.
Qed.

(** The [set] action that passes its checks: the files it leaves hold the
    record of the target with the description, stripped. *)
Lemma known_set_run interaction desc member now files :
  manages_other config interaction member = false ->
  truthy desc = true ->
  (length desc <= max_length config)%nat ->
  takes_users config (guild_id interaction) files ->
  exists files' msg d' r,
    known_command config interaction (lit "set") (Some desc) member now files
    = (files', Ok (Some msg))
    /\ load_server_data config (guild_id interaction) (dm_id interaction) files'
       = (files', d')
    /\ record_of (guild_id interaction)
                 (member_id (default (user interaction) member)) d' = Some r
    /\ display_name r
       = Some (member_display_name (default (user interaction) member))
    /\ description r = Some (strip desc).
Proof.
  unfold manages_other, known_command. intros Hperm Htext Hlen Htakes.
  rewrite Hperm, action_set.
  rewrite (bool_decide_eq_true_2 (lit "set" = lit "set")) by reflexivity.
  pose proof (takes_users_loaded _ (dm_id interaction) _ Htakes) as Htakes1.
  pose proof (load_stable config (guild_id interaction) (dm_id interaction) files)
    as Hst.
  destruct (load_server_data config (guild_id interaction) (dm_id interaction)
              files) as [f1 d] eqn:Hload.
  cbn [fst snd] in Htakes1, Hst.
  unfold missing. rewrite Htext. cbn [negb].
  change (default [] (Some desc)) with desc.
  apply Nat.ltb_ge in Hlen. rewrite Hlen.
  destruct (get_or_create_user_run config (guild_id interaction)
              (member_id (default (user interaction) member))
              (member_display_name (default (user interaction) member))
              (dm_id interaction) now f1 Htakes1)
    as (u & d1 & Hrun & Hrec & Hname & _).
  rewrite Hst in Hrun. cbn [fst] in Hrun. rewrite Hrun.
  rewrite load_after_save.
  unfold record_of in Hrec |- *.
  destruct (guild_id interaction) as [g|].
  - destruct (data_users d1) as [m1|] eqn:Hm1; [|discriminate].
    rewrite Hrec.
    eexists. eexists. eexists. eexists.
    split; [reflexivity|]. split; [apply load_after_save|].
    cbn. rewrite lookup_insert_eq. split; [reflexivity|]. split; [exact Hname|].
    reflexivity.
  - rewrite Hrec.
    eexists. eexists. eexists. eexists.
    split; [reflexivity|]. split; [apply load_after_save|].
    cbn. split; [reflexivity|]. split; [exact Hname | reflexivity].
Qed.

End KnownSteps.

Section KnownView.
Variable config : Config.

(** The [view] action, by the record of the target. *)
Lemma known_view_run interaction member now files d :
  manages_other config interaction member = false ->
  load_server_data config (guild_id interaction) (dm_id interaction) files
  = (files, d) ->
  (guild_id interaction <> None -> data_users d <> None) ->
  let target := default (user interaction) member in
  let shown (o : option Rec) :=
    view_message
      (default (member_display_name target) (display_name (default empty_rec o)))
      (default [] (description (default empty_rec o))) in
  known_command config interaction (lit "view") None member now files
  = (files,
     Ok (Some (match guild_id interaction,
                     record_of (guild_id interaction) (member_id target) d with
               | Some _, None => not_seen_yet target
               | _, o => shown o
               end))).
Proof.
  unfold manages_other, known_command, record_of. intros Hperm Hload Husers.
  cbv zeta. rewrite Hperm, Hload.
  rewrite (bool_decide_eq_true_2 (lit "view" = lit "view")) by reflexivity.
  destruct (guild_id interaction) as [g|].
  - destruct (data_users d) as [m|]; [|now destruct Husers].
    destruct (m !! _); reflexivity.
  - destruct (data_user d); reflexivity.
Qed.

(** The [remove] action leaves no description on the record of the
    target. *)
Lemma known_remove_run interaction member now files :
  manages_other config interaction member = false ->
  takes_users config (guild_id interaction) files ->
  let files' :=
    fst (known_command config interaction (lit "remove") None member now files) in
  exists d',
    load_server_data config (guild_id interaction) (dm_id interaction) files'
    = (files', d')
    /\ (guild_id interaction <> None -> data_users d' <> None)
    /\ default []
         (description
            (default empty_rec
               (record_of (guild_id interaction)
                  (member_id (default (user interaction) member)) d'))) = [].
Proof.
  unfold manages_other, known_command. intros Hperm Htakes. cbv zeta.
  rewrite Hperm, (proj1 action_remove), (proj2 action_remove).
  rewrite (bool_decide_eq_true_2 (lit "remove" = lit "remove")) by reflexivity.
  pose proof (takes_users_loaded config _ (dm_id interaction) _ Htakes) as Htakes1.
  pose proof (load_stable config (guild_id interaction) (dm_id interaction) files)
    as Hst.
  destruct (load_server_data config (guild_id interaction) (dm_id interaction)
              files) as [f1 d] eqn:Hload.
  cbn [fst snd] in Htakes1, Hst.
  unfold record_of.
  destruct (guild_id interaction) as [g|] eqn:Hg.
  - unfold takes_users in Htakes1.
    assert (Hd : data_users d <> None).
    { change (load_server_data config (Some g) None f1)
        with (load_server_data config (Some g) (dm_id interaction) f1)
        in Htakes1.
      now rewrite Hst in Htakes1. }
    destruct (data_users d) as [m|] eqn:Hm; [|now destruct Hd].
    destruct (m !! str_of_int (member_id (default (user interaction) member)))
      as [r|] eqn:Hr; cbn [fst].
    + eexists. split; [apply load_after_save|]. cbn.
      split; [discriminate|]. now rewrite lookup_insert_eq.
    + exists d. split; [exact Hst|]. rewrite Hm. split; [discriminate|].
      now rewrite Hr.
  - destruct (data_user d) as [r|] eqn:Hr.
    + destruct (rec_truthy r) eqn:Ht; cbn [fst].
      * eexists. split; [apply load_after_save|]. cbn. split; [congruence|reflexivity].
      * exists d. split; [exact Hst|]. split; [congruence|]. rewrite Hr. cbn.
        unfold rec_truthy in Ht.
        destruct (display_name r), (description r), (first_seen r),
          (last_updated r); try discriminate; reflexivity.
    + cbn [fst]. exists d. split; [exact Hst|]. split; [congruence|].
      now rewrite Hr.
Qed.

End KnownView.

Section Limits.
Variable config : Config.
Variable n : nat.

Local Abbreviation within d :=
  (forall r, In r (records d) -> (length (default [] (description r)) <= n)%nat).

Lemma records_set_users m v k d r :
  data_users d = Some m ->
  In r (records (set_users (<[ k := v ]> m) d)) -> r = v \/ In r (records d).
Proof.
  unfold records. simpl. intros Hm Hin. rewrite Hm.
  apply in_app_or in Hin. destruct Hin as [Hin|Hin].
  - apply in_map_iff in Hin. destruct Hin as ([k' r'] & Heq & Hin).
    simpl in Heq. subst r'.
    apply list_elem_of_In, elem_of_map_to_list, lookup_insert_Some in Hin.
    destruct Hin as [[_ <-]|[_ Hin]]; [now left|]. right.
    apply in_or_app. left. apply in_map_iff. exists (k', r). split; [reflexivity|].
    now apply list_elem_of_In, elem_of_map_to_list.
  - right. apply in_or_app. now right.
Qed.

Lemma records_set_user v d r :
  In r (records (set_user v d)) -> r = v \/ In r (records d).
Proof.
  unfold records. simpl. intros Hin.
  apply in_app_or in Hin. destruct Hin as [Hin|[<-|[]]]; [|now left].
  right. apply in_or_app. now left.
Qed.

Lemma within_save sid d uid files :
  descriptions_within n files -> within d ->
  descriptions_within n (save_server_data sid d uid files).
Proof.
  intros Hf Hd path d0 r Hpath Hr.
  unfold save_server_data, _save_data in Hpath.
  apply lookup_insert_Some in Hpath.
  destruct Hpath as [[_ [= <-]]|[_ Hpath]]; [now apply Hd | exact (Hf _ _ _ Hpath Hr)].
Qed.

Lemma within_load sid uid files :
  descriptions_within n files ->
  descriptions_within n (fst (load_server_data config sid uid files))
  /\ within (snd (load_server_data config sid uid files)).
Proof.
  intros Hf. unfold load_server_data. cbv zeta.
  destruct (files !! get_server_file sid uid) as [[d|]|] eqn:Hfile; cbn [fst snd].
  - split; [exact Hf|]. intros r Hr. exact (Hf _ _ _ Hfile Hr).
  - split; [exact Hf|]. intros r Hr. exfalso. revert Hr. unfold records. simpl.
    unfold default_users. destruct sid as [g|]; [destruct (g =? 0)|]; simpl;
      rewrite ?map_to_list_empty; simpl; tauto.
  - assert (Hd : within
                   {| data_model := default_model config;
                      data_system_prompt := default_system_prompt config;
                      data_users := default_users sid;
                      data_user := match sid with
                                   | Some _ => None
                                   | None => Some empty_rec
                                   end |}).
    { intros r. unfold records. simpl.
      unfold default_users. destruct sid as [g|]; [destruct (g =? 0)|]; simpl;
        rewrite ?map_to_list_empty; simpl; try tauto.
      intros [<-|[]]. simpl. lia. }
    split; [|exact Hd].
    apply (within_save sid _ uid files Hf Hd).
Qed.

Lemma within_get_or_create_user sid user_id name dm now files :
  descriptions_within n files ->
  descriptions_within n
    (fst (get_or_create_user config sid user_id name dm now files)).
Proof.
  intros Hf. unfold get_or_create_user.
  destruct (within_load sid dm files Hf) as [Hf1 Hd].
  destruct (load_server_data config sid dm files) as [f1 d]. cbn [fst snd] in *.
  destruct sid as [g|].
  - destruct (data_users d) as [m|] eqn:Hm; cbn [fst]; [|exact Hf1].
    apply within_save; [exact Hf1|]. intros r Hr.
    apply (records_set_users m _ _ d r Hm) in Hr. destruct Hr as [->|Hr];
      [|now apply Hd].
    destruct (m !! str_of_int user_id) as [r0|] eqn:Hr0; simpl; [|lia].
    apply Hd. unfold records. rewrite Hm. apply in_or_app. left.
    apply in_map_iff. exists (str_of_int user_id, r0). split; [reflexivity|].
    now apply list_elem_of_In, elem_of_map_to_list.
  - cbn [fst]. apply within_save; [exact Hf1|]. intros r Hr.
    apply records_set_user in Hr. destruct Hr as [->|Hr]; [|now apply Hd].
    destruct (data_user d) as [r0|] eqn:Hr0; simpl; [|lia].
    destruct (rec_truthy r0); simpl; [|lia].
    apply Hd. unfold records. rewrite Hr0. apply in_or_app. right. now left.
Qed.

End Limits.

Section OtherUsers.
Variable config : Config.
Variable g : Z.
Variable other : Z.

Local Abbreviation kept files :=
  (record_of (Some g) other (snd (load_server_data config (Some g) None files))).

Lemma kept_loaded files :
  kept (fst (load_server_data config (Some g) None files)) = kept files.
Proof. now rewrite load_stable. Qed.

Lemma kept_saved d files :
  kept (save_server_data (Some g) d None files) = record_of (Some g) other d.
Proof. now rewrite load_after_save. Qed.

Lemma record_of_insert k v m d :
  data_users d = Some m -> k <> other ->
  record_of (Some g) other (set_users (<[ str_of_int k := v ]> m) d)
  = record_of (Some g) other d.
Proof.
  intros Hm Hk. unfold record_of. simpl. rewrite Hm.
  apply lookup_insert_ne. intros Heq. apply Hk. now apply str_of_int_inj.
Qed.

Lemma kept_get_or_create_user user_id name now files :
  user_id <> other ->
  kept (fst (get_or_create_user config (Some g) user_id name None now files))
  = kept files.
Proof.
  intros Hk. unfold get_or_create_user.
  pose proof (kept_loaded files) as Hl.
  destruct (load_server_data config (Some g) None files) as [f1 d] eqn:Hload.
  cbn [fst snd] in *.
  destruct (data_users d) as [m|] eqn:Hm; cbn [fst]; [|exact Hl].
  rewrite kept_saved. now rewrite record_of_insert.
Qed.

(** In a guild the command changes no record but the one of its target. *)
Lemma known_command_frame usr action desc member now files :
  member_id (default usr member) <> other ->
  kept (fst (known_command config {| guild_id := Some g; user := usr |} action
               desc member now files))
  = kept files.
Proof.
  intros Hk. unfold known_command. cbn [guild_id user dm_id].
  destruct (match member with Some _ => _ | None => _ end); [reflexivity|].
  pose proof (kept_loaded files) as Hl.
  destruct (load_server_data config (Some g) None files) as [f1 d] eqn:Hload.
  cbn [fst snd] in Hl |- *.
  destruct (bool_decide (action = lit "view")).
  { repeat match goal with
           | |- context [match ?x with _ => _ end] => destruct x; cbn [fst]
           end; exact Hl. }
  destruct (bool_decide (action = lit "set")).
  { destruct (missing desc); [exact Hl|].
    destruct (_ <? _)%nat; [exact Hl|].
    pose proof (kept_get_or_create_user (member_id (default usr member))
                  (member_display_name (default usr member)) now f1 Hk) as H2.
    destruct (get_or_create_user config (Some g) _ _ None now f1) as [f2 [u|e]];
      cbn [fst] in H2; [|cbn [fst]; congruence].
    pose proof (kept_loaded f2) as H3.
    destruct (load_server_data config (Some g) None f2) as [f3 d3] eqn:Hload3.
    cbn [fst snd] in H2, H3.
    destruct (data_users d3) as [m|] eqn:Hm; [|cbn [fst]; congruence].
    destruct (m !! _) as [r0|]; [|cbn [fst]; congruence].
    cbn [fst]. rewrite kept_saved, record_of_insert by assumption.
    congruence. }
  destruct (bool_decide (action = lit "remove")); [|exact Hl].
  destruct (data_users d) as [m|] eqn:Hm; [|exact Hl].
  destruct (m !! _) as [r0|]; [|exact Hl].
  cbn [fst]. rewrite kept_saved, record_of_insert by assumption.
  reflexivity.
Qed.

End OtherUsers.

End StoreFacts.

Section StoreGuarantees.
Import Store.

(** Two guilds never share a data file, two direct-message users never
    share one, and a direct-message file is never the file of a guild. *)
Theorem server_files_are_distinct :
  (forall a b u u',
      get_server_file (Some a) u = get_server_file (Some b) u' -> a = b)
  /\ (forall a b,
         get_server_file None (Some a) = get_server_file None (Some b) -> a = b)
  /\ (forall a b u, get_server_file None a <> get_server_file (Some b) u).
Proof.
  unfold get_server_file. split; [|split].
  - intros a b _ _ H. apply app_inv_head, app_inv_tail in H.
    now apply str_of_int_inj.
  - intros a b H. apply app_inv_head, app_inv_tail in H.
    now apply str_of_int_inj.
  - intros a b _ H.
    change (lit "server_data/dm_") with (lit "server_data/" ++ lit "dm_") in H.
    rewrite <- app_assoc in H. apply app_inv_head in H.
    destruct (str_of_int b) as [|c l] eqn:Hb; [discriminate|].
    injection H as Hc _. subst c.
    exact (str_of_int_head b l Hb).
Qed.

(** A command works on the file of its own guild, or of its own user in
    a direct message, and on no other: every other file of the data
    directory is left as it was, whatever the arguments. *)
Theorem commands_touch_one_file config interaction p :
  p <> get_server_file (guild_id interaction) (dm_id interaction) ->
  (forall model files,
      fst (model_command config interaction model files) !! p = files !! p)
  /\ (forall action text files,
         fst (prompt_command config interaction action text files) !! p
         = files !! p)
  /\ (forall action desc member now files,
         fst (known_command config interaction action desc member now files) !! p
         = files !! p).
Proof.
  intros Hp. split; [|split]; intros.
  - now apply model_command_other.
  - now apply prompt_command_other.
  - now apply known_command_other.
Qed.

Lemma commands_touch_one_file_witness :
  (forall model files,
      fst (model_command Inputs.store_config Inputs.ann_in_guild model files)
      !! get_server_file (Some 71) None
      = files !! get_server_file (Some 71) None)
  /\ (forall action text files,
         fst (prompt_command Inputs.store_config Inputs.ann_in_guild action text
                files) !! get_server_file (Some 71) None
         = files !! get_server_file (Some 71) None)
  /\ (forall action desc member now files,
         fst (known_command Inputs.store_config Inputs.ann_in_guild action desc
                member now files) !! get_server_file (Some 71) None
         = files !! get_server_file (Some 71) None).
Proof.
  apply (commands_touch_one_file Inputs.store_config Inputs.ann_in_guild
           (get_server_file (Some 71) None)).
  vm_compute. discriminate.
Defined.

(** Loading is idempotent and never rewrites a file: a second load
    returns the data of the first and leaves the directory as the first
    left it, also when the first created the file with the defaults or
    found it unreadable; and a load changes no file that exists, an
    unreadable one included, which is answered with the defaults and
    left as it is. *)
Theorem load_is_idempotent config server_id user_id files :
  load_server_data config server_id user_id
    (fst (load_server_data config server_id user_id files))
  = load_server_data config server_id user_id files
  /\ (forall path file,
         files !! path = Some file ->
         fst (load_server_data config server_id user_id files) !! path
         = Some file).
Proof.
  split; [apply load_stable|].
  intros path file Hfile. unfold load_server_data. cbv zeta.
  destruct (files !! get_server_file server_id user_id) as [[d|]|] eqn:Hown;
    cbn [fst]; try exact Hfile.
  unfold _save_data. rewrite lookup_insert_ne; [exact Hfile|].
  intros <-. congruence.
Qed.

(** A user seen by the bot is on record afterwards, under the current
    display name and time; a description stored before is kept, and so
    are the model, the system prompt and, in a guild, the records of all
    other users. *)
Theorem get_or_create_user_registers config server_id user_id name dm now files :
  takes_users config server_id files ->
  let d := snd (load_server_data config server_id dm files) in
  exists u files' d',
    get_or_create_user config server_id user_id name dm now files = (files', Ok u)
    /\ load_server_data config server_id dm files' = (files', d')
    /\ record_of server_id user_id d' = Some u
    /\ display_name u = Some name
    /\ last_updated u = Some now
    /\ default [] (description u)
       = default [] (record_of server_id user_id d ≫= description)
    /\ data_model d' = data_model d
    /\ data_system_prompt d' = data_system_prompt d
    /\ (forall other, other <> user_id -> server_id <> None ->
                      record_of server_id other d' = record_of server_id other d).
Proof.
  intros Htakes. cbv zeta.
  destruct (get_or_create_user_run config server_id user_id name dm now files Htakes)
    as (u & d' & Hrun & Hrest).
  exists u. eexists. exists d'. split; [exact Hrun|].
  split; [apply load_after_save | exact Hrest].
Qed.

Lemma get_or_create_user_registers_witness :
  exists u files' d',
    get_or_create_user Inputs.store_config (Some 70) 2 (lit "Ann") None
      Inputs.noon Inputs.no_files = (files', Ok u)
    /\ load_server_data Inputs.store_config (Some 70) None files' = (files', d')
    /\ record_of (Some 70) 2 d' = Some u
    /\ display_name u = Some (lit "Ann")
    /\ last_updated u = Some Inputs.noon
    /\ default [] (description u)
       = default []
           (record_of (Some 70) 2
              (snd (load_server_data Inputs.store_config (Some 70) None
                      Inputs.no_files)) ≫= description)
    /\ data_model d'
       = data_model (snd (load_server_data Inputs.store_config (Some 70) None
                            Inputs.no_files))
    /\ data_system_prompt d'
       = data_system_prompt
           (snd (load_server_data Inputs.store_config (Some 70) None
                   Inputs.no_files))
    /\ (forall other, other <> 2 -> Some 70 <> None ->
                      record_of (Some 70) other d'
                      = record_of (Some 70) other
                          (snd (load_server_data Inputs.store_config (Some 70) None
                                  Inputs.no_files))).
Proof.
  apply (get_or_create_user_registers Inputs.store_config (Some 70) 2 (lit "Ann")
           None Inputs.noon Inputs.no_files).
  vm_compute. discriminate.
Defined.

(** Who is not an administrator changes neither the model nor the system
    prompt: whatever the arguments of the two commands, the data loaded
    afterwards is the data loaded before. *)
Theorem only_admins_change_settings config interaction files :
  user_is_admin config interaction = false ->
  let load := load_server_data config (guild_id interaction) (dm_id interaction) in
  (forall model,
      snd (load (fst (model_command config interaction model files)))
      = snd (load files))
  /\ (forall action text,
         snd (load (fst (prompt_command config interaction action text files)))
         = snd (load files)).
Proof.
  intros Hadmin. cbv zeta. split.
  - intros model. unfold model_command. rewrite Hadmin.
    destruct (load_server_data config _ _ files) as [f1 d] eqn:Hload.
    assert (Hst : load_server_data config (guild_id interaction)
                    (dm_id interaction) f1 = (f1, d)).
    { pose proof (load_stable config (guild_id interaction) (dm_id interaction)
                    files) as H. now rewrite Hload in H. }
    destruct model as [m|]; simpl; [|now rewrite Hst].
    destruct (bool_decide _); simpl; now rewrite Hst.
  - intros action text. unfold prompt_command. rewrite Hadmin.
    destruct (load_server_data config _ _ files) as [f1 d] eqn:Hload.
    assert (Hst : load_server_data config (guild_id interaction)
                    (dm_id interaction) f1 = (f1, d)).
    { pose proof (load_stable config (guild_id interaction) (dm_id interaction)
                    files) as H. now rewrite Hload in H. }
    repeat match goal with
           | |- context [if ?b then _ else _] => destruct b; simpl
           end; now rewrite Hst.
Qed.

Lemma only_admins_change_settings_witness :
  (forall model,
      snd (load_server_data Inputs.store_config (Some 70) None
             (fst (model_command Inputs.store_config Inputs.ann_in_guild model
                     Inputs.no_files)))
      = snd (load_server_data Inputs.store_config (Some 70) None Inputs.no_files))
  /\ (forall action text,
         snd (load_server_data Inputs.store_config (Some 70) None
                (fst (prompt_command Inputs.store_config Inputs.ann_in_guild
                        action text Inputs.no_files)))
         = snd (load_server_data Inputs.store_config (Some 70) None
                  Inputs.no_files)).
Proof.
  apply (only_admins_change_settings Inputs.store_config Inputs.ann_in_guild
           Inputs.no_files).
  reflexivity.
Defined.

(** After an administrator has chosen a model the command shows it: the
    model asked for is the current model, whether it was switched to or
    in use already. *)
Theorem model_switch_then_view config interaction model files :
  user_is_admin config interaction = true ->
  let files' := fst (model_command config interaction (Some model) files) in
  model_command config interaction None files'
  = (files', lit "Current model: " ++ backtick ++ model ++ backtick).
Proof.
  intros Hadmin. cbv zeta.
  destruct (load_server_data config (guild_id interaction) (dm_id interaction)
              files) as [f1 d] eqn:Hload.
  assert (Hst : load_server_data config (guild_id interaction)
                  (dm_id interaction) f1 = (f1, d)).
  { pose proof (load_stable config (guild_id interaction) (dm_id interaction)
                  files) as H. now rewrite Hload in H. }
  assert (Hf : exists d1,
             load_server_data config (guild_id interaction) (dm_id interaction)
               (fst (model_command config interaction (Some model) files))
             = (fst (model_command config interaction (Some model) files), d1)
             /\ data_model d1 = model).
  { unfold model_command. rewrite Hload, Hadmin.
    destruct (bool_decide (model = data_model d)) eqn:Hsame; cbn [fst snd negb].
    - apply bool_decide_eq_true in Hsame. exists d. split; [exact Hst | congruence].
    - eexists. split; [apply load_after_save | reflexivity]. }
  destruct Hf as (d1 & Hl & Hm).
  unfold model_command at 1. rewrite Hl, Hm. reflexivity.
Qed.

Lemma model_switch_then_view_witness :
  model_command Inputs.store_config Inputs.root_in_guild None
    (fst (model_command Inputs.store_config Inputs.root_in_guild
            (Some (lit "gemini-2.5-pro")) Inputs.no_files))
  = (fst (model_command Inputs.store_config Inputs.root_in_guild
            (Some (lit "gemini-2.5-pro")) Inputs.no_files),
     lit "Current model: " ++ backtick ++ lit "gemini-2.5-pro" ++ backtick).
Proof.
  apply (model_switch_then_view Inputs.store_config Inputs.root_in_guild
           (lit "gemini-2.5-pro") Inputs.no_files).
  reflexivity.
Defined.

Lemma prompt_view_shows config interaction files d :
  load_server_data config (guild_id interaction) (dm_id interaction) files
  = (files, d) ->
  prompt_command config interaction (lit "view") None files
  = (files,
     Some (lit "**Current system prompt:**" ++ Prompt.nl ++ fence ++ Prompt.nl
           ++ data_system_prompt d ++ Prompt.nl ++ fence)).
Proof.
  intros H. unfold prompt_command. rewrite H.
  rewrite bool_decide_eq_true_2 by reflexivity. reflexivity.
Qed.

(** The system prompt an administrator sets is the one shown afterwards,
    without the white space around it, and after a reset the default
    prompt of the configuration is shown. *)
Theorem prompt_set_then_view config interaction text files :
  user_is_admin config interaction = true ->
  truthy text = true ->
  let shows files prompt :=
    prompt_command config interaction (lit "view") None files
    = (files,
       Some (lit "**Current system prompt:**" ++ Prompt.nl ++ fence ++ Prompt.nl
             ++ prompt ++ Prompt.nl ++ fence)) in
  shows (fst (prompt_command config interaction (lit "set") (Some text) files))
        (strip text)
  /\ shows (fst (prompt_command config interaction (lit "reset") None files))
           (default_system_prompt config).
Proof.
  intros Hadmin Htext. cbv zeta. split.
  - assert (Hf : fst (prompt_command config interaction (lit "set") (Some text)
                        files)
                 = save_server_data (guild_id interaction)
                     (set_system_prompt (strip text)
                        (snd (load_server_data config (guild_id interaction)
                                (dm_id interaction) files)))
                     (dm_id interaction)
                     (fst (load_server_data config (guild_id interaction)
                             (dm_id interaction) files))).
    { unfold prompt_command. rewrite Hadmin, action_set.
      rewrite (bool_decide_eq_true_2 (lit "set" = lit "set")) by reflexivity.
      destruct (load_server_data config _ _ files) as [f1 d].
      unfold missing. rewrite Htext. reflexivity. }
    rewrite Hf.
    apply (prompt_view_shows config interaction _
             (set_system_prompt (strip text)
                (snd (load_server_data config (guild_id interaction)
                        (dm_id interaction) files)))).
    apply load_after_save.
  - assert (Hf : fst (prompt_command config interaction (lit "reset") None files)
                 = save_server_data (guild_id interaction)
                     (set_system_prompt (default_system_prompt config)
                        (snd (load_server_data config (guild_id interaction)
                                (dm_id interaction) files)))
                     (dm_id interaction)
                     (fst (load_server_data config (guild_id interaction)
                             (dm_id interaction) files))).
    { unfold prompt_command. rewrite Hadmin.
      rewrite (proj1 action_reset), (proj2 action_reset).
      rewrite (bool_decide_eq_true_2 (lit "reset" = lit "reset")) by reflexivity.
      destruct (load_server_data config _ _ files) as [f1 d]. reflexivity. }
    rewrite Hf.
    apply (prompt_view_shows config interaction _
             (set_system_prompt (default_system_prompt config)
                (snd (load_server_data config (guild_id interaction)
                        (dm_id interaction) files)))).
    apply load_after_save.
Qed.

Lemma prompt_set_then_view_witness :
  prompt_command Inputs.store_config Inputs.root_in_guild (lit "view") None
    (fst (prompt_command Inputs.store_config Inputs.root_in_guild (lit "set")
            (Some (lit "  Be brief.  ")) Inputs.no_files))
  = (fst (prompt_command Inputs.store_config Inputs.root_in_guild (lit "set")
            (Some (lit "  Be brief.  ")) Inputs.no_files),
     Some (lit "**Current system prompt:**" ++ Prompt.nl ++ fence ++ Prompt.nl
           ++ strip (lit "  Be brief.  ") ++ Prompt.nl ++ fence))
  /\ prompt_command Inputs.store_config Inputs.root_in_guild (lit "view") None
       (fst (prompt_command Inputs.store_config Inputs.root_in_guild (lit "reset")
               None Inputs.no_files))
     = (fst (prompt_command Inputs.store_config Inputs.root_in_guild (lit "reset")
               None Inputs.no_files),
        Some (lit "**Current system prompt:**" ++ Prompt.nl ++ fence ++ Prompt.nl
              ++ default_system_prompt Inputs.store_config ++ Prompt.nl ++ fence)).
Proof.
  apply (prompt_set_then_view Inputs.store_config Inputs.root_in_guild
           (lit "  Be brief.  ") Inputs.no_files); reflexivity.
Defined.

(** A description that is set is the description shown: after a [set]
    that passes the checks, [view] of the same target shows the
    description without the white space around it, under the target's
    display name; a description of white space only is stored empty and
    shown as none. *)
Theorem known_set_then_view config interaction desc member now now' files :
  manages_other config interaction member = false ->
  truthy desc = true ->
  (length desc <= max_length config)%nat ->
  takes_users config (guild_id interaction) files ->
  exists files' msg,
    known_command config interaction (lit "set") (Some desc) member now files
    = (files', Ok (Some msg))
    /\ known_command config interaction (lit "view") None member now' files'
       = (files',
          Ok (Some (view_message
                      (member_display_name (default (user interaction) member))
                      (strip desc)))).
Proof.
  intros Hperm Htext Hlen Htakes.
  destruct (known_set_run config interaction desc member now files
              Hperm Htext Hlen Htakes)
    as (files' & msg & d' & r & Hset & Hload & Hrec & Hname & Hdesc).
  exists files', msg. split; [exact Hset|].
  rewrite (known_view_of_record config interaction member now' files' d' r
             Hperm Hload Hrec).
  now rewrite Hname, Hdesc.
Qed.

Lemma known_set_then_view_witness :
  exists files' msg,
    known_command Inputs.store_config Inputs.ann_in_guild (lit "set")
      (Some (lit "  likes tea ")) None Inputs.noon Inputs.no_files
    = (files', Ok (Some msg))
    /\ known_command Inputs.store_config Inputs.ann_in_guild (lit "view") None
         None Inputs.noon files'
       = (files',
          Ok (Some (view_message
                      (member_display_name
                         (default (user Inputs.ann_in_guild) None))
                      (strip (lit "  likes tea "))))).
Proof.
  apply (known_set_then_view Inputs.store_config Inputs.ann_in_guild
           (lit "  likes tea ") None Inputs.noon Inputs.noon Inputs.no_files).
  - reflexivity.
  - reflexivity.
  - vm_compute. lia.
  - vm_compute. discriminate.
Defined.

(** After a [remove], [view] of the same target shows no description:
    it reports that none is set, or, in a guild, that the target has not
    been seen yet. *)
Theorem known_remove_then_view config interaction member now now' files :
  manages_other config interaction member = false ->
  takes_users config (guild_id interaction) files ->
  let files' :=
    fst (known_command config interaction (lit "remove") None member now files) in
  exists msg,
    known_command config interaction (lit "view") None member now' files'
    = (files', Ok (Some msg))
    /\ (msg = not_seen_yet (default (user interaction) member)
        \/ exists name, msg = name ++ lit " has no description set.").
Proof.
  intros Hperm Htakes. cbv zeta.
  destruct (known_remove_run config interaction member now files Hperm Htakes)
    as (d' & Hload & Husers & Hdesc).
  eexists. split.
  - apply (known_view_run config interaction member now' _ d' Hperm Hload Husers).
  - destruct (guild_id interaction) as [g|];
      [destruct (record_of (Some g) _ d') as [r|]; [|now left]|];
      right; eexists; unfold view_message; rewrite Hdesc; reflexivity.
Qed.

Lemma known_remove_then_view_witness :
  exists msg,
    known_command Inputs.store_config Inputs.ann_in_dm (lit "view") None None
      Inputs.noon
      (fst (known_command Inputs.store_config Inputs.ann_in_dm (lit "remove")
              None None Inputs.noon Inputs.no_files))
    = (fst (known_command Inputs.store_config Inputs.ann_in_dm (lit "remove")
              None None Inputs.noon Inputs.no_files),
       Ok (Some msg))
    /\ (msg = not_seen_yet (default (user Inputs.ann_in_dm) None)
        \/ exists name, msg = name ++ lit " has no description set.").
Proof.
  apply (known_remove_then_view Inputs.store_config Inputs.ann_in_dm None
           Inputs.noon Inputs.noon Inputs.no_files).
  - reflexivity.
  - exact I.
Defined.

(** No command ever stores a description longer than the configured
    limit: whatever the action and its arguments, the descriptions in
    the data directory stay within the limit when they were before. *)
Theorem descriptions_stay_within_limit config interaction action desc member now
    files :
  descriptions_within (max_length config) files ->
  descriptions_within (max_length config)
    (fst (known_command config interaction action desc member now files)).
Proof.
  intros Hf. unfold known_command.
  destruct (match member with Some _ => _ | None => _ end); [exact Hf|].
  destruct (within_load config (max_length config) (guild_id interaction)
              (dm_id interaction) files Hf) as [Hf1 Hd].
  destruct (load_server_data config (guild_id interaction) (dm_id interaction)
              files) as [f1 d].
  cbn [fst snd] in Hf1, Hd.
  destruct (bool_decide (action = lit "view")).
  { repeat match goal with
           | |- context [match ?x with _ => _ end] => destruct x; cbn [fst]
           end; exact Hf1. }
  destruct (bool_decide (action = lit "set")).
  { destruct (missing desc); [exact Hf1|].
    destruct (max_length config <? length (default [] desc))%nat eqn:Hlen;
      [exact Hf1|].
    apply Nat.ltb_ge in Hlen.
    assert (Hstrip : (length (strip (default [] desc)) <= max_length config)%nat).
    { etransitivity; [apply length_strip | exact Hlen]. }
    pose proof (within_get_or_create_user config (max_length config)
                  (guild_id interaction)
                  (member_id (default (user interaction) member))
                  (member_display_name (default (user interaction) member))
                  (dm_id interaction) now f1 Hf1) as Hf2.
    destruct (get_or_create_user config _ _ _ _ now f1) as [f2 [u|e]];
      cbn [fst] in Hf2; [|exact Hf2].
    destruct (within_load config (max_length config) (guild_id interaction)
                (dm_id interaction) f2 Hf2) as [Hf3 Hd3].
    destruct (load_server_data config (guild_id interaction) (dm_id interaction)
                f2) as [f3 d3].
    cbn [fst snd] in Hf3, Hd3.
    destruct (guild_id interaction) as [g|].
    - destruct (data_users d3) as [m|] eqn:Hm; [|exact Hf3].
      destruct (m !! _) as [r0|]; [|exact Hf3].
      cbn [fst]. apply within_save; [exact Hf3|]. intros r Hr.
      apply (records_set_users m _ _ d3 r Hm) in Hr.
      destruct Hr as [->|Hr]; [exact Hstrip | now apply Hd3].
    - destruct (data_user d3) as [r0|]; [|exact Hf3].
      cbn [fst]. apply within_save; [exact Hf3|]. intros r Hr.
      apply records_set_user in Hr.
      destruct Hr as [->|Hr]; [exact Hstrip | now apply Hd3]. }
  destruct (bool_decide (action = lit "remove")); [|exact Hf1].
  destruct (guild_id interaction) as [g|].
  - destruct (data_users d) as [m|] eqn:Hm; [|exact Hf1].
    destruct (m !! _) as [r0|]; [|exact Hf1].
    cbn [fst]. apply within_save; [exact Hf1|]. intros r Hr.
    apply (records_set_users m _ _ d r Hm) in Hr.
    destruct Hr as [->|Hr]; [simpl; lia | now apply Hd].
  - destruct (data_user d) as [r0|]; [|exact Hf1].
    destruct (rec_truthy r0); [|exact Hf1].
    cbn [fst]. apply within_save; [exact Hf1|]. intros r Hr.
    apply records_set_user in Hr.
    destruct Hr as [->|Hr]; [simpl; lia | now apply Hd].
Qed.

Lemma descriptions_stay_within_limit_witness :
  descriptions_within (max_length Inputs.store_config)
    (fst (known_command Inputs.store_config Inputs.ann_in_guild (lit "set")
            (Some (lit "  likes tea ")) None Inputs.noon Inputs.no_files)).
Proof.
  apply (descriptions_stay_within_limit Inputs.store_config Inputs.ann_in_guild
           (lit "set") (Some (lit "  likes tea ")) None Inputs.noon
           Inputs.no_files).
  intros path d r Hpath. unfold Inputs.no_files in Hpath.
  rewrite lookup_empty in Hpath. discriminate.
Defined.

(** Who is not an administrator cannot touch what a guild knows of
    anybody else: whatever the action, the description and the member
    named, the record of every other user is afterwards as it was. *)
Theorem known_leaves_other_users config g usr action desc member now files other :
  user_is_admin config {| guild_id := Some g; user := usr |} = false ->
  other <> member_id usr ->
  let record files :=
    record_of (Some g) other
      (snd (load_server_data config (Some g) None files)) in
  record (fst (known_command config {| guild_id := Some g; user := usr |} action
                 desc member now files))
  = record files.
Proof.
  intros Hadmin Hother. cbv zeta.
  destruct member as [u|].
  - destruct (member_id u =? member_id usr) eqn:Hq.
    + apply Z.eqb_eq in Hq. apply known_command_frame. simpl. congruence.
    + unfold known_command. cbn [guild_id user default].
      change (user_is_admin config {| guild_id := Some g; user := usr |})
        with (Gate.py_in (member_id usr) (admin_ids config)) in *.
      unfold user_is_admin. cbn [user]. rewrite Hq, Hadmin. reflexivity.
  - apply known_command_frame. simpl. congruence.
Qed.

Lemma known_leaves_other_users_witness :
  record_of (Some 70) 1
    (snd (load_server_data Inputs.store_config (Some 70) None
            (fst (known_command Inputs.store_config Inputs.ann_in_guild
                    (lit "remove") None (Some Inputs.root_member) Inputs.noon
                    Inputs.no_files))))
  = record_of (Some 70) 1
      (snd (load_server_data Inputs.store_config (Some 70) None Inputs.no_files)).
Proof.
  apply (known_leaves_other_users Inputs.store_config 70 Inputs.ann_member
           (lit "remove") None (Some Inputs.root_member) Inputs.noon
           Inputs.no_files 1).
  - reflexivity.
  - vm_compute. discriminate.
Defined.

Lemma loop_without_records loc ids :
  Prompt.loop {| Prompt.sd_users := None; Prompt.sd_user := None |} loc ids
  = Return loc.
Proof. induction ids as [|i ids IH]; simpl; [reflexivity | exact IH]. Qed.

(** In a direct message the first message of a user is answered, and
    from the second one on the system prompt cannot be built: the first
    message finds a record without user, which gives the plain prompt,
    and leaves the user on record; every later message finds that
    record, and building the prompt for a conversation with a
    participant then raises UnboundLocalError. *)
Theorem direct_messages_fail_after_first_contact config author_id name now name'
    now' files :
  files !! get_server_file None (Some author_id) = None ->
  exists files1 sd1 files2 sd2,
    on_message_store config None author_id name now files = (files1, Ok sd1)
    /\ on_message_store config None author_id name' now' files1 = (files2, Ok sd2)
    /\ data_users sd1 = None
    /\ data_users sd2 = None
    /\ (forall date time base server_name ids,
           Prompt.build_system_prompt date time base (dm_server_data sd1)
             server_name ids
           = Return (Prompt.prompt_head date time base server_name))
    /\ (forall date time base server_name i ids,
           Prompt.build_system_prompt date time base (dm_server_data sd2)
             server_name (i :: ids)
           = Raise UnboundLocalError).
Proof.
  intros Hnew.
  set (dflt := {| data_model := default_model config;
                  data_system_prompt := default_system_prompt config;
                  data_users := None;
                  data_user := Some empty_rec |}).
  set (f0 := save_server_data None dflt (Some author_id) files).
  set (d1 := set_user (new_rec name now) dflt).
  set (f1 := save_server_data None d1 (Some author_id) f0).
  set (d2 := set_user (seen_again name' now' (new_rec name now)) d1).
  assert (H0 : load_server_data config None (Some author_id) files = (f0, dflt)).
  { unfold load_server_data. cbv zeta. rewrite Hnew. reflexivity. }
  assert (H1 : get_or_create_user config None author_id name (Some author_id) now
                 f0 = (f1, Ok (new_rec name now))).
  { unfold get_or_create_user. subst f0. rewrite load_after_save. reflexivity. }
  assert (H2 : load_server_data config None (Some author_id) f1 = (f1, d1))
    by apply load_after_save.
  assert (H3 : get_or_create_user config None author_id name' (Some author_id)
                 now' f1
               = (save_server_data None d2 (Some author_id) f1,
                  Ok (seen_again name' now' (new_rec name now)))).
  { unfold get_or_create_user. rewrite H2. reflexivity. }
  exists f1, dflt, (save_server_data None d2 (Some author_id) f1), d1.
  split; [unfold on_message_store; now rewrite H0, H1|].
  split; [unfold on_message_store; now rewrite H2, H3|].
  split; [reflexivity|]. split; [reflexivity|]. split.
  - intros date time base server_name ids.
    unfold Prompt.build_system_prompt.
    change (dm_server_data dflt)
      with {| Prompt.sd_users := None; Prompt.sd_user := None |}.
    now rewrite loop_without_records.
  - intros date time base server_name i ids. reflexivity.
Qed.

Lemma direct_messages_fail_after_first_contact_witness :
  exists files1 sd1 files2 sd2,
    on_message_store Inputs.store_config None 2 (lit "Ann") Inputs.noon
      Inputs.no_files = (files1, Ok sd1)
    /\ on_message_store Inputs.store_config None 2 (lit "Ann") Inputs.noon files1
       = (files2, Ok sd2)
    /\ data_users sd1 = None
    /\ data_users sd2 = None
    /\ (forall date time base server_name ids,
           Prompt.build_system_prompt date time base (dm_server_data sd1)
             server_name ids
           = Return (Prompt.prompt_head date time base server_name))
    /\ (forall date time base server_name i ids,
           Prompt.build_system_prompt date time base (dm_server_data sd2)
             server_name (i :: ids)
           = Raise UnboundLocalError).
Proof.
  apply (direct_messages_fail_after_first_contact Inputs.store_config 2
           (lit "Ann") Inputs.noon (lit "Ann") Inputs.noon Inputs.no_files).
  apply lookup_empty.
Defined.

End StoreGuarantees.

(** * Further properties: image links *)

Section UrlFacts.
Import Urls.

Lemma starts_with_app p : forall s,
  starts_with p s = true -> s = p ++ skipn (length p) s.
Proof.
  induction p as [|a p IH]; intros [|b s] H; simpl in *; try discriminate;
    try reflexivity.
  apply andb_prop in H. destruct H as [Hab Hp]. apply N.eqb_eq in Hab. subst b.
  f_equal. now apply IH.
Qed.

Lemma starts_with_refl p s : starts_with p (p ++ s) = true.
Proof.
  induction p as [|a p IH]; simpl; [reflexivity|]. now rewrite N.eqb_refl.
Qed.

Lemma contains_middle u pre post : contains u (pre ++ u ++ post) = true.
Proof.
  induction pre as [|c pre IH]; simpl.
  - destruct (u ++ post) eqn:E; simpl; rewrite <- ?E, starts_with_refl;
      reflexivity.
  - rewrite IH. apply orb_true_r.
Qed.

Lemma take_while_spec f s :
  forallb f (take_while f s) = true
  /\ exists rest, s = take_while f s ++ rest.
Proof.
  induction s as [|c s [IH1 [rest IH2]]]; simpl.
  - split; [reflexivity | now exists []].
  - destruct (f c) eqn:Hc; simpl.
    + rewrite Hc, IH1. split; [reflexivity|]. exists rest. now rewrite <- IH2.
    + split; [reflexivity|]. now exists (c :: s).
Qed.

Lemma match_at_spec s u :
  match_at s = Some u ->
  (exists rest, s = u ++ rest)
  /\ forallb url_char u = true
  /\ (starts_with (lit "https://") u || starts_with (lit "http://") u) = true.
Proof.
  assert (Hscheme : forall scheme,
             forallb url_char scheme = true ->
             (if starts_with scheme s
              then match take_while url_char (skipn (length scheme) s) with
                   | [] => None
                   | run => Some (scheme ++ run)
                   end
              else None) = Some u ->
             (exists rest, s = u ++ rest)
             /\ forallb url_char u = true
             /\ starts_with scheme u = true).
  { intros scheme Hs H.
    destruct (starts_with scheme s) eqn:Hst; [|discriminate].
    apply starts_with_app in Hst.
    destruct (take_while_spec url_char (skipn (length scheme) s))
      as [Hall [rest Hrest]].
    destruct (take_while url_char (skipn (length scheme) s)) as [|c run];
      [discriminate|].
    injection H as <-. split; [|split].
    - exists rest. rewrite <- app_assoc, <- Hrest. exact Hst.
    - rewrite forallb_app, Hs. exact Hall.
    - apply starts_with_refl. }
  unfold match_at.
  destruct (if starts_with (lit "https://") s then _ else None) as [u'|] eqn:H1.
  - intros [= <-]. destruct (Hscheme (lit "https://") eq_refl H1) as (Hr & Ha & Hs).
    split; [exact Hr|]. split; [exact Ha|]. now rewrite Hs.
  - intros H2. destruct (Hscheme (lit "http://") eq_refl H2) as (Hr & Ha & Hs).
    split; [exact Hr|]. split; [exact Ha|]. rewrite Hs. apply orb_true_r.
Qed.

Lemma findall_spec s : forall skip u,
  In u (findall skip s) ->
  (exists pre post, s = pre ++ u ++ post)
  /\ forallb url_char u = true
  /\ (starts_with (lit "https://") u || starts_with (lit "http://") u) = true.
Proof.
  induction s as [|c s IH]; intros skip u Hin; [destruct Hin|].
  assert (Hlater : forall k, In u (findall k s) ->
             (exists pre post, c :: s = pre ++ u ++ post)
             /\ forallb url_char u = true
             /\ (starts_with (lit "https://") u || starts_with (lit "http://") u)
                = true).
  { intros k Hk. destruct (IH k u Hk) as ((pre & post & Hs) & Hrest).
    split; [|exact Hrest]. exists (c :: pre), post. now rewrite Hs. }
  simpl in Hin. destruct skip as [|k]; [|exact (Hlater _ Hin)].
  destruct (match_at (c :: s)) as [u'|] eqn:Hm; [|exact (Hlater _ Hin)].
  destruct Hin as [<-|Hin]; [|exact (Hlater _ Hin)].
  destruct (match_at_spec _ _ Hm) as ((rest & Hs) & Hrest).
  split; [|exact Hrest]. exists [], rest. exact Hs.
Qed.

Lemma In_firstn {A} (n : nat) (l : list A) x : In x (firstn n l) -> In x l.
Proof.
  revert l. induction n as [|n IH]; intros [|a l] H; simpl in *; try tauto.
  destruct H as [->|H]; [now left | right; now apply IH].
Qed.

(** At most [max_urls] links are returned, and each of them is an image
    link of the text: it occurs in the text, it begins with the http or
    https scheme, it holds no white space, quote or bracket, and it ends
    in one of the image extensions, whatever the case of its letters. *)
Theorem extracted_urls_are_image_links text max_urls :
  (length (extract_image_urls text max_urls) <= max_urls)%nat
  /\ forall u, In u (extract_image_urls text max_urls) ->
       contains u text = true
       /\ (starts_with (lit "https://") u || starts_with (lit "http://") u) = true
       /\ forallb url_char u = true
       /\ is_image_url u = true.
Proof.
  unfold extract_image_urls, slice_to. split.
  - rewrite length_firstn. lia.
  - intros u Hin. apply In_firstn, filter_In in Hin. destruct Hin as [Hin Himg].
    destruct (findall_spec text 0 u Hin) as ((pre & post & Htext) & Hall & Hs).
    repeat split; try assumption.
    rewrite Htext. apply contains_middle.
Qed.

End UrlFacts.

(** * Further properties: image download *)

Section DownloadFacts.
Import Download.

Lemma pick_mime_supported lowered mt :
  pick_mime mime_type_mapping lowered = Some mt ->
  In mt [lit "image/jpeg"; lit "image/png"; lit "image/webp"].
Proof.
  unfold mime_type_mapping. cbn [pick_mime].
  repeat match goal with
         | |- context [if ?b then _ else _] => destruct b
         end; intros [= <-]; cbn [In]; tauto.
Qed.

(** An image handed to the model has one of the three supported types
    and comes from a response with status 200.  A response whose content
    type mentions gif is never passed on as it is: its part is the
    converted picture, typed as PNG; every other part carries the body
    of the response unchanged. *)
Theorem downloaded_images_are_supported get to_png b64encode url part :
  download_and_encode_image get to_png b64encode url = Some part ->
  In (Chat.mime_type part) [lit "image/jpeg"; lit "image/png"; lit "image/webp"]
  /\ exists response,
       get url = Some response
       /\ status_code response = 200
       /\ if contains (lit "gif") (Urls.lower (default [] (header response)))
          then Chat.mime_type part = lit "image/png"
               /\ exists png, to_png (content response) = Some png
                              /\ Chat.data part = b64encode png
          else Chat.data part = b64encode (content response).
Proof.
  unfold download_and_encode_image.
  destruct (get url) as [response|]; [|discriminate].
  destruct (status_code response =? 200) eqn:Hstatus; [|discriminate].
  apply Z.eqb_eq in Hstatus. cbn [negb]. cbv zeta.
  destruct (pick_mime mime_type_mapping _) as [mt|] eqn:Hpick; [|discriminate].
  apply pick_mime_supported in Hpick.
  destruct (contains (lit "gif") _) eqn:Hgif.
  - destruct (to_png (content response)) as [png|] eqn:Hpng; [|discriminate].
    intros [= <-]. split; [cbn; tauto|].
    exists response. rewrite Hgif. repeat split; try assumption. now exists png.
  - intros [= <-]. split; [exact Hpick|].
    exists response. rewrite Hgif. repeat split; assumption.
Qed.

Lemma downloaded_images_are_supported_witness :
  In (Chat.mime_type {| Chat.mime_type := lit "image/png"; Chat.data := [] |})
     [lit "image/jpeg"; lit "image/png"; lit "image/webp"]
  /\ exists response,
       Inputs.gif_server (lit "https://cdn.example/a.gif") = Some response
       /\ status_code response = 200
       /\ if contains (lit "gif") (Urls.lower (default [] (header response)))
          then Chat.mime_type {| Chat.mime_type := lit "image/png"; Chat.data := [] |}
               = lit "image/png"
               /\ exists png, Inputs.same_bytes (content response) = Some png
                              /\ Chat.data
                                   {| Chat.mime_type := lit "image/png";
                                      Chat.data := [] |}
                                 = Inputs.no_text png
          else Chat.data {| Chat.mime_type := lit "image/png"; Chat.data := [] |}
               = Inputs.no_text (content response).
Proof.
  apply (downloaded_images_are_supported Inputs.gif_server Inputs.same_bytes
           Inputs.no_text (lit "https://cdn.example/a.gif")).
  reflexivity.
Defined.

End DownloadFacts.
